(** * Flood zone overlay engine: a shallow embedding of
      [static/js/flood-zone-manager.js]

    The embedding follows the class [FloodZoneManager]: the raster scan
    ([detectImageContentBounds]), the perimeter extractor
    ([detectColorPerimeter], [douglasPeucker], [pointToLineDistance]),
    the coordinate mapper ([pixelsToLatLng]), the point queries
    ([getZoneAtPoint], [isPointInBounds], [isPointOverColoredPixels]) and the
    transform engine ([applyScaleToZone], [applyRotationToZone],
    [saveZoneTransform]).

    Numbers.  A JavaScript number that holds a coordinate, a size or a
    distance is a real number here ([R], with [sqrt] for [Math.sqrt]); rounding
    of IEEE doubles is not modelled.  Pixel indices and image sizes are natural
    numbers, colour and alpha samples are integers in [0, 255].  [Infinity] is
    the [None] of an [option R]. *)

From Stdlib Require Import Reals Lra Lia ZArith List Bool String.
From stdpp Require Import gmap.
Import ListNotations.

Local Open Scope R_scope.

(** ** Comparisons of numbers as booleans *)

Definition Rleb (a b : R) : bool := if Rle_dec a b then true else false.
Definition Rltb (a b : R) : bool := if Rlt_dec a b then true else false.
Definition Rgeb (a b : R) : bool := Rleb b a.
Definition Rgtb (a b : R) : bool := Rltb b a.
Definition Reqb (a b : R) : bool := if Req_dec_T a b then true else false.

(** ** Exceptions

    [Throw] is a raised exception, [try_catch r h] is
    [try { return r } catch (error) { return h }]. *)

Inductive result (A : Type) : Type :=
| Ok (a : A)
| Throw.
Arguments Ok {A} a.
Arguments Throw {A}.

Definition bind_result {A B : Type} (r : result A) (k : A -> result B) : result B :=
  match r with
  | Ok a => k a
  | Throw => Throw
  end.

Notation "x <-! r ;; k" := (bind_result r (fun x => k))
  (at level 62, r at next level, k at level 200, right associativity).

Definition try_catch {A : Type} (r : result A) (handler : A) : A :=
  match r with
  | Ok a => a
  | Throw => handler
  end.

(** ** Geometry values *)

(** A geographic point [[lat, lng]] (also the [{lat, lng}] of a marker). *)
Abbreviation LatLng := (R * R)%type.

(** Geographic bounds [[[south, west], [north, east]]]. *)
Abbreviation Bounds := ((R * R) * (R * R))%type.

(** A pixel position [[x, y]] in a path. *)
Abbreviation Point := (R * R)%type.

(** The object returned by [detectImageContentBounds]. *)
Record ContentBounds : Type := {
  minX : R;
  minY : R;
  maxX : R;
  maxY : R;
  imgWidth : nat;
  imgHeight : nat
}.

(** The entry of [baseZoneSizes]. *)
Record BaseSize : Type := {
  latSize : R;
  lngSize : R
}.

(** ** The zone record, as loaded from [/api/flood-zones/all] *)

Module Zone.
Record t : Type := {
  id : Z;
  name : string;
  image_path : string;
  bounds : Bounds;
  opacity : option R;
  rotation : option R;
  perimeter : option (list LatLng)
}.
End Zone.

(** [v || d] on an optional number: [undefined] and [0] are falsy. *)
Definition or_default (v : option R) (d : R) : R :=
  match v with
  | Some x => if Reqb x 0 then d else x
  | None => d
  end.

(** ** The Leaflet image overlay, as far as the manager reads and writes it *)

(** The element returned by [overlay.getElement()]: the rotation written to
    [style.transform] and whether [querySelector('img')] finds an image. *)
Record OverlayElement : Type := {
  el_rotate : option R;
  el_hasImg : bool
}.

(** [ov_bounds] is what [setBounds] writes and [getBounds] reads, [ov_onMap]
    is [_map !== null], [ov_element] is the result of [getElement()] (absent
    before the layer has built its element).  [ov_boundsIterable] records
    whether the value returned by [getBounds()] can be destructured as the
    nested array [[[south, west], [north, east]]]: destructuring a value that
    is not iterable raises a [TypeError]. *)
Record Overlay : Type := {
  ov_bounds : Bounds;
  ov_onMap : bool;
  ov_element : option OverlayElement;
  ov_boundsIterable : bool
}.

Definition setBounds (overlay : Overlay) (newBounds : Bounds) : Overlay :=
  {| ov_bounds := newBounds;
     ov_onMap := ov_onMap overlay;
     ov_element := ov_element overlay;
     ov_boundsIterable := ov_boundsIterable overlay |}.

Definition setElement (overlay : Overlay) (el : option OverlayElement) : Overlay :=
  {| ov_bounds := ov_bounds overlay;
     ov_onMap := ov_onMap overlay;
     ov_element := el;
     ov_boundsIterable := ov_boundsIterable overlay |}.

(** [const [[south, west], [north, east]] = overlay.getBounds()] *)
Definition destructureBounds (overlay : Overlay) : result Bounds :=
  if ov_boundsIterable overlay then Ok (ov_bounds overlay) else Throw.

(** ** The manager state (the fields of [FloodZoneManager]) *)

Record FloodZoneManager : Type := {
  zones : list Zone.t;
  overlays : gmap Z Overlay;
  anchors : gmap Z LatLng;
  baseZoneSizes : gmap Z BaseSize;
  currentScale : R;
  currentRotation : R;
  selectedZoneId : option Z;
  contentBoundsCache : option (gmap Z ContentBounds)
}.

(** ** Point queries *)

Definition isPointInBounds (point : LatLng) (bounds : Bounds) : bool :=
  let '(lat, lng) := point in
  let '((south, west), (north, east)) := bounds in
  Rgeb lat south && Rleb lat north && Rgeb lng west && Rleb lng east.

(** [this.contentBoundsCache?.get(zone.id)] *)
Definition cachedContentBounds (this : FloodZoneManager) (zoneId : Z) : option ContentBounds :=
  match contentBoundsCache this with
  | Some cache => cache !! zoneId
  | None => None
  end.

(** The normalised position [(normX, normY)] of a geographic point within
    [bounds], as [isPointOverColoredPixels] computes it (Y is flipped). *)
Definition normalizedPosition (point : LatLng) (bounds : Bounds) : R * R :=
  let '((south, west), (north, east)) := bounds in
  let '(lat, lng) := point in
  let normX := (lng - west) / (east - west) in
  let normY := (north - lat) / (north - south) in
  (normX, normY).

Definition isPointOverColoredPixels
    (this : FloodZoneManager) (point : LatLng) (overlay : Overlay) (zone : Zone.t) : bool :=
  try_catch
    (match ov_element overlay with
     | None => Ok false
     | Some overlayElement =>
       if negb (el_hasImg overlayElement) then Ok false
       else
         match cachedContentBounds this (Zone.id zone) with
         | None => Ok true
         | Some contentBounds =>
           bounds <-! destructureBounds overlay ;;
           let '(normX, normY) := normalizedPosition point bounds in
           Ok (Rgeb normX (minX contentBounds) && Rleb normX (maxX contentBounds) &&
               Rgeb normY (minY contentBounds) && Rleb normY (maxY contentBounds))
         end
     end)
    true.

(** The body of [for (const zone of zonesToCheck)]. *)
Fixpoint getZoneAtPoint_loop
    (this : FloodZoneManager) (point : LatLng) (checkPixels : bool)
    (zonesToCheck : list Zone.t) : option Zone.t :=
  match zonesToCheck with
  | [] => None
  | zone :: rest =>
    if isPointInBounds point (Zone.bounds zone) then
      if negb checkPixels then Some zone
      else
        match overlays this !! Zone.id zone with
        | Some overlay =>
          if isPointOverColoredPixels this point overlay zone then Some zone
          else getZoneAtPoint_loop this point checkPixels rest
        | None => Some zone
        end
    else getZoneAtPoint_loop this point checkPixels rest
  end.

Definition getZoneAtPoint
    (this : FloodZoneManager) (lat lng : R) (checkPixels : bool) : option Zone.t :=
  let point := (lat, lng) in
  let zonesToCheck := rev (zones this) in
  getZoneAtPoint_loop this point checkPixels zonesToCheck.

(** ** Raster access

    [ctx.getImageData(0, 0, canvas.width, canvas.height)]: the canvas size and
    the flat RGBA array, four samples per pixel.  An index outside the array
    reads [undefined], and [undefined >= 10] is false. *)

Record ImageData : Type := {
  width : nat;
  height : nat;
  data : list Z
}.

(** [alpha >= 10] for [alpha = data[index + 3]]. *)
Definition alphaAtLeast10 (alpha : option Z) : bool :=
  match alpha with
  | Some a => (10 <=? a)%Z
  | None => false
  end.

Definition pixelAlpha (img : ImageData) (x y : nat) : option Z :=
  let index := ((y * width img + x) * 4)%nat in
  data img !! (index + 3)%nat.

(** ** Content-bounds detector *)

(** The mutable locals of the scan. *)
Record ScanState : Type := {
  sc_minX : nat;
  sc_minY : nat;
  sc_maxX : nat;
  sc_maxY : nat;
  foundColoredPixel : bool
}.

Definition scanPixel (img : ImageData) (y : nat) (s : ScanState) (x : nat) : ScanState :=
  let alpha := pixelAlpha img x y in
  if alphaAtLeast10 alpha then
    {| foundColoredPixel := true;
       sc_minX := if (x <? sc_minX s)%nat then x else sc_minX s;
       sc_maxX := if (sc_maxX s <? x)%nat then x else sc_maxX s;
       sc_minY := if (y <? sc_minY s)%nat then y else sc_minY s;
       sc_maxY := if (sc_maxY s <? y)%nat then y else sc_maxY s |}
  else s.

Definition scanRow (img : ImageData) (s : ScanState) (y : nat) : ScanState :=
  fold_left (scanPixel img y) (seq 0 (width img)) s.

Definition scanImage (img : ImageData) : ScanState :=
  fold_left (scanRow img) (seq 0 (height img))
    {| sc_minX := width img; sc_minY := height img;
       sc_maxX := 0; sc_maxY := 0; foundColoredPixel := false |}.

(** [canvasRead] is the outcome of [drawImage] followed by [getImageData]:
    [Throw] when the canvas cannot be read. *)
Definition detectImageContentBounds (canvasRead : result ImageData) : option ContentBounds :=
  try_catch
    (img <-! canvasRead ;;
     let s := scanImage img in
     if foundColoredPixel s then
       Ok (Some {| minX := INR (sc_minX s) / INR (width img);
                   minY := INR (sc_minY s) / INR (height img);
                   maxX := INR (sc_maxX s + 1) / INR (width img);
                   maxY := INR (sc_maxY s + 1) / INR (height img);
                   imgWidth := width img;
                   imgHeight := height img |})
     else Ok None)
    None.

(** The first parameter of the source, [imageOverlay], is not used by it. *)
Definition adjustOverlayBoundsToContent
    (contentBounds : option ContentBounds) (originalBounds : Bounds) : Bounds :=
  match contentBounds with
  | None => originalBounds
  | Some contentBounds =>
    let '((south, west), (north, east)) := originalBounds in
    let latRange := north - south in
    let lngRange := east - west in
    let newWest := west + (lngRange * minX contentBounds) in
    let newEast := west + (lngRange * maxX contentBounds) in
    let newNorth := north - (latRange * minY contentBounds) in
    let newSouth := north - (latRange * maxY contentBounds) in
    ((newSouth, newWest), (newNorth, newEast))
  end.

(** ** Coordinate mapper *)

Definition pixelsToLatLng
    (pixels : list Point) (imageWidth imageHeight : R) (bounds : Bounds) : list LatLng :=
  let '((south, west), (north, east)) := bounds in
  let latRange := north - south in
  let lngRange := east - west in
  map (fun '(x, y) =>
         let normX := x / imageWidth in
         let normY := y / imageHeight in
         let lng := west + (lngRange * normX) in
         let lat := north - (latRange * normY) in
         (lat, lng))
      pixels.

(** Modelled from the spec: [geoToPixel(lat, lng, W, H, bounds)], described as
    the inverse of [pixelToGeo]; the source has no such function and only
    computes [normalizedPosition], which is scaled here by the image size. *)
Definition geoToPixel (lat lng : R) (W H : R) (bounds : Bounds) : Point :=
  let '(normX, normY) := normalizedPosition (lat, lng) bounds in
  (normX * W, normY * H).

(** ** Douglas-Peucker simplification

    The distance is computed over the reals.  The source computes it in
    doubles, where the result can differ from the value here by rounding:
    a distance that is exactly 0 or exactly equal to the tolerance here
    may come out a unit in the last place above it there.  The theorems
    on [douglasPeucker] are stated for paths on which the comparisons
    [dist > maxDist] and [maxDist > tolerance] do not hinge on such a tie,
    or hold whichever way the comparisons go. *)

Definition pointToLineDistance (point lineStart lineEnd : Point) : R :=
  let '(px, py) := point in
  let '(x1, y1) := lineStart in
  let '(x2, y2) := lineEnd in
  let A := px - x1 in
  let B := py - y1 in
  let C := x2 - x1 in
  let D := y2 - y1 in
  let dot := A * C + B * D in
  let lenSq := C * C + D * D in
  let param := if negb (Reqb lenSq 0) then dot / lenSq else -1 in
  let '(xx, yy) :=
    if Rltb param 0 then (x1, y1)
    else if Rgtb param 1 then (x2, y2)
    else (x1 + param * C, y1 + param * D) in
  let dx := px - xx in
  let dy := py - yy in
  sqrt (dx * dx + dy * dy).

(** [points[i]]; every use below is within range. *)
Definition pointAt (points : list Point) (i : nat) : Point := nth i points (0, 0).

(** One turn of [for (let i = 1; i < end; i++)]: the pair is
    [(maxDist, maxIdx)]. *)
Definition dpScanStep (points : list Point) (end_ : nat) (acc : R * nat) (i : nat) : R * nat :=
  let '(maxDist, maxIdx) := acc in
  let dist := pointToLineDistance (pointAt points i) (pointAt points 0) (pointAt points end_) in
  if Rgtb dist maxDist then (dist, i) else (maxDist, maxIdx).

Definition dpScan (points : list Point) (end_ : nat) : R * nat :=
  fold_left (dpScanStep points end_) (seq 1 (end_ - 1)) (0, 0%nat).

(** The recursion of [douglasPeucker] is not on a sub-term, and with a
    negative tolerance the source recurses on [points.slice(0)] for ever:
    the embedding counts the depth in [fuel] and answers [None] when it runs
    out. *)
Fixpoint douglasPeucker (fuel : nat) (points : list Point) (tolerance : R)
    : option (list Point) :=
  match fuel with
  | O => None
  | S fuel' =>
    if (length points <=? 2)%nat then Some points
    else
      let end_ := (length points - 1)%nat in
      let '(maxDist, maxIdx) := dpScan points end_ in
      if Rgtb maxDist tolerance then
        match douglasPeucker fuel' (firstn (maxIdx + 1) points) tolerance with
        | None => None
        | Some left_ =>
          match douglasPeucker fuel' (skipn maxIdx points) tolerance with
          | None => None
          | Some right_ => Some (removelast left_ ++ right_)
          end
        end
      else Some [pointAt points 0; pointAt points end_]
  end.

(** ** Perimeter extractor *)

(** [isColored[y][x] = alpha >= 10] for every pixel. *)
Definition coloredMask (img : ImageData) : list (list bool) :=
  map (fun y => map (fun x => alphaAtLeast10 (pixelAlpha img x y)) (seq 0 (width img)))
      (seq 0 (height img)).

(** [isColored[y][x]]; every read below is within the mask. *)
Definition maskAt (isColored : list (list bool)) (y x : nat) : bool :=
  match isColored !! y with
  | Some row => match row !! x with Some b => b | None => false end
  | None => false
  end.

Definition isEdgePixel (isColored : list (list bool)) (w h x y : nat) : bool :=
  if negb (maskAt isColored y x) then false
  else if (x =? 0)%nat || (x =? w - 1)%nat || (y =? 0)%nat || (y =? h - 1)%nat then true
  else
    existsb (fun '(nx, ny) => negb (maskAt isColored ny nx))
            [(x, y - 1); (x + 1, y); (x, y + 1); (x - 1, y)]%nat.

(** The row-major scan that pushes [[x, y]] for every edge pixel. *)
Definition edgePixels (img : ImageData) : list Point :=
  let isColored := coloredMask img in
  flat_map
    (fun y =>
       flat_map
         (fun x =>
            if isEdgePixel isColored (width img) (height img) x y
            then [(INR x, INR y)] else [])
         (seq 0 (width img)))
    (seq 0 (height img)).

Definition pixelDistance (p q : Point) : R :=
  sqrt ((fst p - fst q) ^ 2 + (snd p - snd q) ^ 2).

(** One turn of the thinning loop: keep a point unless it lies closer than
    [threshold] to a point already kept. *)
Definition thinStep (threshold : R) (simplified : list Point) (p : Point) : list Point :=
  let tooClose := existsb (fun s => Rltb (pixelDistance p s) threshold) simplified in
  if negb tooClose then simplified ++ [p] else simplified.

Definition thinPoints (edge : list Point) : list Point :=
  fold_left (thinStep 2) edge [].

(** [dist < nearestDist] and [nearestDist > 50] where [nearestDist] starts at
    [Infinity]. *)
Definition ltInfinity (dist : R) (nearestDist : option R) : bool :=
  match nearestDist with
  | Some d => Rltb dist d
  | None => true
  end.

Definition gtInfinity (nearestDist : option R) (bound : R) : bool :=
  match nearestDist with
  | Some d => Rgtb d bound
  | None => true
  end.

Definition nearestStep (current : Point) (remaining : list Point)
    (acc : option R * nat) (i : nat) : option R * nat :=
  let '(nearestDist, nearestIdx) := acc in
  let dist := pixelDistance current (pointAt remaining i) in
  if ltInfinity dist nearestDist then (Some dist, i) else (nearestDist, nearestIdx).

Definition findNearest (current : Point) (remaining : list Point) : option R * nat :=
  fold_left (nearestStep current remaining) (seq 0 (length remaining)) (None, 0%nat).

(** [while (remaining.length > 0)]: every turn removes one point of
    [remaining], so [n] turns are enough for [n = remaining.length]. The
    result is [(path, remaining)]. *)
Fixpoint stitchLoop (n : nat) (current : Point) (path remaining : list Point)
    : list Point * list Point :=
  match n with
  | O => (path, remaining)
  | S n' =>
    match remaining with
    | [] => (path, remaining)
    | first :: rest =>
      let '(nearestDist, nearestIdx) := findNearest current remaining in
      if gtInfinity nearestDist 50 && (10 <? length path)%nat then
        stitchLoop n' first (path ++ [first]) rest
      else
        let next := pointAt remaining nearestIdx in
        stitchLoop n' next (path ++ [next]) (delete nearestIdx remaining)
    end
  end.

(** The ordered path built from the thinned edge points ([None] when there is
    no point to start from). *)
Definition stitchedPath (simplified : list Point) : option (list Point) :=
  match simplified with
  | [] => None
  | current :: remaining =>
    Some (fst (stitchLoop (length remaining) current [current] remaining))
  end.

Definition detectColorPerimeter (canvasRead : result ImageData) : option (list Point) :=
  try_catch
    (img <-! canvasRead ;;
     let edge := edgePixels img in
     if (length edge =? 0)%nat then Ok None
     else
       match stitchedPath (thinPoints edge) with
       | None => Ok None
       | Some path =>
         if (500 <? length path)%nat
         then Ok (douglasPeucker (S (length path)) path 1)
         else Ok (Some path)
       end)
    None.

(** ** Zone border *)

(** The ring closing of [drawZoneBorder]: push the first vertex when it
    differs from the last one. *)
Definition closeRing (perimeter : list LatLng) : list LatLng :=
  let latlngs := perimeter in
  match latlngs with
  | [] => latlngs
  | first :: _ =>
    let last_ := List.last latlngs first in
    if negb (Reqb (fst first) (fst last_)) || negb (Reqb (snd first) (snd last_))
    then latlngs ++ [first]
    else latlngs
  end.

(** The vertices of the polygon drawn by [drawZoneBorder], [None] for the
    [null] results. *)
Definition drawZoneBorder (mapAvailable : bool) (zone : Zone.t) : option (list LatLng) :=
  if negb mapAvailable then None
  else
    match Zone.perimeter zone with
    | Some perimeter =>
      if (0 <? length perimeter)%nat then Some (closeRing perimeter) else None
    | None => None
    end.

(** Modelled from the spec: the perimeter extraction pipeline of section 4.3,
    [extractPerimeter(image)]: the pixel path of [detectColorPerimeter],
    converted by [pixelsToLatLng] and closed as [drawZoneBorder] closes a
    perimeter.  The source has the three steps and no caller that chains
    them. *)
Definition extractPerimeter (img : ImageData) (bounds : Bounds) : option (list LatLng) :=
  match detectColorPerimeter (Ok img) with
  | None => None
  | Some path =>
    Some (closeRing (pixelsToLatLng path (INR (width img)) (INR (height img)) bounds))
  end.

(** ** Transform engine *)

Definition with_zones (this : FloodZoneManager) (zs : list Zone.t) : FloodZoneManager :=
  {| zones := zs; overlays := overlays this; anchors := anchors this;
     baseZoneSizes := baseZoneSizes this; currentScale := currentScale this;
     currentRotation := currentRotation this; selectedZoneId := selectedZoneId this;
     contentBoundsCache := contentBoundsCache this |}.

Definition with_overlays (this : FloodZoneManager) (os : gmap Z Overlay) : FloodZoneManager :=
  {| zones := zones this; overlays := os; anchors := anchors this;
     baseZoneSizes := baseZoneSizes this; currentScale := currentScale this;
     currentRotation := currentRotation this; selectedZoneId := selectedZoneId this;
     contentBoundsCache := contentBoundsCache this |}.

Definition with_baseZoneSizes (this : FloodZoneManager) (bs : gmap Z BaseSize)
    : FloodZoneManager :=
  {| zones := zones this; overlays := overlays this; anchors := anchors this;
     baseZoneSizes := bs; currentScale := currentScale this;
     currentRotation := currentRotation this; selectedZoneId := selectedZoneId this;
     contentBoundsCache := contentBoundsCache this |}.

Definition with_currentScale (this : FloodZoneManager) (s : R) : FloodZoneManager :=
  {| zones := zones this; overlays := overlays this; anchors := anchors this;
     baseZoneSizes := baseZoneSizes this; currentScale := s;
     currentRotation := currentRotation this; selectedZoneId := selectedZoneId this;
     contentBoundsCache := contentBoundsCache this |}.

Definition with_selectedZoneId (this : FloodZoneManager) (z : option Z) : FloodZoneManager :=
  {| zones := zones this; overlays := overlays this; anchors := anchors this;
     baseZoneSizes := baseZoneSizes this; currentScale := currentScale this;
     currentRotation := currentRotation this; selectedZoneId := z;
     contentBoundsCache := contentBoundsCache this |}.

Definition applyRotationToZone
    (this : FloodZoneManager) (zoneId : Z) (rotationDegrees : R) : FloodZoneManager :=
  match overlays this !! zoneId with
  | None => this
  | Some overlay =>
    match ov_element overlay with
    | Some overlayElement =>
      let rotated := {| el_rotate := Some rotationDegrees;
                        el_hasImg := el_hasImg overlayElement |} in
      with_overlays this (<[zoneId := setElement overlay (Some rotated)]> (overlays this))
    | None => this
    end
  end.

Definition applyScaleToZone
    (this : FloodZoneManager) (zoneId : Z) (scaleFactor : R) : FloodZoneManager :=
  match overlays this !! zoneId, anchors this !! zoneId, baseZoneSizes this !! zoneId with
  | Some overlay, Some center, Some baseSize =>
    let scaledLatSize := latSize baseSize * scaleFactor in
    let scaledLngSize := lngSize baseSize * scaleFactor in
    let newSouth := fst center - scaledLatSize / 2 in
    let newNorth := fst center + scaledLatSize / 2 in
    let newWest := snd center - scaledLngSize / 2 in
    let newEast := snd center + scaledLngSize / 2 in
    let newBounds := ((newSouth, newWest), (newNorth, newEast)) in
    with_overlays this (<[zoneId := setBounds overlay newBounds]> (overlays this))
  | _, _, _ => this
  end.

(** The page and the map, as far as the save path reads them: whether
    [window.mapManager.map] exists, whether the save button is in the
    document, the ids of the checked zone checkboxes, and the element state of
    an overlay that Leaflet has just created. *)
Record Page : Type := {
  mapAvailable : bool;
  saveBtn : bool;
  checkedZoneIds : gset Z;
  newOverlayElement : option OverlayElement;
  newOverlayBoundsIterable : bool
}.

(** The synchronous part of [addZoneOverlay]: the base size is stored only
    when none is stored yet, and a fresh overlay is registered. *)
Definition addZoneOverlay (page : Page) (this : FloodZoneManager) (zone : Zone.t)
    : FloodZoneManager :=
  if negb (mapAvailable page) then this
  else
    let '((south, west), (north, east)) := Zone.bounds zone in
    let baseLatSize := north - south in
    let baseLngSize := east - west in
    let sizes :=
      match baseZoneSizes this !! Zone.id zone with
      | Some _ => baseZoneSizes this
      | None => <[Zone.id zone := {| latSize := baseLatSize; lngSize := baseLngSize |}]>
                  (baseZoneSizes this)
      end in
    let imageOverlay := {| ov_bounds := Zone.bounds zone; ov_onMap := true;
                           ov_element := newOverlayElement page;
                           ov_boundsIterable := newOverlayBoundsIterable page |} in
    with_overlays (with_baseZoneSizes this sizes)
                  (<[Zone.id zone := imageOverlay]> (overlays this)).

Definition removeLayer (overlay : Overlay) : Overlay :=
  {| ov_bounds := ov_bounds overlay; ov_onMap := false;
     ov_element := ov_element overlay;
     ov_boundsIterable := ov_boundsIterable overlay |}.

(** [displayZones]: unchecked zones leave the map, checked zones that are not
    displayed get an overlay.  The map view and the marker popup are not part
    of the manager state. *)
Definition displayZones (page : Page) (this : FloodZoneManager) : FloodZoneManager :=
  if negb (mapAvailable page) then this
  else
    let hidden :=
      fold_left
        (fun st zone =>
           if bool_decide (Zone.id zone ∈ checkedZoneIds page) then st
           else
             match overlays st !! Zone.id zone with
             | Some overlay =>
               with_overlays st (<[Zone.id zone := removeLayer overlay]> (overlays st))
             | None => st
             end)
        (zones this) this in
    fold_left
      (fun st zone =>
         if bool_decide (Zone.id zone ∈ checkedZoneIds page) then
           match overlays st !! Zone.id zone with
           | Some overlay => if ov_onMap overlay then st else addZoneOverlay page st zone
           | None => addZoneOverlay page st zone
           end
         else st)
      (zones this) hidden.

(** [loadZones]: [response] is the zone list of a successful answer of
    [/api/flood-zones/all], [None] for a failed request or an error status. *)
Definition loadZones (page : Page) (response : option (list Zone.t))
    (this : FloodZoneManager) : FloodZoneManager :=
  match response with
  | Some loaded => displayZones page (with_zones this loaded)
  | None => this
  end.

(** The body sent by the save paths. *)
Record ZoneData : Type := {
  zd_name : string;
  zd_image_path : string;
  zd_bounds : Bounds;
  zd_opacity : R;
  zd_rotation : R
}.

(** [{ ...zoneData, id: zoneId }] *)
Definition zoneOfData (zoneData : ZoneData) (zoneId : Z) : Zone.t :=
  {| Zone.id := zoneId;
     Zone.name := zd_name zoneData;
     Zone.image_path := zd_image_path zoneData;
     Zone.bounds := zd_bounds zoneData;
     Zone.opacity := Some (zd_opacity zoneData);
     Zone.rotation := Some (zd_rotation zoneData);
     Zone.perimeter := None |}.

(** [this.zones[zoneIndex] = ...] for the first zone with that id. *)
Fixpoint replaceZone (zs : list Zone.t) (zoneId : Z) (z' : Zone.t) : list Zone.t :=
  match zs with
  | [] => []
  | z :: rest =>
    if (Zone.id z =? zoneId)%Z then z' :: rest
    else z :: replaceZone rest zoneId z'
  end.

(** [updateZone]: [success] tells whether the [PUT] was answered with
    [status === 'success']; anything else is rethrown. *)
Definition updateZone (success : bool) (this : FloodZoneManager)
    (zoneId : Z) (zoneData : ZoneData) : result FloodZoneManager :=
  if success
  then Ok (with_zones this (replaceZone (zones this) zoneId (zoneOfData zoneData zoneId)))
  else Throw.

(** [saveZoneTransform]: [updateSuccess] and [reload] are the answers of the
    backend to the update and to the reload that follows it.  No statement
    after the successful update can raise, so the state seen by [catch] is the
    state before the call. *)
Definition saveZoneTransform
    (page : Page) (updateSuccess : bool) (reload : option (list Zone.t))
    (this : FloodZoneManager) (zoneId : Z) : FloodZoneManager :=
  match find (fun z => (Zone.id z =? zoneId)%Z) (zones this) with
  | None => this
  | Some zone =>
    let scaleFactor := currentScale this / 100 in
    if negb (saveBtn page) then this
    else
      try_catch
        (match anchors this !! zoneId with
         | None => Throw
         | Some center =>
           match baseZoneSizes this !! zoneId with
           | None => Throw
           | Some baseSize =>
             let scaledLatSize := latSize baseSize * scaleFactor in
             let scaledLngSize := lngSize baseSize * scaleFactor in
             let newSouth := fst center - scaledLatSize / 2 in
             let newNorth := fst center + scaledLatSize / 2 in
             let newWest := snd center - scaledLngSize / 2 in
             let newEast := snd center + scaledLngSize / 2 in
             let newBounds := ((newSouth, newWest), (newNorth, newEast)) in
             let updatedZoneData :=
               {| zd_name := Zone.name zone;
                  zd_image_path := Zone.image_path zone;
                  zd_bounds := newBounds;
                  zd_opacity := or_default (Zone.opacity zone) 0.6;
                  zd_rotation := currentRotation this |} in
             updated <-! updateZone updateSuccess this zoneId updatedZoneData ;;
             let resized :=
               with_baseZoneSizes updated
                 (<[zoneId := {| latSize := scaledLatSize; lngSize := scaledLngSize |}]>
                    (baseZoneSizes updated)) in
             let reloaded := loadZones page reload resized in
             Ok (with_selectedZoneId (with_currentScale reloaded 100) (Some zoneId))
           end
         end)
        this
  end.

(** A preview operation of the control window. *)
Inductive Preview : Type :=
| PreviewScale (zoneId : Z) (scaleFactor : R)
| PreviewRotate (zoneId : Z) (rotationDegrees : R).

Definition runPreview (this : FloodZoneManager) (p : Preview) : FloodZoneManager :=
  match p with
  | PreviewScale zoneId scaleFactor => applyScaleToZone this zoneId scaleFactor
  | PreviewRotate zoneId rotationDegrees => applyRotationToZone this zoneId rotationDegrees
  end.

Definition runPreviews (this : FloodZoneManager) (ps : list Preview) : FloodZoneManager :=
  fold_left runPreview ps this.

(** ** Sample data used by the scenarios *)

Definition mkZone (zoneId : Z) (zoneName : string) (b : Bounds) : Zone.t :=
  {| Zone.id := zoneId; Zone.name := zoneName; Zone.image_path := "zone.png";
     Zone.bounds := b; Zone.opacity := None; Zone.rotation := None;
     Zone.perimeter := None |}.

(** The state built by the constructor, once [zs] has been loaded. *)
Definition newManager (zs : list Zone.t) : FloodZoneManager :=
  {| zones := zs; overlays := ∅; anchors := ∅; baseZoneSizes := ∅;
     currentScale := 100; currentRotation := 0; selectedZoneId := None;
     contentBoundsCache := None |}.

Definition zoneA : Zone.t := mkZone 1 "pink" ((0, 0), (10, 10)).
Definition zoneB : Zone.t := mkZone 2 "yellow" ((5, 5), (15, 15)).

(** An overlay registered for a zone whose element is not available. *)
Definition overlayWithoutElement (b : Bounds) : Overlay :=
  {| ov_bounds := b; ov_onMap := true; ov_element := None; ov_boundsIterable := true |}.

Definition managerWithoutElement : FloodZoneManager :=
  with_overlays (newManager [zoneA])
                {[ 1%Z := overlayWithoutElement (Zone.bounds zoneA) ]}.

Definition overlayWithoutImage (b : Bounds) : Overlay :=
  {| ov_bounds := b; ov_onMap := true;
     ov_element := Some {| el_rotate := None; el_hasImg := false |};
     ov_boundsIterable := true |}.

(** An overlay with its element and image, whose [getBounds()] value is not
    an array. *)
Definition overlayLoaded (b : Bounds) : Overlay :=
  {| ov_bounds := b; ov_onMap := true;
     ov_element := Some {| el_rotate := None; el_hasImg := true |};
     ov_boundsIterable := false |}.

Definition managerLoaded : FloodZoneManager :=
  with_overlays (newManager [zoneA]) {[ 1%Z := overlayLoaded (Zone.bounds zoneA) ]}.

(** ** Vocabulary of the raster scan *)

(** A pixel of the image whose alpha sample is at least 10. *)
Definition isColoredPixel (img : ImageData) (x y : nat) : Prop :=
  (x < width img)%nat /\ (y < height img)%nat
  /\ alphaAtLeast10 (pixelAlpha img x y) = true.

(** The pixels in the order of the two nested loops. *)
Definition allPixels (img : ImageData) : list (nat * nat) :=
  flat_map (fun y => map (fun x => (x, y)) (seq 0 (width img))) (seq 0 (height img)).

(** The scan over an explicit list of pixels. *)
Definition scanList (img : ImageData) (ps : list (nat * nat)) (s : ScanState) : ScanState :=
  fold_left (fun s p => scanPixel img (snd p) s (fst p)) ps s.

(** What the scan state records about the pixels visited so far. *)
Record ScanInv (img : ImageData) (visited : list (nat * nat)) (s : ScanState) : Prop := {
  inv_covers : forall x y, In (x, y) visited ->
      alphaAtLeast10 (pixelAlpha img x y) = true ->
      foundColoredPixel s = true
      /\ (sc_minX s <= x <= sc_maxX s)%nat /\ (sc_minY s <= y <= sc_maxY s)%nat;
  inv_minX : foundColoredPixel s = true -> exists y,
      In (sc_minX s, y) visited /\ alphaAtLeast10 (pixelAlpha img (sc_minX s) y) = true;
  inv_maxX : foundColoredPixel s = true -> exists y,
      In (sc_maxX s, y) visited /\ alphaAtLeast10 (pixelAlpha img (sc_maxX s) y) = true;
  inv_minY : foundColoredPixel s = true -> exists x,
      In (x, sc_minY s) visited /\ alphaAtLeast10 (pixelAlpha img x (sc_minY s)) = true;
  inv_maxY : foundColoredPixel s = true -> exists x,
      In (x, sc_maxY s) visited /\ alphaAtLeast10 (pixelAlpha img x (sc_maxY s)) = true;
  inv_fresh : foundColoredPixel s = false ->
      sc_minX s = width img /\ sc_minY s = height img /\ sc_maxX s = 0%nat /\ sc_maxY s = 0%nat
}.

(** The opaque square of [squareRaster]. *)
Definition inSquare (lo hi x y : nat) : bool :=
  (lo <=? x)%nat && (x <=? hi)%nat && (lo <=? y)%nat && (y <=? hi)%nat.

(** A 100 x 100 raster, transparent but for the opaque square of the pixels
    [lo..hi] in both directions. *)
Definition squareRaster (lo hi : nat) : ImageData :=
  {| width := 100; height := 100;
     data := flat_map
               (fun y =>
                  flat_map
                    (fun x =>
                       if inSquare lo hi x y
                       then [255; 0; 0; 255]%Z else [0; 0; 0; 0]%Z)
                    (seq 0 100))
               (seq 0 100) |}.

(** A 2 x 2 raster with one opaque pixel, at [(1, 0)]. *)
Definition dotRaster : ImageData :=
  {| width := 2; height := 2;
     data := [0; 0; 0; 0; 9; 9; 9; 255; 0; 0; 0; 9; 0; 0; 0; 0]%Z |}.

(** ** Vocabulary of the commit *)

(** The rectangle of size [size * scaleFactor] centred on [center], as the
    scale preview and the save path both compute it. *)
Definition scaledSize (baseSize : BaseSize) (scaleFactor : R) : BaseSize :=
  {| latSize := latSize baseSize * scaleFactor;
     lngSize := lngSize baseSize * scaleFactor |}.

Definition centredBounds (center : LatLng) (size : BaseSize) : Bounds :=
  ((fst center - latSize size / 2, snd center - lngSize size / 2),
   (fst center + latSize size / 2, snd center + lngSize size / 2)).

(** The record that a commit with bounds [newBounds] stores for [zone]. *)
Definition savedZone (this : FloodZoneManager) (zone : Zone.t) (zoneId : Z)
    (newBounds : Bounds) : Zone.t :=
  zoneOfData {| zd_name := Zone.name zone;
                zd_image_path := Zone.image_path zone;
                zd_bounds := newBounds;
                zd_opacity := or_default (Zone.opacity zone) 0.6;
                zd_rotation := currentRotation this |} zoneId.

(** The ids and bounds held by a zone list. *)
Definition idBounds (zs : list Zone.t) : list (Z * Bounds) :=
  map (fun z => (Zone.id z, Zone.bounds z)) zs.

(** The answer of the reload that follows a successful update: either the
    request fails, or the backend returns the ids and bounds of the zone list
    the manager holds after the update. *)
Definition reloadReflects (held : list Zone.t) (reload : option (list Zone.t)) : Prop :=
  match reload with
  | Some loaded => idBounds loaded = idBounds held
  | None => True
  end.

Definition findZone (zs : list Zone.t) (zoneId : Z) : option Zone.t :=
  find (fun z => (Zone.id z =? zoneId)%Z) zs.

(** A manager with one zone, its anchor and base size, scaled to 50%. *)
Definition managerScaled : FloodZoneManager :=
  {| zones := [zoneA];
     overlays := {[ 1%Z := overlayLoaded (Zone.bounds zoneA) ]};
     anchors := {[ 1%Z := (5, 5) ]};
     baseZoneSizes := {[ 1%Z := {| latSize := 10; lngSize := 10 |} ]};
     currentScale := 50; currentRotation := 0; selectedZoneId := Some 1%Z;
     contentBoundsCache := None |}.

Definition pageReady : Page :=
  {| mapAvailable := true; saveBtn := true; checkedZoneIds := {[ 1%Z ]};
     newOverlayElement := Some {| el_rotate := None; el_hasImg := true |};
     newOverlayBoundsIterable := false |}.

(** What [displayZones] keeps: the zone list, the anchors, the scale and every
    base size already stored. *)
Definition keeps (st st' : FloodZoneManager) : Prop :=
  zones st' = zones st /\ anchors st' = anchors st
  /\ currentScale st' = currentScale st
  /\ (forall k v, baseZoneSizes st !! k = Some v -> baseZoneSizes st' !! k = Some v).

(** ** Vocabulary of the perimeter properties *)

(** The distance of [points[i]] to the segment from [points[0]] to
    [points[end]], as [douglasPeucker] measures it. *)
Definition deviation (points : list Point) (end_ i : nat) : R :=
  pointToLineDistance (pointAt points i) (pointAt points 0) (pointAt points end_).

(** All points lie on one line [a * x + b * y = c]. *)
Definition collinear (points : list Point) : Prop :=
  exists a b c : R,
    (a <> 0 \/ b <> 0) /\ forall p, In p points -> a * fst p + b * snd p = c.

(** The point at parameter [t] of the segment from [p] to [q]. *)
Definition between (p q : Point) (t : R) : Point :=
  (fst p + t * (fst q - fst p), snd p + t * (snd q - snd p)).

(** 501 points of the line [y = 0]: the path runs from (0,0) out to (1000,0)
    and back to (1,0), then on to (499,0). *)
Definition overshootPath : list Point :=
  (0, 0) :: (1000, 0) :: map (fun k => (INR k, 0)) (seq 1 499).

(** A raster of a single opaque pixel. *)
Definition onePixelRaster : ImageData :=
  {| width := 1; height := 1; data := [255; 0; 0; 255]%Z |}.

(** 499 parameters strictly between 0 and 1. *)
Definition segmentParams : list R :=
  map (fun k => INR k / 500) (seq 1 499).

(** ** Vocabulary of the pixel check *)

(** A zone set in which every registered overlay has its element and image
    and no content bounds are cached. *)
Definition overlaysReady (this : FloodZoneManager) (zs : list Zone.t) : Prop :=
  forall zone overlay,
    In zone zs ->
    overlays this !! Zone.id zone = Some overlay ->
    cachedContentBounds this (Zone.id zone) = None
    /\ exists el, ov_element overlay = Some el /\ el_hasImg el = true.

(** ** Vocabulary of the simplification properties *)

(** [r] keeps the two ends of [points] and, in between, a sub-sequence of
    what lies between them. *)
Definition keepsEnds (points r : list Point) : Prop :=
  ((length points <= 1)%nat /\ r = points)
  \/ exists (a b : Point) (inner kept : list Point),
       points = a :: inner ++ [b] /\ r = a :: kept ++ [b] /\ sublist kept inner.

Definition flatPath : list Point := [(0, 0); (1, 0); (2, 0)].

(** A path that stays on its first point before it leaves for the last. *)
Definition stalledPath : list Point := [(0, 0); (0, 0); (3, 4)].

(** ** Vocabulary of the edge scan *)

(** The four orthogonal neighbours, in the order the source visits them. *)
Definition neighbours4 (x y : nat) : list (nat * nat) :=
  [(x, y - 1); (x + 1, y); (x, y + 1); (x - 1, y)]%nat.

(** A colored pixel on the image border, or with a neighbour that is not
    colored. *)
Definition isEdgeOf (img : ImageData) (x y : nat) : Prop :=
  isColoredPixel img x y
  /\ (x = 0%nat \/ x = (width img - 1)%nat \/ y = 0%nat \/ y = (height img - 1)%nat
      \/ exists nx ny, In (nx, ny) (neighbours4 x y)
                       /\ alphaAtLeast10 (pixelAlpha img nx ny) = false).

(** A zone that carries an open perimeter of two vertices. *)
Definition zoneWithPerimeter : Zone.t :=
  {| Zone.id := 3; Zone.name := "green"; Zone.image_path := "zone.png";
     Zone.bounds := ((0, 0), (1, 1)); Zone.opacity := None; Zone.rotation := None;
     Zone.perimeter := Some [(0, 0); (1, 1)] |}.

(** ** Further operations of the transform engine *)

Definition with_anchors (this : FloodZoneManager) (an : gmap Z LatLng) : FloodZoneManager :=
  {| zones := zones this; overlays := overlays this; anchors := an;
     baseZoneSizes := baseZoneSizes this; currentScale := currentScale this;
     currentRotation := currentRotation this; selectedZoneId := selectedZoneId this;
     contentBoundsCache := contentBoundsCache this |}.

(** [updateZonePosition]: the preview while an anchor is dragged;
    [newCenter] is the [{lat, lng}] of the drag position. *)
Definition updateZonePosition
    (this : FloodZoneManager) (zoneId : Z) (newCenter : LatLng) : FloodZoneManager :=
  match baseZoneSizes this !! zoneId, overlays this !! zoneId with
  | Some baseSize, Some overlay =>
    let scaleFactor := currentScale this / 100 in
    let latSize_ := latSize baseSize * scaleFactor in
    let lngSize_ := lngSize baseSize * scaleFactor in
    let newSouth := fst newCenter - latSize_ / 2 in
    let newNorth := fst newCenter + latSize_ / 2 in
    let newWest := snd newCenter - lngSize_ / 2 in
    let newEast := snd newCenter + lngSize_ / 2 in
    let newBounds := ((newSouth, newWest), (newNorth, newEast)) in
    with_overlays this (<[zoneId := setBounds overlay newBounds]> (overlays this))
  | _, _ => this
  end.

(** [saveZonePosition]: [updateSuccess] is the answer of the backend; a
    rejected update is logged and nothing else happens. *)
Definition saveZonePosition
    (updateSuccess : bool) (this : FloodZoneManager) (zoneId : Z) (newCenter : LatLng)
    : FloodZoneManager :=
  match find (fun z => (Zone.id z =? zoneId)%Z) (zones this) with
  | None => this
  | Some zone =>
    match baseZoneSizes this !! zoneId with
    | None => this
    | Some baseSize =>
      let scaleFactor := currentScale this / 100 in
      let latSize_ := latSize baseSize * scaleFactor in
      let lngSize_ := lngSize baseSize * scaleFactor in
      let newSouth := fst newCenter - latSize_ / 2 in
      let newNorth := fst newCenter + latSize_ / 2 in
      let newWest := snd newCenter - lngSize_ / 2 in
      let newEast := snd newCenter + lngSize_ / 2 in
      let newBounds := ((newSouth, newWest), (newNorth, newEast)) in
      let updatedZoneData :=
        {| zd_name := Zone.name zone;
           zd_image_path := Zone.image_path zone;
           zd_bounds := newBounds;
           zd_opacity := or_default (Zone.opacity zone) 0.6;
           zd_rotation := or_default (Zone.rotation zone) 0 |} in
      try_catch (updateZone updateSuccess this zoneId updatedZoneData) this
    end
  end.

Definition applyScaleToAllZones (this : FloodZoneManager) (scaleFactor : R)
    : FloodZoneManager :=
  fold_left (fun st zone => applyScaleToZone st (Zone.id zone) scaleFactor)
            (zones this) this.

(** The positions remembered before a group rotation: the [Map] from zone id
    to the anchor position. *)
Definition anchorPositionsOf (this : FloodZoneManager) : gmap Z LatLng :=
  fold_left
    (fun m zone =>
       match anchors this !! Zone.id zone with
       | Some anchor => <[Zone.id zone := anchor]> m
       | None => m
       end)
    (zones this) ∅.

(** One turn of the loop that puts a moved anchor back. *)
Definition restoreAnchor (zoneId : Z) (position : LatLng) (st : FloodZoneManager)
    : FloodZoneManager :=
  match anchors st !! zoneId with
  | Some currentPos =>
    if Rgtb (Rabs (fst currentPos - fst position)) 0.0001
       || Rgtb (Rabs (snd currentPos - snd position)) 0.0001
    then with_anchors st (<[zoneId := position]> (anchors st))
    else st
  | None => st
  end.

Definition applyRotationToAllZones (this : FloodZoneManager) (rotationDegrees : R)
    : FloodZoneManager :=
  let anchorPositions := anchorPositionsOf this in
  let rotated :=
    fold_left (fun st zone => applyRotationToZone st (Zone.id zone) rotationDegrees)
              (zones this) this in
  map_fold restoreAnchor rotated anchorPositions.

(** The [input] handlers of the two sliders; [scale] and [rotation] are the
    parsed slider values.  [if (this.selectedZoneId)] is false for no
    selection and for the id 0. *)
Definition selectedZone (this : FloodZoneManager) : option Z :=
  match selectedZoneId this with
  | Some zoneId => if (zoneId =? 0)%Z then None else Some zoneId
  | None => None
  end.

Definition with_currentRotation (this : FloodZoneManager) (r : R) : FloodZoneManager :=
  {| zones := zones this; overlays := overlays this; anchors := anchors this;
     baseZoneSizes := baseZoneSizes this; currentScale := currentScale this;
     currentRotation := r; selectedZoneId := selectedZoneId this;
     contentBoundsCache := contentBoundsCache this |}.

Definition onScaleInput (this : FloodZoneManager) (scale : R) : FloodZoneManager :=
  let this1 := with_currentScale this scale in
  match selectedZone this1 with
  | Some zoneId => applyScaleToZone this1 zoneId (scale / 100)
  | None => applyScaleToAllZones this1 (scale / 100)
  end.

Definition onRotationInput (this : FloodZoneManager) (rotation_ : R) : FloodZoneManager :=
  let this1 := with_currentRotation this rotation_ in
  match selectedZone this1 with
  | Some zoneId => applyRotationToZone this1 zoneId rotation_
  | None => applyRotationToAllZones this1 rotation_
  end.

(** [clearZones]: every overlay leaves the map and the registries of
    overlays and anchors are emptied; the base sizes are kept. *)
Definition clearZones (this : FloodZoneManager) : FloodZoneManager :=
  with_anchors (with_overlays this ∅) ∅.

(** [deleteZone]: [confirmed] is the answer to the confirmation dialog,
    [deleteSuccess] the answer of the backend, [reload] the answer to the
    reload that follows.  The result is the state and the returned value
    ([None] for the bare [return] after a refused confirmation). *)
Definition deleteZone
    (page : Page) (confirmed deleteSuccess : bool) (reload : option (list Zone.t))
    (this : FloodZoneManager) (zoneId : Z) : FloodZoneManager * option bool :=
  if negb confirmed then (this, None)
  else if deleteSuccess then
    let removed :=
      with_baseZoneSizes
        (with_anchors
           (with_overlays this (delete zoneId (overlays this)))
           (delete zoneId (anchors this)))
        (delete zoneId (baseZoneSizes this)) in
    (loadZones page reload removed, Some true)
  else (this, Some false).

(** ** Vocabulary of the group operations *)

(** What a scale preview does to the overlay of [zoneId]. *)
Definition scaleOverlay (this : FloodZoneManager) (scaleFactor : R) (zoneId : Z)
    (overlay : Overlay) : Overlay :=
  match anchors this !! zoneId, baseZoneSizes this !! zoneId with
  | Some center, Some baseSize =>
    setBounds overlay (centredBounds center (scaledSize baseSize scaleFactor))
  | _, _ => overlay
  end.

(** What a rotation preview does to an overlay. *)
Definition rotateOverlay (rotationDegrees : R) (overlay : Overlay) : Overlay :=
  match ov_element overlay with
  | Some el =>
    setElement overlay (Some {| el_rotate := Some rotationDegrees;
                                el_hasImg := el_hasImg el |})
  | None => overlay
  end.

(** The ids of the loaded zones. *)
Definition zoneIds (this : FloodZoneManager) : list Z := map Zone.id (zones this).

(** ** The image callback and the operations as actions *)

Definition with_contentBoundsCache (this : FloodZoneManager)
    (cache : option (gmap Z ContentBounds)) : FloodZoneManager :=
  {| zones := zones this; overlays := overlays this; anchors := anchors this;
     baseZoneSizes := baseZoneSizes this; currentScale := currentScale this;
     currentRotation := currentRotation this; selectedZoneId := selectedZoneId this;
     contentBoundsCache := cache |}.

(** The part of [processImage] (in [addZoneOverlay]) that touches the
    manager: the content bounds of the loaded image are cached under the zone
    id, the cache being created on first use. *)
Definition processImage (this : FloodZoneManager) (zoneId : Z)
    (canvasRead : result ImageData) : FloodZoneManager :=
  match detectImageContentBounds canvasRead with
  | Some contentBounds =>
    let cache := match contentBoundsCache this with
                 | Some cache => cache
                 | None => ∅
                 end in
    with_contentBoundsCache this (Some (<[zoneId := contentBounds]> cache))
  | None => this
  end.

(** The operations of the manager embedded here, with the answers of the
    page and of the backend they depend on. *)
Inductive Action : Type :=
| ActLoadZones (page : Page) (response : option (list Zone.t))
| ActDisplayZones (page : Page)
| ActProcessImage (zoneId : Z) (canvasRead : result ImageData)
| ActClearZones
| ActScaleInput (scale : R)
| ActRotationInput (rotation_ : R)
| ActApplyScale (zoneId : Z) (scaleFactor : R)
| ActApplyRotation (zoneId : Z) (rotationDegrees : R)
| ActApplyScaleAll (scaleFactor : R)
| ActApplyRotationAll (rotationDegrees : R)
| ActUpdatePosition (zoneId : Z) (newCenter : LatLng)
| ActSavePosition (updateSuccess : bool) (zoneId : Z) (newCenter : LatLng)
| ActSaveTransform (page : Page) (updateSuccess : bool) (reload : option (list Zone.t))
                   (zoneId : Z)
| ActUpdateZone (success : bool) (zoneId : Z) (zoneData : ZoneData)
| ActDeleteZone (page : Page) (confirmed deleteSuccess : bool)
                (reload : option (list Zone.t)) (zoneId : Z).

Definition runAction (this : FloodZoneManager) (a : Action) : FloodZoneManager :=
  match a with
  | ActLoadZones page response => loadZones page response this
  | ActDisplayZones page => displayZones page this
  | ActProcessImage zoneId canvasRead => processImage this zoneId canvasRead
  | ActClearZones => clearZones this
  | ActScaleInput scale => onScaleInput this scale
  | ActRotationInput rotation_ => onRotationInput this rotation_
  | ActApplyScale zoneId scaleFactor => applyScaleToZone this zoneId scaleFactor
  | ActApplyRotation zoneId rotationDegrees =>
    applyRotationToZone this zoneId rotationDegrees
  | ActApplyScaleAll scaleFactor => applyScaleToAllZones this scaleFactor
  | ActApplyRotationAll rotationDegrees => applyRotationToAllZones this rotationDegrees
  | ActUpdatePosition zoneId newCenter => updateZonePosition this zoneId newCenter
  | ActSavePosition updateSuccess zoneId newCenter =>
    saveZonePosition updateSuccess this zoneId newCenter
  | ActSaveTransform page updateSuccess reload zoneId =>
    saveZoneTransform page updateSuccess reload this zoneId
  | ActUpdateZone success zoneId zoneData =>
    try_catch (updateZone success this zoneId zoneData) this
  | ActDeleteZone page confirmed deleteSuccess reload zoneId =>
    fst (deleteZone page confirmed deleteSuccess reload this zoneId)
  end.

Definition runActions (this : FloodZoneManager) (acts : list Action) : FloodZoneManager :=
  fold_left runAction acts this.

(** ** Vocabulary of [displayZones] *)

(** The first loop of [displayZones] on one zone id. *)
Definition hideOverlay (page : Page) (zoneId : Z) (overlay : Overlay) : Overlay :=
  if bool_decide (zoneId ∈ checkedZoneIds page) then overlay else removeLayer overlay.

(** The second loop of [displayZones] on one zone. *)
Definition showZone (page : Page) (st : FloodZoneManager) (zone : Zone.t)
    : FloodZoneManager :=
  if bool_decide (Zone.id zone ∈ checkedZoneIds page) then
    match overlays st !! Zone.id zone with
    | Some overlay => if ov_onMap overlay then st else addZoneOverlay page st zone
    | None => addZoneOverlay page st zone
    end
  else st.

(** ** Vocabulary of the reachable states *)

(** The state of the anchors and of the selection that the constructor
    sets up. *)
Definition pristine (st : FloodZoneManager) : Prop :=
  anchors st = ∅ /\ selectedZoneId st = None.

(** ** Vocabulary of the cached pixel check *)



(** ** The flood zone at a location ([mobile.js])

    [getFloodZoneAtLocation] of the map manager.  Each zone checkbox carries
    its zone id, so some box is checked and enabled exactly when the set of
    checked ids is not empty.  [getZoneInfo] is the table lookup of the flood
    zone manager; the report copies [title], [riskLevel], [floodType],
    [floodChance], [insurance] and [color] from its result, kept together here
    as [fz_info]. *)

Record FloodZoneReport (ZoneInfo : Type) : Type := {
  fz_id : Z;
  fz_name : string;
  fz_info : ZoneInfo
}.

Arguments fz_id {ZoneInfo} _.
Arguments fz_name {ZoneInfo} _.
Arguments fz_info {ZoneInfo} _.

Definition hasActiveZones (page : Page) : bool :=
  negb (bool_decide (checkedZoneIds page = ∅)).

Definition getFloodZoneAtLocation {ZoneInfo : Type} (getZoneInfo : string -> ZoneInfo)
    (floodZoneManager : option FloodZoneManager) (page : Page) (lat lng : R)
    : option (FloodZoneReport ZoneInfo) :=
  match floodZoneManager with
  | Some manager =>
    if negb (hasActiveZones page) then None
    else
      match getZoneAtPoint manager lat lng false with
      | Some zone =>
        match overlays manager !! Zone.id zone with
        | Some overlay =>
          if negb (ov_onMap overlay) then None
          else Some {| fz_id := Zone.id zone; fz_name := Zone.name zone;
                       fz_info := getZoneInfo (Zone.name zone) |}
        | None => None
        end
      | None => None
      end
  | None => None
  end.

(** The manager with the two sample zones loaded, [zoneB] last. *)
Definition managerAB : FloodZoneManager := newManager [zoneA; zoneB].

(** ** The hover handlers of [setupImageTransparencyDetection]

    The two listeners share the local [lastTooltipState].  A [mousemove]
    is given by the floored image coordinates [x] and [y] that the handler
    computes from the event (a coordinate that is not a finite number fails
    the range test like a coordinate outside of the image) and by the outcome
    of [imageOverlay.getBounds().getCenter()], which is read only when
    [mouseover] is about to be fired.  The listeners of the overlay are taken
    not to raise. *)

Inductive MouseEvent : Type :=
| MouseMove (x y : Z) (center : result LatLng)
| MouseLeave.

(** The events fired on the image overlay. *)
Inductive Fired : Type :=
| Mouseover (latlng : LatLng)
| Mouseout.

(** [alpha >= 10] at the pixel under the pointer, for coordinates inside the
    image. *)
Definition isOverColoredPixel (pixelData : ImageData) (x y : Z) : bool :=
  alphaAtLeast10 (pixelAlpha pixelData (Z.to_nat x) (Z.to_nat y)).

Definition insideImage (pixelData : ImageData) (x y : Z) : bool :=
  (0 <=? x)%Z && (x <? Z.of_nat (width pixelData))%Z
  && (0 <=? y)%Z && (y <? Z.of_nat (height pixelData))%Z.

(** One event: the new [lastTooltipState] and the events fired.  When
    reading the centre raises, the exception leaves the listener before
    anything is fired or recorded. *)
Definition onMouseEvent (pixelData : ImageData) (lastTooltipState : bool) (e : MouseEvent)
    : bool * list Fired :=
  match e with
  | MouseMove x y center =>
    if insideImage pixelData x y then
      let isOverColoredPixel_ := isOverColoredPixel pixelData x y in
      if isOverColoredPixel_ && negb lastTooltipState then
        match center with
        | Ok latlng => (true, [Mouseover latlng])
        | Throw => (lastTooltipState, [])
        end
      else if negb isOverColoredPixel_ && lastTooltipState then (false, [Mouseout])
      else (lastTooltipState, [])
    else if lastTooltipState then (false, [Mouseout])
    else (lastTooltipState, [])
  | MouseLeave =>
    if lastTooltipState then (false, [Mouseout]) else (lastTooltipState, [])
  end.

(** A sequence of events, from the state [lastTooltipState] on: the final
    state and everything fired, in order. *)
Definition runMouseEvents (pixelData : ImageData) (lastTooltipState : bool)
    (events : list MouseEvent) : bool * list Fired :=
  fold_left
    (fun acc e =>
       let '(state, fired) := onMouseEvent pixelData (fst acc) e in
       (state, snd acc ++ fired))
    events (lastTooltipState, []).

(** [mouseover] and [mouseout] take turns in [fired], [mouseover] coming
    first unless the tooltip is [shown] already. *)
Fixpoint alternates (shown : bool) (fired : list Fired) : bool :=
  match fired with
  | [] => true
  | Mouseover _ :: rest => negb shown && alternates true rest
  | Mouseout :: rest => shown && alternates false rest
  end.

(** Whether the tooltip is shown after the events [fired]. *)
Definition tooltipShown (shown : bool) (fired : list Fired) : bool :=
  fold_left (fun _ f => match f with Mouseover _ => true | Mouseout => false end)
            fired shown.

(** * Properties *)

(** ** Boolean comparisons reflect the order of the reals *)

Lemma Rleb_true_iff (a b : R) : Rleb a b = true <-> a <= b.
Proof. unfold Rleb. destruct (Rle_dec a b); split; intros; auto; discriminate. Qed.

Lemma Rleb_false_iff (a b : R) : Rleb a b = false <-> b < a.
Proof.
  unfold Rleb. destruct (Rle_dec a b); split; intros; auto; try discriminate; lra.
Qed.

Lemma Rltb_true_iff (a b : R) : Rltb a b = true <-> a < b.
Proof. unfold Rltb. destruct (Rlt_dec a b); split; intros; auto; discriminate. Qed.

Lemma Rltb_false_iff (a b : R) : Rltb a b = false <-> b <= a.
Proof.
  unfold Rltb. destruct (Rlt_dec a b); split; intros; auto; try discriminate; lra.
Qed.

Lemma Reqb_true_iff (a b : R) : Reqb a b = true <-> a = b.
Proof. unfold Reqb. destruct (Req_dec_T a b); split; intros; auto; discriminate. Qed.

Lemma Reqb_false_iff (a b : R) : Reqb a b = false <-> a <> b.
Proof.
  unfold Reqb. destruct (Req_dec_T a b); split; intros; auto; try discriminate.
  contradiction.
Qed.

Lemma Reqb_refl (a : R) : Reqb a a = true.
Proof. now apply Reqb_true_iff. Qed.

Lemma isPointInBounds_spec (lat lng south west north east : R) :
  isPointInBounds (lat, lng) ((south, west), (north, east)) = true
  <-> south <= lat <= north /\ west <= lng <= east.
Proof.
  unfold isPointInBounds, Rgeb.
  rewrite !andb_true_iff, !Rleb_true_iff. tauto.
Qed.

(** ** Point queries *)

Section PointQueries.

Variable this : FloodZoneManager.
Variable point : LatLng.

Let inBounds (z : Zone.t) : bool := isPointInBounds point (Zone.bounds z).

(** Without the pixel check the loop is a search for the first zone whose
    bounds contain the point. *)
Lemma getZoneAtPoint_loop_coarse (zs : list Zone.t) :
  getZoneAtPoint_loop this point false zs = find inBounds zs.
Proof.
  induction zs as [|z zs IH]; simpl; [reflexivity|].
  unfold inBounds in *. destruct (isPointInBounds point (Zone.bounds z)); auto.
Qed.

(** Whatever the pixel check answers, a returned zone is one whose bounds
    contain the point. *)
Lemma getZoneAtPoint_loop_in_bounds (checkPixels : bool) (zs : list Zone.t) (z : Zone.t) :
  getZoneAtPoint_loop this point checkPixels zs = Some z ->
  In z zs /\ inBounds z = true.
Proof.
  induction zs as [|z0 zs IH]; simpl; [discriminate|].
  unfold inBounds in *.
  destruct (isPointInBounds point (Zone.bounds z0)) eqn:Hb.
  - destruct checkPixels; simpl.
    + destruct (overlays this !! Zone.id z0) as [ov|].
      * destruct (isPointOverColoredPixels this point ov z0).
        -- intros [= <-]. auto.
        -- intros H. destruct (IH H). auto.
      * intros [= <-]. auto.
    + intros [= <-]. auto.
  - intros H. destruct (IH H). auto.
Qed.




End PointQueries.

(** C3, amended: [getZoneAtPoint] walks every loaded zone of the manager,
    displayed or not, in reverse order, so that with [checkPixels = false]
    the answer is the first zone of the reversed list, that is the most
    recently added zone, whose bounds contain the point; with zone A at
    [[0,0],[10,10]] and zone B at [[5,5],[15,15]] added after A, the point
    (7,7) resolves to B, whatever overlays are registered or displayed. *)
Theorem getZoneAtPoint_reverse_order :
  (forall (this : FloodZoneManager) (lat lng : R),
      getZoneAtPoint this lat lng false
      = find (fun z => isPointInBounds (lat, lng) (Zone.bounds z)) (rev (zones this)))
  /\ (forall os an bs sc ro sel cache,
         getZoneAtPoint
           {| zones := [zoneA; zoneB]; overlays := os; anchors := an;
              baseZoneSizes := bs; currentScale := sc; currentRotation := ro;
              selectedZoneId := sel; contentBoundsCache := cache |}
           7 7 false
         = Some zoneB).
Proof.
  split.
  - intros this lat lng. unfold getZoneAtPoint. apply getZoneAtPoint_loop_coarse.
  - intros. unfold getZoneAtPoint. cbn [zones rev app getZoneAtPoint_loop].
    unfold zoneB at 1. cbn [Zone.bounds mkZone].
    replace (isPointInBounds (7, 7) ((5, 5), (15, 15))) with true; [reflexivity|].
    symmetry. apply isPointInBounds_spec. lra.
Qed.


Lemma zoneA_contains_2_2 : isPointInBounds (2, 2) (Zone.bounds zoneA) = true.
Proof. apply isPointInBounds_spec. lra. Qed.

Lemma zoneB_misses_2_2 : isPointInBounds (2, 2) (Zone.bounds zoneB) = false.
Proof.
  apply not_true_is_false. intros H. apply isPointInBounds_spec in H. lra.
Qed.


(** ** The pixel check without cached content bounds *)

(** When the overlay has its element and the image inside it, and no content
    bounds are cached, the check answers [true]. *)
Lemma isPointOverColoredPixels_no_cache
    (this : FloodZoneManager) (point : LatLng) (overlay : Overlay) (zone : Zone.t)
    (el : OverlayElement) :
  ov_element overlay = Some el ->
  el_hasImg el = true ->
  cachedContentBounds this (Zone.id zone) = None ->
  isPointOverColoredPixels this point overlay zone = true.
Proof.
  intros Hel Himg Hc. unfold isPointOverColoredPixels.
  now rewrite Hel, Himg, Hc.
Qed.

Lemma getZoneAtPoint_loop_degrades
    (this : FloodZoneManager) (point : LatLng) (zs : list Zone.t) :
  overlaysReady this zs ->
  getZoneAtPoint_loop this point true zs = getZoneAtPoint_loop this point false zs.
Proof.
  induction zs as [|z zs IH]; intros Hready; [reflexivity|].
  cbn [getZoneAtPoint_loop negb].
  destruct (isPointInBounds point (Zone.bounds z)).
  - destruct (overlays this !! Zone.id z) as [ov|] eqn:Hov; [|reflexivity].
    destruct (Hready z ov (or_introl eq_refl) Hov) as (Hc & el & Hel & Himg).
    now rewrite (isPointOverColoredPixels_no_cache this point ov z el).
  - apply IH. intros zone overlay Hin. apply Hready. now right.
Qed.

(** C10, the claim as stated fails: an overlay whose element is not available
    makes the check answer [false] although no content bounds are cached, and
    the pixel-accurate query then rejects a zone that the coarse query
    returns. *)
Lemma isPointOverColoredPixels_rejects_without_cache :
  cachedContentBounds managerWithoutElement (Zone.id zoneA) = None
  /\ isPointOverColoredPixels managerWithoutElement (5, 5)
       (overlayWithoutElement (Zone.bounds zoneA)) zoneA = false
  /\ getZoneAtPoint managerWithoutElement 5 5 false = Some zoneA
  /\ getZoneAtPoint managerWithoutElement 5 5 true = None.
Proof.
  assert (Hb : isPointInBounds (5, 5) (Zone.bounds zoneA) = true)
    by (apply isPointInBounds_spec; lra).
  repeat split.
  - unfold getZoneAtPoint. cbn [zones managerWithoutElement with_overlays newManager
                                 rev app getZoneAtPoint_loop negb].
    now rewrite Hb.
  - unfold getZoneAtPoint. cbn [zones managerWithoutElement with_overlays newManager
                                 rev app getZoneAtPoint_loop negb overlays].
    rewrite Hb. change (Zone.id zoneA) with 1%Z.
    rewrite lookup_singleton_eq. reflexivity.
Qed.

(** C10, amended: the check answers [false] when the overlay has no element or
    the element holds no image; otherwise it answers [true] whenever no content
    bounds are cached for the zone or reading the overlay bounds raises an
    error.  Hence, when no content bounds are cached and every registered
    overlay has its element and image, the pixel-accurate query returns what
    the coarse query returns. *)
Theorem isPointOverColoredPixels_fallbacks :
  (forall this point overlay zone,
      ov_element overlay = None ->
      isPointOverColoredPixels this point overlay zone = false)
  /\ (forall this point overlay zone el,
         ov_element overlay = Some el -> el_hasImg el = false ->
         isPointOverColoredPixels this point overlay zone = false)
  /\ (forall this point overlay zone el,
         ov_element overlay = Some el -> el_hasImg el = true ->
         cachedContentBounds this (Zone.id zone) = None ->
         isPointOverColoredPixels this point overlay zone = true)
  /\ (forall this point overlay zone el,
         ov_element overlay = Some el -> el_hasImg el = true ->
         destructureBounds overlay = Throw ->
         isPointOverColoredPixels this point overlay zone = true)
  /\ (forall this lat lng,
         overlaysReady this (zones this) ->
         getZoneAtPoint this lat lng true = getZoneAtPoint this lat lng false).
Proof.
  repeat split.
  - intros this point overlay zone Hel. unfold isPointOverColoredPixels.
    now rewrite Hel.
  - intros this point overlay zone el Hel Himg. unfold isPointOverColoredPixels.
    now rewrite Hel, Himg.
  - intros. eapply isPointOverColoredPixels_no_cache; eauto.
  - intros this point overlay zone el Hel Himg Hthrow.
    unfold isPointOverColoredPixels. rewrite Hel, Himg. cbn [negb].
    destruct (cachedContentBounds this (Zone.id zone)); [|reflexivity].
    now rewrite Hthrow.
  - intros this lat lng Hready. unfold getZoneAtPoint.
    apply getZoneAtPoint_loop_degrades.
    intros zone overlay Hin. apply Hready. now apply in_rev.
Qed.

Lemma isPointOverColoredPixels_fallbacks_witness :
  isPointOverColoredPixels managerLoaded (5, 5)
    (overlayWithoutElement (Zone.bounds zoneA)) zoneA = false
  /\ isPointOverColoredPixels managerLoaded (5, 5)
       (overlayWithoutImage (Zone.bounds zoneA)) zoneA = false
  /\ isPointOverColoredPixels managerLoaded (5, 5)
       (overlayLoaded (Zone.bounds zoneA)) zoneA = true
  /\ isPointOverColoredPixels managerLoaded (5, 5)
       (overlayLoaded (Zone.bounds zoneB)) zoneB = true
  /\ getZoneAtPoint managerLoaded 5 5 true = getZoneAtPoint managerLoaded 5 5 false.
Proof.
  destruct isPointOverColoredPixels_fallbacks as (H1 & H2 & H3 & H4 & H5).
  split; [|split; [|split; [|split]]].
  - apply H1. reflexivity.
  - apply (H2 _ _ _ _ {| el_rotate := None; el_hasImg := false |}); reflexivity.
  - apply (H3 _ _ _ _ {| el_rotate := None; el_hasImg := true |}); reflexivity.
  - apply (H4 _ _ _ _ {| el_rotate := None; el_hasImg := true |}); reflexivity.
  - apply H5. intros zone overlay [<-|[]] Hov.
    change (Zone.id zoneA) with 1%Z in *.
    cbn [overlays managerLoaded with_overlays] in Hov.
    rewrite lookup_singleton_eq in Hov. injection Hov as <-.
    split; [reflexivity|].
    exists {| el_rotate := None; el_hasImg := true |}. split; reflexivity.
Defined.

(** ** Coordinate mapper *)

Lemma pixelsToLatLng_cons (p : Point) (pixels : list Point) (W H : R) (b : Bounds) :
  pixelsToLatLng (p :: pixels) W H b
  = pixelsToLatLng [p] W H b ++ pixelsToLatLng pixels W H b.
Proof.
  unfold pixelsToLatLng. destruct b as [[south west] [north east]]. reflexivity.
Qed.

Lemma pixelsToLatLng_length (pixels : list Point) (W H : R) (b : Bounds) :
  length (pixelsToLatLng pixels W H b) = length pixels.
Proof.
  unfold pixelsToLatLng. destruct b as [[south west] [north east]].
  apply length_map.
Qed.

Lemma geoToPixel_pixelToGeo (x y W H south west north east : R) :
  W <> 0 -> H <> 0 -> north <> south -> east <> west ->
  let b := ((south, west), (north, east)) in
  let lat := north - (north - south) * (y / H) in
  let lng := west + (east - west) * (x / W) in
  normalizedPosition (lat, lng) b = (x / W, y / H)
  /\ geoToPixel lat lng W H b = (x, y).
Proof.
  intros HW HH Hns Hew b lat lng.
  assert (Hn : normalizedPosition (lat, lng) b = (x / W, y / H)).
  { unfold normalizedPosition, b, lat, lng. f_equal; field; split; lra. }
  split; [exact Hn|].
  unfold geoToPixel. rewrite Hn. f_equal; field; assumption.
Qed.

(** C6: a pixel [(x, y)] is sent to [lng = west + (east-west)*(x/W)] and
    [lat = north - (north-south)*(y/H)], and on non-degenerate bounds and a
    non-empty image the inverse conversion gives every pixel back (exactly, the
    numbers being reals). *)
Theorem pixelsToLatLng_round_trip :
  (forall x y W H south west north east,
      pixelsToLatLng [(x, y)] W H ((south, west), (north, east))
      = [(north - (north - south) * (y / H), west + (east - west) * (x / W))])
  /\ (forall (pixels : list Point) (W H south west north east : R),
         W <> 0 -> H <> 0 -> north <> south -> east <> west ->
         let b := ((south, west), (north, east)) in
         map (fun g => normalizedPosition g b) (pixelsToLatLng pixels W H b)
         = map (fun p => (fst p / W, snd p / H)) pixels
         /\ map (fun g => geoToPixel (fst g) (snd g) W H b) (pixelsToLatLng pixels W H b)
            = pixels).
Proof.
  split; [reflexivity|].
  intros pixels W H south west north east HW HH Hns Hew b.
  induction pixels as [|[x y] pixels [IH1 IH2]]; [split; reflexivity|].
  rewrite pixelsToLatLng_cons. cbn [app map pixelsToLatLng b fst snd].
  fold b.
  destruct (geoToPixel_pixelToGeo x y W H south west north east HW HH Hns Hew)
    as [Hn Hg].
  cbn zeta in Hn, Hg. fold b in Hn, Hg.
  split.
  - rewrite Hn. f_equal. exact IH1.
  - rewrite Hg. f_equal. exact IH2.
Qed.

Lemma pixelsToLatLng_round_trip_witness :
  let b : Bounds := ((0, 0), (1, 1)) in
  map (fun g => normalizedPosition g b) (pixelsToLatLng [(25, 75); (0, 100)] 100 100 b)
  = map (fun p => (fst p / 100, snd p / 100)) [(25, 75); (0, 100)]
  /\ map (fun g => geoToPixel (fst g) (snd g) 100 100 b)
         (pixelsToLatLng [(25, 75); (0, 100)] 100 100 b)
     = [(25, 75); (0, 100)].
Proof.
  apply (proj2 pixelsToLatLng_round_trip [(25, 75); (0, 100)] 100 100 0 0 1 1); lra.
Defined.

(** ** Content-bounds detector *)

Lemma scanRow_scanList img s y :
  scanRow img s y = scanList img (map (fun x => (x, y)) (seq 0 (width img))) s.
Proof.
  unfold scanRow, scanList. generalize (seq 0 (width img)) as xs. intros xs. revert s.
  induction xs as [|x xs IH]; intros s; simpl; [reflexivity|]. apply IH.
Qed.

Lemma scanList_app img ps qs s :
  scanList img (ps ++ qs) s = scanList img qs (scanList img ps s).
Proof. unfold scanList. apply fold_left_app. Qed.

Lemma scanImage_scanList img :
  scanImage img = scanList img (allPixels img)
    {| sc_minX := width img; sc_minY := height img;
       sc_maxX := 0; sc_maxY := 0; foundColoredPixel := false |}.
Proof.
  unfold scanImage, allPixels.
  generalize (seq 0 (height img)) as ys.
  generalize ({| sc_minX := width img; sc_minY := height img;
       sc_maxX := 0; sc_maxY := 0; foundColoredPixel := false |}).
  intros s ys. revert s.
  induction ys as [|y ys IH]; intros s; simpl; [reflexivity|].
  rewrite scanList_app, <- scanRow_scanList. apply IH.
Qed.

Lemma in_allPixels img x y :
  In (x, y) (allPixels img) <-> (x < width img)%nat /\ (y < height img)%nat.
Proof.
  unfold allPixels. rewrite in_flat_map. split.
  - intros (y' & Hy & Hx). apply in_map_iff in Hx as (x' & [= <- <-] & Hx).
    apply in_seq in Hy, Hx. lia.
  - intros [Hx Hy]. exists y. split; [apply in_seq; lia|].
    apply in_map_iff. exists x. split; [reflexivity|apply in_seq; lia].
Qed.

Ltac ltb_cases :=
  repeat match goal with
         | |- context [(?a <? ?b)%nat] =>
           let E := fresh "E" in
           destruct (a <? b)%nat eqn:E;
           [apply Nat.ltb_lt in E | apply Nat.ltb_ge in E]
         end.

Lemma ScanInv_step img visited s x y :
  (x < width img)%nat -> (y < height img)%nat ->
  ScanInv img visited s ->
  ScanInv img (visited ++ [(x, y)]) (scanPixel img y s x).
Proof.
  intros Hx Hy [Hc HmX HMX HmY HMY Hf].
  unfold scanPixel.
  destruct (alphaAtLeast10 (pixelAlpha img x y)) eqn:Ha.
  - assert (HX : foundColoredPixel s = false ->
                 (x < sc_minX s)%nat /\ (sc_maxX s <= x)%nat
                 /\ (y < sc_minY s)%nat /\ (sc_maxY s <= y)%nat).
    { intros F. destruct (Hf F) as (-> & -> & -> & ->). lia. }
    constructor; cbn [foundColoredPixel sc_minX sc_maxX sc_minY sc_maxY].
    + intros x' y' Hin Ha'. split; [reflexivity|].
      apply in_app_or in Hin as [Hin|[[= <- <-]|[]]].
      * destruct (Hc _ _ Hin Ha') as (_ & ? & ?).
        ltb_cases; lia.
      * ltb_cases; lia.
    + intros _. destruct (x <? sc_minX s)%nat eqn:E1.
      * exists y. split; [apply in_or_app; right; left; reflexivity|exact Ha].
      * destruct (foundColoredPixel s) eqn:F.
        -- destruct (HmX eq_refl) as (y0 & ? & ?). exists y0.
           split; [apply in_or_app; now left|assumption].
        -- apply Nat.ltb_ge in E1. destruct (HX eq_refl). lia.
    + intros _. destruct (sc_maxX s <? x)%nat eqn:E1.
      * exists y. split; [apply in_or_app; right; left; reflexivity|exact Ha].
      * destruct (foundColoredPixel s) eqn:F.
        -- destruct (HMX eq_refl) as (y0 & ? & ?). exists y0.
           split; [apply in_or_app; now left|assumption].
        -- apply Nat.ltb_ge in E1. destruct (HX eq_refl) as (? & ? & ? & ?).
           assert (sc_maxX s = x) as -> by lia.
           exists y. split; [apply in_or_app; right; left; reflexivity|exact Ha].
    + intros _. destruct (y <? sc_minY s)%nat eqn:E1.
      * exists x. split; [apply in_or_app; right; left; reflexivity|exact Ha].
      * destruct (foundColoredPixel s) eqn:F.
        -- destruct (HmY eq_refl) as (x0 & ? & ?). exists x0.
           split; [apply in_or_app; now left|assumption].
        -- apply Nat.ltb_ge in E1. destruct (HX eq_refl) as (? & ? & ? & ?). lia.
    + intros _. destruct (sc_maxY s <? y)%nat eqn:E1.
      * exists x. split; [apply in_or_app; right; left; reflexivity|exact Ha].
      * destruct (foundColoredPixel s) eqn:F.
        -- destruct (HMY eq_refl) as (x0 & ? & ?). exists x0.
           split; [apply in_or_app; now left|assumption].
        -- apply Nat.ltb_ge in E1. destruct (HX eq_refl) as (? & ? & ? & ?).
           assert (sc_maxY s = y) as -> by lia.
           exists x. split; [apply in_or_app; right; left; reflexivity|exact Ha].
    + discriminate.
  - constructor.
    + intros x' y' Hin Ha'. apply in_app_or in Hin as [Hin|[[= <- <-]|[]]].
      * now apply Hc.
      * congruence.
    + intros F. destruct (HmX F) as (y0 & ? & ?). exists y0.
      split; [apply in_or_app; now left|assumption].
    + intros F. destruct (HMX F) as (y0 & ? & ?). exists y0.
      split; [apply in_or_app; now left|assumption].
    + intros F. destruct (HmY F) as (y0 & ? & ?). exists y0.
      split; [apply in_or_app; now left|assumption].
    + intros F. destruct (HMY F) as (y0 & ? & ?). exists y0.
      split; [apply in_or_app; now left|assumption].
    + exact Hf.
Qed.

Lemma ScanInv_scanList img ps : forall visited s,
  (forall x y, In (x, y) ps -> (x < width img)%nat /\ (y < height img)%nat) ->
  ScanInv img visited s ->
  ScanInv img (visited ++ ps) (scanList img ps s).
Proof.
  induction ps as [|[x y] ps IH]; intros visited s Hr Hinv.
  - now rewrite app_nil_r.
  - change ((x, y) :: ps) with ([(x, y)] ++ ps).
    rewrite app_assoc, scanList_app. apply IH.
    + intros x' y' Hin. apply Hr. now right.
    + destruct (Hr x y (or_introl eq_refl)). now apply ScanInv_step.
Qed.

Lemma ScanInv_scanImage img : ScanInv img (allPixels img) (scanImage img).
Proof.
  rewrite scanImage_scanList.
  apply (ScanInv_scanList img (allPixels img) []).
  - intros x y. apply in_allPixels.
  - constructor; cbn; try discriminate; try tauto.
Qed.

(** The scan finds a pixel exactly when the image has a colored pixel. *)
Lemma scanImage_found img :
  foundColoredPixel (scanImage img) = true <-> exists x y, isColoredPixel img x y.
Proof.
  destruct (ScanInv_scanImage img) as [Hc HmX _ _ _ _]. split.
  - intros F. destruct (HmX F) as (y & Hin & Ha).
    apply in_allPixels in Hin as [? ?].
    exists (sc_minX (scanImage img)), y. repeat split; assumption.
  - intros (x & y & Hx & Hy & Ha).
    apply (Hc x y); [apply in_allPixels; auto|assumption].
Qed.

(** The extremes recorded by a successful scan are the extremes of the
    colored pixels. *)
Lemma scanImage_tight img :
  foundColoredPixel (scanImage img) = true ->
  let s := scanImage img in
  (forall x y, isColoredPixel img x y ->
      (sc_minX s <= x <= sc_maxX s)%nat /\ (sc_minY s <= y <= sc_maxY s)%nat)
  /\ (exists y, isColoredPixel img (sc_minX s) y)
  /\ (exists y, isColoredPixel img (sc_maxX s) y)
  /\ (exists x, isColoredPixel img x (sc_minY s))
  /\ (exists x, isColoredPixel img x (sc_maxY s)).
Proof.
  intros F s. destruct (ScanInv_scanImage img) as [Hc HmX HMX HmY HMY _].
  fold s in Hc, HmX, HMX, HmY, HMY, F.
  repeat split.
  - destruct H as (Hx & Hy & Ha).
    destruct (Hc x y) as (_ & ? & _); [apply in_allPixels; auto|assumption|lia].
  - destruct H as (Hx & Hy & Ha).
    destruct (Hc x y) as (_ & ? & _); [apply in_allPixels; auto|assumption|lia].
  - destruct H as (Hx & Hy & Ha).
    destruct (Hc x y) as (_ & _ & ?); [apply in_allPixels; auto|assumption|lia].
  - destruct H as (Hx & Hy & Ha).
    destruct (Hc x y) as (_ & _ & ?); [apply in_allPixels; auto|assumption|lia].
  - destruct (HmX F) as (y & Hin & Ha). apply in_allPixels in Hin as [? ?].
    exists y. repeat split; assumption.
  - destruct (HMX F) as (y & Hin & Ha). apply in_allPixels in Hin as [? ?].
    exists y. repeat split; assumption.
  - destruct (HmY F) as (x & Hin & Ha). apply in_allPixels in Hin as [? ?].
    exists x. repeat split; assumption.
  - destruct (HMY F) as (x & Hin & Ha). apply in_allPixels in Hin as [? ?].
    exists x. repeat split; assumption.
Qed.

(** Hence the recorded rectangle lies inside the image and is not empty. *)
Lemma scanImage_range img :
  foundColoredPixel (scanImage img) = true ->
  let s := scanImage img in
  (sc_minX s <= sc_maxX s < width img)%nat /\ (sc_minY s <= sc_maxY s < height img)%nat.
Proof.
  intros F s.
  destruct (scanImage_tight img F) as (Hc & _ & (y & HM) & _ & (x & HMy)).
  fold s in Hc, HM, HMy.
  destruct (Hc _ _ HM) as [? _]. destruct (Hc _ _ HMy) as [_ ?].
  destruct HM as (? & _ & _). destruct HMy as (_ & ? & _). lia.
Qed.

Lemma detectImageContentBounds_Ok img :
  detectImageContentBounds (Ok img)
  = let s := scanImage img in
    if foundColoredPixel s then
      Some {| minX := INR (sc_minX s) / INR (width img);
              minY := INR (sc_minY s) / INR (height img);
              maxX := INR (sc_maxX s + 1) / INR (width img);
              maxY := INR (sc_maxY s + 1) / INR (height img);
              imgWidth := width img;
              imgHeight := height img |}
    else None.
Proof.
  unfold detectImageContentBounds. cbn [bind_result try_catch].
  destruct (foundColoredPixel (scanImage img)); reflexivity.
Qed.

Lemma scanImage_dotRaster :
  scanImage dotRaster
  = {| sc_minX := 1; sc_minY := 0; sc_maxX := 1; sc_maxY := 0;
       foundColoredPixel := true |}.
Proof. reflexivity. Qed.

(** Reading a concatenation of chunks of equal length. *)
Lemma lookup_flat_map_chunks {A B : Type} (f : A -> list B) (k : nat) (l : list A) :
  (forall a, length (f a) = k) ->
  forall (i j : nat) (a : A),
    l !! i = Some a -> (j < k)%nat ->
    flat_map f l !! (i * k + j)%nat = f a !! j.
Proof.
  intros Hk. induction l as [|x l IH]; intros i j a Hi Hj; [discriminate|].
  cbn [flat_map]. destruct i as [|i].
  - injection Hi as ->. cbn [Nat.mul Nat.add].
    apply lookup_app_l. rewrite Hk. exact Hj.
  - cbn [lookup list_lookup] in Hi.
    rewrite lookup_app_r by (rewrite Hk; cbn [Nat.mul]; lia).
    rewrite Hk. replace (S i * k + j - k)%nat with (i * k + j)%nat by (cbn [Nat.mul]; lia).
    now apply IH.
Qed.

(** The alpha sample of every pixel of the square raster. *)
Lemma pixelAlpha_squareRaster (lo hi x y : nat) :
  (x < 100)%nat -> (y < 100)%nat ->
  pixelAlpha (squareRaster lo hi) x y
  = Some (if inSquare lo hi x y then 255 else 0)%Z.
Proof.
  intros Hx Hy. unfold pixelAlpha. cbn [width data squareRaster].
  replace ((y * 100 + x) * 4 + 3)%nat with (y * 400 + (x * 4 + 3))%nat by lia.
  set (cell := fun y x : nat =>
                 if inSquare lo hi x y
                 then [255; 0; 0; 255]%Z else [0; 0; 0; 0]%Z).
  assert (Hcell : forall y' x', length (cell y' x') = 4%nat).
  { intros y' x'. unfold cell. now destruct (inSquare lo hi x' y'). }
  assert (Hrow : forall y', length (flat_map (cell y') (seq 0 100)) = 400%nat).
  { intros y'. rewrite flat_map_constant_length with (c := 4%nat).
    - now rewrite length_seq.
    - intros x' _. apply Hcell. }
  change (flat_map (fun y0 : nat => flat_map (cell y0) (seq 0 100)) (seq 0 100)
            !! (y * 400 + (x * 4 + 3))%nat
          = Some (if inSquare lo hi x y then 255 else 0)%Z).
  rewrite (lookup_flat_map_chunks (fun y0 => flat_map (cell y0) (seq 0 100)) 400
             (seq 0 100) Hrow y (x * 4 + 3)%nat y)
    by (try apply lookup_seq_lt; lia).
  rewrite (lookup_flat_map_chunks (cell y) 4 (seq 0 100) (Hcell y) x 3%nat x)
    by (try apply lookup_seq_lt; lia).
  unfold cell. now destruct (inSquare lo hi x y).
Qed.

Lemma isColoredPixel_squareRaster (lo hi x y : nat) :
  (hi < 100)%nat ->
  isColoredPixel (squareRaster lo hi) x y
  <-> (lo <= x <= hi)%nat /\ (lo <= y <= hi)%nat.
Proof.
  intros Hhi. unfold isColoredPixel. cbn [width height squareRaster]. split.
  - intros (Hx & Hy & Ha). rewrite pixelAlpha_squareRaster in Ha by assumption.
    destruct (inSquare lo hi x y) eqn:E; [|discriminate].
    unfold inSquare in E. rewrite !andb_true_iff, !Nat.leb_le in E. lia.
  - intros [Hx Hy]. split; [lia|]. split; [lia|].
    rewrite pixelAlpha_squareRaster by lia.
    replace (inSquare lo hi x y) with true; [reflexivity|].
    symmetry. unfold inSquare. rewrite !andb_true_iff, !Nat.leb_le. lia.
Qed.

(** The scan of the square raster records the corners of the square. *)
Lemma scanImage_squareRaster (lo hi : nat) :
  (lo <= hi < 100)%nat ->
  scanImage (squareRaster lo hi)
  = {| sc_minX := lo; sc_minY := lo; sc_maxX := hi; sc_maxY := hi;
       foundColoredPixel := true |}.
Proof.
  intros Hr.
  assert (F : foundColoredPixel (scanImage (squareRaster lo hi)) = true).
  { apply scanImage_found. exists lo, lo. apply isColoredPixel_squareRaster; lia. }
  destruct (scanImage_tight _ F) as (Hc & (y0 & H0) & (y1 & H1) & (x2 & H2) & (x3 & H3)).
  apply isColoredPixel_squareRaster in H0, H1, H2, H3; try lia.
  destruct (Hc lo lo) as [? ?]; [apply isColoredPixel_squareRaster; lia|].
  destruct (Hc hi hi) as [? ?]; [apply isColoredPixel_squareRaster; lia|].
  destruct (scanImage (squareRaster lo hi)) as [mx my Mx My f].
  cbn [sc_minX sc_minY sc_maxX sc_maxY foundColoredPixel] in *.
  subst f. f_equal; lia.
Qed.

(** C5: a pixel is colored iff its alpha sample is at least 10; the detector
    answers [null] exactly when the image has no colored pixel, and otherwise
    the normalised rectangle from the leftmost and topmost colored pixel to one
    past the rightmost and bottommost one; on the 100 x 100 raster with the
    opaque square (25,25)-(75,75), the pixel of index 75 counted in or not,
    the answer is within 1/100 of
    [{minX: 0.25, minY: 0.25, maxX: 0.75, maxY: 0.75}]. *)
Theorem detectImageContentBounds_tight :
  (forall a : Z, alphaAtLeast10 (Some a) = true <-> (10 <= a)%Z)
  /\ (forall img : ImageData,
         detectImageContentBounds (Ok img) = None
         <-> ~ exists x y, isColoredPixel img x y)
  /\ (forall (img : ImageData) (cb : ContentBounds),
         detectImageContentBounds (Ok img) = Some cb ->
         exists x0 y0 x1 y1 : nat,
           minX cb = INR x0 / INR (width img)
           /\ minY cb = INR y0 / INR (height img)
           /\ maxX cb = INR (x1 + 1) / INR (width img)
           /\ maxY cb = INR (y1 + 1) / INR (height img)
           /\ (forall x y, isColoredPixel img x y ->
                  (x0 <= x <= x1)%nat /\ (y0 <= y <= y1)%nat)
           /\ (exists y, isColoredPixel img x0 y)
           /\ (exists y, isColoredPixel img x1 y)
           /\ (exists x, isColoredPixel img x y0)
           /\ (exists x, isColoredPixel img x y1))
  /\ (forall hi : nat,
         (74 <= hi <= 75)%nat ->
         exists cb : ContentBounds,
           detectImageContentBounds (Ok (squareRaster 25 hi)) = Some cb
           /\ Rabs (minX cb - 0.25) <= 1 / 100
           /\ Rabs (minY cb - 0.25) <= 1 / 100
           /\ Rabs (maxX cb - 0.75) <= 1 / 100
           /\ Rabs (maxY cb - 0.75) <= 1 / 100).
Proof.
  split; [|split; [|split]].
  - intros a. cbn [alphaAtLeast10]. apply Z.leb_le.
  - intros img. rewrite detectImageContentBounds_Ok. cbv zeta.
    rewrite <- scanImage_found.
    destruct (foundColoredPixel (scanImage img)); split; intros H;
      try discriminate; try reflexivity; congruence.
  - intros img cb. rewrite detectImageContentBounds_Ok. cbv zeta.
    destruct (foundColoredPixel (scanImage img)) eqn:F; [|discriminate].
    intros [= <-]. cbn [minX minY maxX maxY].
    exists (sc_minX (scanImage img)), (sc_minY (scanImage img)),
           (sc_maxX (scanImage img)), (sc_maxY (scanImage img)).
    repeat (split; [reflexivity|]).
    exact (scanImage_tight img F).
  - intros hi Hhi.
    rewrite detectImageContentBounds_Ok, scanImage_squareRaster by lia.
    cbv zeta. cbn [foundColoredPixel sc_minX sc_minY sc_maxX sc_maxY].
    eexists. split; [reflexivity|].
    cbn [minX minY maxX maxY width height squareRaster].
    assert (H25 : INR 25 = 25) by (rewrite INR_IZR_INZ; reflexivity).
    assert (H100 : INR 100 = 100) by (rewrite INR_IZR_INZ; reflexivity).
    assert (Hhi1 : 75 <= INR (hi + 1) <= 76).
    { replace 75 with (INR 75) by (rewrite INR_IZR_INZ; reflexivity).
      replace 76 with (INR 76) by (rewrite INR_IZR_INZ; reflexivity).
      split; apply le_INR; lia. }
    rewrite H25, H100.
    repeat split; apply Rabs_le; lra.
Qed.

Lemma detectImageContentBounds_tight_witness :
  (exists x0 y0 x1 y1 : nat,
      1 / 2 = INR x0 / INR 2 /\ 0 / 2 = INR y0 / INR 2
      /\ 2 / 2 = INR (x1 + 1) / INR 2 /\ 1 / 2 = INR (y1 + 1) / INR 2
      /\ (forall x y, isColoredPixel dotRaster x y ->
             (x0 <= x <= x1)%nat /\ (y0 <= y <= y1)%nat)
      /\ (exists y, isColoredPixel dotRaster x0 y)
      /\ (exists y, isColoredPixel dotRaster x1 y)
      /\ (exists x, isColoredPixel dotRaster x y0)
      /\ (exists x, isColoredPixel dotRaster x y1))
  /\ (exists cb : ContentBounds,
         detectImageContentBounds (Ok (squareRaster 25 75)) = Some cb
         /\ Rabs (minX cb - 0.25) <= 1 / 100
         /\ Rabs (minY cb - 0.25) <= 1 / 100
         /\ Rabs (maxX cb - 0.75) <= 1 / 100
         /\ Rabs (maxY cb - 0.75) <= 1 / 100).
Proof.
  destruct detectImageContentBounds_tight as (_ & _ & H3 & H4).
  split.
  - apply (H3 dotRaster
              {| minX := 1 / 2; minY := 0 / 2; maxX := 2 / 2; maxY := 1 / 2;
                 imgWidth := 2; imgHeight := 2 |}).
    rewrite detectImageContentBounds_Ok, scanImage_dotRaster.
    cbv zeta.
    cbn [foundColoredPixel sc_minX sc_minY sc_maxX sc_maxY width height dotRaster].
    do 2 f_equal; cbn [INR Nat.add]; f_equal; lra.
  - apply (H4 75%nat). lia.
Defined.

(** C9: a rectangle returned by the detector satisfies
    [0 <= minX < maxX <= 1] and [0 <= minY < maxY <= 1], and the bounds that
    [adjustOverlayBoundsToContent] derives from it inside non-degenerate
    bounds are non-degenerate. *)
Theorem detectImageContentBounds_nondegenerate
    (canvasRead : result ImageData) (cb : ContentBounds) :
  detectImageContentBounds canvasRead = Some cb ->
  (0 <= minX cb < maxX cb /\ maxX cb <= 1)
  /\ (0 <= minY cb < maxY cb /\ maxY cb <= 1)
  /\ (forall south west north east : R,
         south < north -> west < east ->
         let '((newSouth, newWest), (newNorth, newEast)) :=
           adjustOverlayBoundsToContent (Some cb) ((south, west), (north, east)) in
         newSouth < newNorth /\ newWest < newEast).
Proof.
  destruct canvasRead as [img|]; [|discriminate].
  rewrite detectImageContentBounds_Ok. cbv zeta.
  destruct (foundColoredPixel (scanImage img)) eqn:F; [|discriminate].
  intros [= <-]. cbn [minX minY maxX maxY].
  destruct (scanImage_range img F) as [HX HY]. cbv zeta in HX, HY.
  set (s := scanImage img) in *.
  assert (Hnorm : forall a b w : nat, (a <= b < w)%nat ->
            0 <= INR a / INR w < INR (b + 1) / INR w /\ INR (b + 1) / INR w <= 1).
  { intros a b w Hab.
    assert (Hw : 0 < INR w) by (apply lt_0_INR; lia).
    assert (Ha : 0 <= INR a) by apply pos_INR.
    assert (Hlt : INR a < INR (b + 1)) by (apply lt_INR; lia).
    assert (Hle : INR (b + 1) <= INR w) by (apply le_INR; lia).
    assert (Hi : 0 < / INR w) by now apply Rinv_0_lt_compat.
    assert (Hr : INR w * / INR w = 1) by (apply Rinv_r; lra).
    unfold Rdiv. repeat split; nra. }
  destruct (Hnorm _ _ _ HX) as [HX1 HX2]. destruct (Hnorm _ _ _ HY) as [HY1 HY2].
  split; [tauto|]. split; [tauto|].
  intros south west north east Hsn Hwe.
  cbn [adjustOverlayBoundsToContent minX minY maxX maxY].
  split; nra.
Qed.

Lemma detectImageContentBounds_nondegenerate_witness :
  let cb := {| minX := INR 1 / INR 2; minY := INR 0 / INR 2;
               maxX := INR (1 + 1) / INR 2; maxY := INR (0 + 1) / INR 2;
               imgWidth := 2; imgHeight := 2 |} in
  (0 <= minX cb < maxX cb /\ maxX cb <= 1)
  /\ (0 <= minY cb < maxY cb /\ maxY cb <= 1)
  /\ (let '((newSouth, newWest), (newNorth, newEast)) :=
        adjustOverlayBoundsToContent (Some cb) ((0, 0), (1, 1)) in
      newSouth < newNorth /\ newWest < newEast).
Proof.
  intros cb.
  destruct (detectImageContentBounds_nondegenerate (Ok dotRaster) cb)
    as (H1 & H2 & H3).
  - rewrite detectImageContentBounds_Ok, scanImage_dotRaster. reflexivity.
  - split; [exact H1|]. split; [exact H2|]. apply (H3 0 0 1 1); lra.
Defined.

(** ** Transform engine *)

Lemma applyScaleToZone_frame (this : FloodZoneManager) (zoneId : Z) (scaleFactor : R) :
  let this' := applyScaleToZone this zoneId scaleFactor in
  zones this' = zones this /\ baseZoneSizes this' = baseZoneSizes this
  /\ anchors this' = anchors this /\ currentScale this' = currentScale this
  /\ currentRotation this' = currentRotation this
  /\ selectedZoneId this' = selectedZoneId this
  /\ contentBoundsCache this' = contentBoundsCache this.
Proof.
  unfold applyScaleToZone.
  destruct (overlays this !! zoneId), (anchors this !! zoneId),
           (baseZoneSizes this !! zoneId); cbn; tauto.
Qed.

Lemma applyRotationToZone_frame (this : FloodZoneManager) (zoneId : Z) (deg : R) :
  let this' := applyRotationToZone this zoneId deg in
  zones this' = zones this /\ baseZoneSizes this' = baseZoneSizes this
  /\ anchors this' = anchors this /\ currentScale this' = currentScale this
  /\ currentRotation this' = currentRotation this
  /\ selectedZoneId this' = selectedZoneId this
  /\ contentBoundsCache this' = contentBoundsCache this.
Proof.
  unfold applyRotationToZone.
  destruct (overlays this !! zoneId) as [ov|]; [|cbn; tauto].
  destruct (ov_element ov); cbn; tauto.
Qed.

(** C2: a sequence of scale and rotation previews leaves the zone list, hence
    every persisted [bounds], and the cached base sizes as they were; of the
    manager state only the overlays can change. *)
Theorem runPreviews_frame (ps : list Preview) (this : FloodZoneManager) :
  let this' := runPreviews this ps in
  zones this' = zones this /\ baseZoneSizes this' = baseZoneSizes this
  /\ anchors this' = anchors this /\ currentScale this' = currentScale this
  /\ currentRotation this' = currentRotation this
  /\ selectedZoneId this' = selectedZoneId this
  /\ contentBoundsCache this' = contentBoundsCache this.
Proof.
  unfold runPreviews. revert this.
  induction ps as [|p ps IH]; intros this; [cbn; tauto|].
  cbn [fold_left].
  specialize (IH (runPreview this p)). cbv zeta in IH.
  destruct IH as (-> & -> & -> & -> & -> & -> & ->).
  destruct p as [zoneId f|zoneId deg]; cbn [runPreview].
  - apply applyScaleToZone_frame.
  - apply applyRotationToZone_frame.
Qed.

(** A scale preview writes the centred rectangle to the overlay. *)
Lemma applyScaleToZone_overlay
    (this : FloodZoneManager) (zoneId : Z) (scaleFactor : R)
    (overlay : Overlay) (center : LatLng) (baseSize : BaseSize) :
  overlays this !! zoneId = Some overlay ->
  anchors this !! zoneId = Some center ->
  baseZoneSizes this !! zoneId = Some baseSize ->
  overlays (applyScaleToZone this zoneId scaleFactor) !! zoneId
  = Some (setBounds overlay (centredBounds center (scaledSize baseSize scaleFactor))).
Proof.
  intros Ho Ha Hb. unfold applyScaleToZone. rewrite Ho, Ha, Hb.
  cbn [overlays with_overlays]. rewrite lookup_insert_eq. reflexivity.
Qed.

Lemma findZone_replaceZone (zs : list Zone.t) (zoneId : Z) (zone z' : Zone.t) :
  findZone zs zoneId = Some zone ->
  Zone.id z' = zoneId ->
  findZone (replaceZone zs zoneId z') zoneId = Some z'.
Proof.
  unfold findZone. intros Hf Hid.
  induction zs as [|z zs IH]; [discriminate|].
  cbn [find replaceZone] in *.
  destruct (Zone.id z =? zoneId)%Z eqn:E.
  - cbn [find]. rewrite Hid, Z.eqb_refl. reflexivity.
  - cbn [find]. rewrite E. now apply IH.
Qed.

Lemma findZone_idBounds (zs1 zs2 : list Zone.t) (zoneId : Z) (z1 : Zone.t) :
  idBounds zs2 = idBounds zs1 ->
  findZone zs1 zoneId = Some z1 ->
  exists z2, findZone zs2 zoneId = Some z2 /\ Zone.bounds z2 = Zone.bounds z1.
Proof.
  unfold findZone, idBounds. revert zs2.
  induction zs1 as [|a zs1 IH]; intros zs2 Hm Hf; [discriminate|].
  destruct zs2 as [|b zs2]; [discriminate|].
  cbn [map find] in *. injection Hm as Hid Hb Hm.
  rewrite Hid. destruct (Zone.id a =? zoneId)%Z.
  - injection Hf as <-. eauto.
  - now apply IH.
Qed.

Lemma addZoneOverlay_frame (page : Page) (st : FloodZoneManager) (zone : Zone.t) :
  let st' := addZoneOverlay page st zone in
  zones st' = zones st /\ anchors st' = anchors st
  /\ currentScale st' = currentScale st
  /\ (forall k v, baseZoneSizes st !! k = Some v -> baseZoneSizes st' !! k = Some v).
Proof.
  unfold addZoneOverlay. destruct (mapAvailable page); cbn [negb]; [|cbn; tauto].
  destruct (Zone.bounds zone) as [[south west] [north east]].
  cbn. repeat split; try reflexivity.
  intros k v Hk. destruct (baseZoneSizes st !! Zone.id zone) eqn:E; [exact Hk|].
  rewrite lookup_insert_ne; [exact Hk|]. congruence.
Qed.

Lemma keeps_refl st : keeps st st.
Proof. unfold keeps. tauto. Qed.

Lemma keeps_trans st1 st2 st3 : keeps st1 st2 -> keeps st2 st3 -> keeps st1 st3.
Proof.
  unfold keeps. intros (? & ? & ? & ?) (? & ? & ? & ?).
  repeat split; try congruence. auto.
Qed.

Lemma keeps_fold (step : FloodZoneManager -> Zone.t -> FloodZoneManager) :
  (forall st z, keeps st (step st z)) ->
  forall zs st, keeps st (fold_left step zs st).
Proof.
  intros Hstep zs. induction zs as [|z zs IH]; intros st; cbn [fold_left].
  - apply keeps_refl.
  - eapply keeps_trans; [apply Hstep|apply IH].
Qed.

Lemma displayZones_keeps (page : Page) (st : FloodZoneManager) :
  keeps st (displayZones page st).
Proof.
  unfold displayZones. destruct (mapAvailable page); cbn [negb]; [|apply keeps_refl].
  eapply keeps_trans.
  - apply (keeps_fold
             (fun st zone =>
                if bool_decide (Zone.id zone ∈ checkedZoneIds page) then st
                else match overlays st !! Zone.id zone with
                     | Some overlay =>
                       with_overlays st (<[Zone.id zone := removeLayer overlay]> (overlays st))
                     | None => st
                     end)).
    intros s z. destruct (bool_decide _); [apply keeps_refl|].
    destruct (overlays s !! Zone.id z); [|apply keeps_refl].
    unfold keeps. cbn. tauto.
  - apply keeps_fold. intros s z.
    destruct (bool_decide _); [|apply keeps_refl].
    destruct (overlays s !! Zone.id z) as [ov|].
    + destruct (ov_onMap ov); [apply keeps_refl|apply addZoneOverlay_frame].
    + apply addZoneOverlay_frame.
Qed.

Lemma loadZones_keeps (page : Page) (reload : option (list Zone.t))
    (st : FloodZoneManager) :
  let st' := loadZones page reload st in
  zones st' = match reload with Some loaded => loaded | None => zones st end
  /\ anchors st' = anchors st
  /\ currentScale st' = currentScale st
  /\ (forall k v, baseZoneSizes st !! k = Some v -> baseZoneSizes st' !! k = Some v).
Proof.
  unfold loadZones. destruct reload as [loaded|]; [|cbn; tauto].
  destruct (displayZones_keeps page (with_zones st loaded)) as (Hz & Ha & Hs & Hb).
  cbv zeta. rewrite Hz, Ha, Hs. cbn. repeat split; try reflexivity. exact Hb.
Qed.

(** C1: when the zone is known, the save button is present, the anchor and
    the base size are stored, the update is accepted and the reload (if it
    succeeds) returns the bounds the manager holds, a commit at scale factor
    [f = currentScale / 100] leaves the zone with the rectangle of size
    [base * f] centred on the anchor as its bounds, stores [base * f] as the
    base size and resets the scale to 100; a scale preview at 100% then shows
    exactly the committed bounds. *)
Theorem saveZoneTransform_commit
    (page : Page) (reload : option (list Zone.t)) (this : FloodZoneManager)
    (zoneId : Z) (zone : Zone.t) (center : LatLng) (baseSize : BaseSize) :
  findZone (zones this) zoneId = Some zone ->
  saveBtn page = true ->
  anchors this !! zoneId = Some center ->
  baseZoneSizes this !! zoneId = Some baseSize ->
  let f := currentScale this / 100 in
  let committed := centredBounds center (scaledSize baseSize f) in
  reloadReflects (replaceZone (zones this) zoneId (savedZone this zone zoneId committed))
                 reload ->
  let this' := saveZoneTransform page true reload this zoneId in
  (exists z', findZone (zones this') zoneId = Some z' /\ Zone.bounds z' = committed)
  /\ (let '((south, west), (north, east)) := committed in
      north - south = latSize baseSize * f /\ east - west = lngSize baseSize * f
      /\ (south + north) / 2 = fst center /\ (west + east) / 2 = snd center)
  /\ baseZoneSizes this' !! zoneId = Some (scaledSize baseSize f)
  /\ currentScale this' = 100
  /\ (forall overlay,
         overlays this' !! zoneId = Some overlay ->
         overlays (applyScaleToZone this' zoneId (currentScale this' / 100)) !! zoneId
         = Some (setBounds overlay committed)).
Proof.
  intros Hfind Hbtn Hanchor Hbase f committed Hreload this'.
  unfold findZone in Hfind.
  assert (Hthis' :
    this' = with_selectedZoneId
              (with_currentScale
                 (loadZones page reload
                    (with_baseZoneSizes
                       (with_zones this
                          (replaceZone (zones this) zoneId
                             (zoneOfData
                                {| zd_name := Zone.name zone;
                                   zd_image_path := Zone.image_path zone;
                                   zd_bounds := committed;
                                   zd_opacity := or_default (Zone.opacity zone) 0.6;
                                   zd_rotation := currentRotation this |} zoneId)))
                       (<[zoneId := scaledSize baseSize f]> (baseZoneSizes this))))
                 100)
              (Some zoneId)).
  { unfold this', saveZoneTransform. rewrite Hfind, Hbtn, Hanchor, Hbase. reflexivity. }
  set (data := {| zd_name := Zone.name zone; zd_image_path := Zone.image_path zone;
                  zd_bounds := committed;
                  zd_opacity := or_default (Zone.opacity zone) 0.6;
                  zd_rotation := currentRotation this |}) in Hthis'.
  set (resized := with_baseZoneSizes _ _) in Hthis'.
  destruct (loadZones_keeps page reload resized) as (Hz & Ha & _ & Hb).
  cbv zeta in Hz, Ha, Hb.
  assert (Hzones : zones this' = match reload with
                                 | Some loaded => loaded
                                 | None => zones resized
                                 end).
  { rewrite Hthis'. exact Hz. }
  assert (Hanchors : anchors this' = anchors this).
  { rewrite Hthis'. cbn [anchors with_selectedZoneId with_currentScale]. now rewrite Ha. }
  assert (Hsizes : baseZoneSizes this' !! zoneId = Some (scaledSize baseSize f)).
  { rewrite Hthis'. cbn [baseZoneSizes with_selectedZoneId with_currentScale].
    apply Hb. unfold resized. cbn [baseZoneSizes with_baseZoneSizes].
    apply lookup_insert_eq. }
  assert (Hscale : currentScale this' = 100) by (rewrite Hthis'; reflexivity).
  assert (Hheld : findZone (zones resized) zoneId = Some (zoneOfData data zoneId)).
  { unfold resized. cbn [zones with_baseZoneSizes with_zones].
    now apply (findZone_replaceZone _ _ zone). }
  split; [|split; [|split; [|split]]].
  - rewrite Hzones. destruct reload as [loaded|].
    + cbn [reloadReflects] in Hreload.
      assert (Hm : findZone (replaceZone (zones this) zoneId
                                         (savedZone this zone zoneId committed))
                            zoneId = Some (savedZone this zone zoneId committed))
        by now apply (findZone_replaceZone _ _ zone).
      destruct (findZone_idBounds _ _ _ _ Hreload Hm) as (z2 & Hz2 & Hb2).
      exists z2. split; [exact Hz2|]. rewrite Hb2. reflexivity.
    + exists (zoneOfData data zoneId). split; [exact Hheld|reflexivity].
  - unfold committed, centredBounds, scaledSize. cbn [latSize lngSize].
    repeat split; field.
  - exact Hsizes.
  - exact Hscale.
  - intros overlay Hov.
    rewrite (applyScaleToZone_overlay this' zoneId _ overlay center
               (scaledSize baseSize f) Hov); [| now rewrite Hanchors | exact Hsizes].
    rewrite Hscale. unfold committed, centredBounds, scaledSize.
    cbn [latSize lngSize].
    assert (E : forall a : R, a * (100 / 100) = a) by (intros a; field).
    rewrite !E. reflexivity.
Qed.

Lemma saveZoneTransform_commit_witness :
  let this' := saveZoneTransform pageReady true None managerScaled 1 in
  let committed := centredBounds (5, 5) (scaledSize {| latSize := 10; lngSize := 10 |} (50 / 100)) in
  (exists z', findZone (zones this') 1 = Some z' /\ Zone.bounds z' = committed)
  /\ baseZoneSizes this' !! 1%Z = Some (scaledSize {| latSize := 10; lngSize := 10 |} (50 / 100))
  /\ currentScale this' = 100.
Proof.
  destruct (saveZoneTransform_commit pageReady None managerScaled 1 zoneA (5, 5)
              {| latSize := 10; lngSize := 10 |})
    as (H1 & _ & H3 & H4 & _).
  - reflexivity.
  - reflexivity.
  - reflexivity.
  - reflexivity.
  - exact I.
  - split; [exact H1|]. split; [exact H3|exact H4].
Defined.

(** ** Douglas-Peucker *)

(** A point of the segment is at distance 0 from it. *)
Lemma pointToLineDistance_between (p q : Point) (t : R) :
  0 <= t <= 1 -> pointToLineDistance (between p q t) p q = 0.
Proof.
  intros Ht. unfold pointToLineDistance, between.
  destruct p as [x1 y1], q as [x2 y2]. cbn [fst snd]. cbv zeta.
  set (C := x2 - x1). set (D := y2 - y1).
  destruct (Reqb (C * C + D * D) 0) eqn:E.
  - apply Reqb_true_iff in E. cbn [negb].
    assert (HC : C = 0) by nra. assert (HD : D = 0) by nra.
    replace (Rltb (-1) 0) with true by (symmetry; apply Rltb_true_iff; lra).
    rewrite HC, HD.
    replace ((x1 + t * 0 - x1) * (x1 + t * 0 - x1) + (y1 + t * 0 - y1) * (y1 + t * 0 - y1))
      with 0 by ring.
    apply sqrt_0.
  - apply Reqb_false_iff in E. cbn [negb].
    replace (((x1 + t * C - x1) * C + (y1 + t * D - y1) * D) / (C * C + D * D))
      with t by (field; exact E).
    replace (Rltb t 0) with false by (symmetry; apply Rltb_false_iff; lra).
    unfold Rgtb.
    replace (Rltb 1 t) with false by (symmetry; apply Rltb_false_iff; lra).
    replace ((x1 + t * C - (x1 + t * C)) * (x1 + t * C - (x1 + t * C))
             + (y1 + t * D - (y1 + t * D)) * (y1 + t * D - (y1 + t * D)))
      with 0 by ring.
    apply sqrt_0.
Qed.

(** The running maximum of the scan over the indices seen so far. *)
Lemma dpScan_fold (points : list Point) (e : nat) (idxs : list nat) :
  forall (seen : list nat) (m : R) (k : nat),
    0 <= m ->
    (forall i, In i seen -> deviation points e i <= m) ->
    ((m = 0 /\ k = 0%nat) \/ (In k seen /\ deviation points e k = m /\ 0 < m)) ->
    let '(m', k') := fold_left (dpScanStep points e) idxs (m, k) in
    0 <= m'
    /\ (forall i, In i (seen ++ idxs) -> deviation points e i <= m')
    /\ ((m' = 0 /\ k' = 0%nat)
        \/ (In k' (seen ++ idxs) /\ deviation points e k' = m' /\ 0 < m')).
Proof.
  induction idxs as [|i idxs IH]; intros seen m k Hm Hseen Hk.
  - cbn [fold_left]. rewrite app_nil_r. auto.
  - cbn [fold_left]. unfold dpScanStep at 2. fold (deviation points e i).
    replace (seen ++ i :: idxs) with ((seen ++ [i]) ++ idxs)
      by (rewrite <- app_assoc; reflexivity).
    unfold Rgtb. destruct (Rltb m (deviation points e i)) eqn:E.
    + apply Rltb_true_iff in E. apply IH.
      * lra.
      * intros j Hj. apply in_app_or in Hj as [Hj|[<-|[]]]; [|lra].
        specialize (Hseen j Hj). lra.
      * right. split; [apply in_or_app; right; now left|]. split; [reflexivity|lra].
    + apply Rltb_false_iff in E. apply IH.
      * exact Hm.
      * intros j Hj. apply in_app_or in Hj as [Hj|[<-|[]]]; [auto|exact E].
      * destruct Hk as [Hk|(Hin & Hd & Hp)]; [left; exact Hk|].
        right. split; [apply in_or_app; now left|]. split; assumption.
Qed.

Lemma dpScan_spec (points : list Point) (e : nat) :
  let '(m, k) := dpScan points e in
  0 <= m
  /\ (forall i, (1 <= i < e)%nat -> deviation points e i <= m)
  /\ ((m = 0 /\ k = 0%nat)
      \/ ((1 <= k < e)%nat /\ deviation points e k = m /\ 0 < m)).
Proof.
  unfold dpScan.
  pose proof (dpScan_fold points e (seq 1 (e - 1)) [] 0 0%nat) as H.
  destruct (fold_left (dpScanStep points e) (seq 1 (e - 1)) (0, 0%nat)) as [m k].
  destruct H as (Hm & Hall & Hk).
  - lra.
  - intros i [].
  - left. split; reflexivity.
  - split; [exact Hm|]. split.
    + intros i Hi. apply Hall. cbn [app]. apply in_seq. lia.
    + destruct Hk as [Hk|(Hin & Hd & Hp)]; [left; exact Hk|].
      right. cbn [app] in Hin. apply in_seq in Hin. split; [lia|]. split; assumption.
Qed.

(** One unfolding of the recursion on a path of more than two points. *)
Lemma douglasPeucker_step (fuel : nat) (points : list Point) (tolerance : R) :
  (2 < length points)%nat ->
  douglasPeucker (S fuel) points tolerance
  = let end_ := (length points - 1)%nat in
    let '(maxDist, maxIdx) := dpScan points end_ in
    if Rgtb maxDist tolerance then
      match douglasPeucker fuel (firstn (maxIdx + 1) points) tolerance with
      | None => None
      | Some left_ =>
        match douglasPeucker fuel (skipn maxIdx points) tolerance with
        | None => None
        | Some right_ => Some (removelast left_ ++ right_)
        end
      end
    else Some [pointAt points 0; pointAt points end_].
Proof.
  intros Hlen. cbn [douglasPeucker].
  replace (length points <=? 2)%nat with false
    by (symmetry; apply Nat.leb_gt; exact Hlen).
  reflexivity.
Qed.

(** When no interior point deviates by more than the tolerance, only the two
    end points are kept. *)
Lemma douglasPeucker_within_tolerance (fuel : nat) (points : list Point) (tolerance : R) :
  (2 < length points)%nat ->
  (forall i, (1 <= i < length points - 1)%nat ->
             deviation points (length points - 1) i <= tolerance) ->
  0 <= tolerance ->
  douglasPeucker (S fuel) points tolerance
  = Some [pointAt points 0; pointAt points (length points - 1)].
Proof.
  intros Hlen Hdev Htol. rewrite douglasPeucker_step by exact Hlen. cbv zeta.
  pose proof (dpScan_spec points (length points - 1)) as H.
  destruct (dpScan points (length points - 1)) as [m k].
  destruct H as (Hm & _ & Hk).
  unfold Rgtb. replace (Rltb tolerance m) with false; [reflexivity|].
  symmetry. apply Rltb_false_iff.
  destruct Hk as [[-> _]|(Hk & Hd & _)]; [exact Htol|].
  rewrite <- Hd. now apply Hdev.
Qed.

Lemma removelast_length {A : Type} (l : list A) :
  length (removelast l) = (length l - 1)%nat.
Proof.
  induction l as [|a [|b l] IH]; [reflexivity|reflexivity|].
  change (removelast (a :: b :: l)) with (a :: removelast (b :: l)).
  cbn [length] in *. lia.
Qed.

(** Whatever the fuel, a returned path keeps at least two points of a path
    of two or more, and at least three when an interior point deviates by more
    than the tolerance. *)
Lemma douglasPeucker_length (tolerance : R) :
  0 <= tolerance ->
  forall (fuel : nat) (points r : list Point),
    douglasPeucker fuel points tolerance = Some r ->
    ((2 <= length points)%nat -> (2 <= length r)%nat)
    /\ ((exists i, (1 <= i < length points - 1)%nat
                   /\ tolerance < deviation points (length points - 1) i) ->
        (3 <= length r)%nat).
Proof.
  intros Htol.
  induction fuel as [|fuel IH]; intros points r Hr; [discriminate|].
  destruct (Nat.le_gt_cases (length points) 2) as [Hshort|Hlong].
  - cbn [douglasPeucker] in Hr.
    replace (length points <=? 2)%nat with true in Hr
      by (symmetry; apply Nat.leb_le; exact Hshort).
    injection Hr as <-. split; [auto|]. intros (i & Hi & _). lia.
  - rewrite douglasPeucker_step in Hr by exact Hlong. cbv zeta in Hr.
    pose proof (dpScan_spec points (length points - 1)) as H.
    destruct (dpScan points (length points - 1)) as [m k].
    destruct H as (Hm & Hall & Hk).
    unfold Rgtb in Hr. destruct (Rltb tolerance m) eqn:E.
    + destruct (douglasPeucker fuel (firstn (k + 1) points) tolerance) as [l|] eqn:El;
        [|discriminate].
      destruct (douglasPeucker fuel (skipn k points) tolerance) as [r'|] eqn:Er;
        [|discriminate].
      injection Hr as <-. apply Rltb_true_iff in E.
      apply IH in El as [Hl _]. apply IH in Er as [Hr' _].
      rewrite length_firstn in Hl. rewrite length_skipn in Hr'.
      destruct Hk as [[-> _]|(Hk & _ & _)]; [lra|].
      assert (3 <= length (removelast l ++ r'))%nat.
      { rewrite length_app, removelast_length.
        assert (2 <= length l)%nat by (apply Hl; lia).
        assert (2 <= length r')%nat by (apply Hr'; lia). lia. }
      split; intros; lia.
    + apply Rltb_false_iff in E. injection Hr as <-.
      split; [cbn; lia|].
      intros (i & Hi & Hd). specialize (Hall i Hi). lra.
Qed.

(** With a non-negative tolerance the recursion ends within [length points]
    levels. *)
Lemma douglasPeucker_terminates (tolerance : R) :
  0 <= tolerance ->
  forall (fuel : nat) (points : list Point),
    (length points < fuel)%nat ->
    exists r, douglasPeucker fuel points tolerance = Some r.
Proof.
  intros Htol. induction fuel as [|fuel IH]; intros points Hfuel; [lia|].
  destruct (Nat.le_gt_cases (length points) 2) as [Hshort|Hlong].
  - exists points. cbn [douglasPeucker].
    replace (length points <=? 2)%nat with true
      by (symmetry; apply Nat.leb_le; exact Hshort).
    reflexivity.
  - rewrite douglasPeucker_step by exact Hlong. cbv zeta.
    pose proof (dpScan_spec points (length points - 1)) as H.
    destruct (dpScan points (length points - 1)) as [m k].
    destruct H as (Hm & Hall & Hk).
    unfold Rgtb. destruct (Rltb tolerance m) eqn:E; [|eauto].
    apply Rltb_true_iff in E.
    destruct Hk as [[-> _]|(Hk & _ & _)]; [lra|].
    destruct (IH (firstn (k + 1) points)) as (l & ->).
    { rewrite length_firstn. lia. }
    destruct (IH (skipn k points)) as (r & ->).
    { rewrite length_skipn. lia. }
    eauto.
Qed.

(** The path [a, between a b t1, ..., between a b tn, b]. *)
Lemma pointAt_segment_path (a b : Point) (ts : list R) :
  let points := a :: map (between a b) ts ++ [b] in
  length points = (length ts + 2)%nat
  /\ pointAt points 0 = a
  /\ pointAt points (length ts + 1) = b
  /\ (forall i, (1 <= i < length ts + 1)%nat ->
                pointAt points i = between a b (nth (i - 1) ts 0)).
Proof.
  cbv zeta. unfold pointAt. repeat split.
  - cbn [length]. rewrite length_app, length_map. cbn [length]. lia.
  - replace (length ts + 1)%nat with (S (length ts)) by lia. cbn [nth].
    rewrite app_nth2 by (rewrite length_map; lia).
    rewrite length_map, Nat.sub_diag. reflexivity.
  - intros i Hi. destruct i as [|i]; [lia|]. cbn [nth].
    rewrite Nat.sub_1_r. cbn [Nat.pred].
    rewrite app_nth1 by (rewrite length_map; lia).
    rewrite (nth_indep _ (0, 0) (between a b 0)) by (rewrite length_map; lia).
    apply map_nth.
Qed.

(** On the x axis, a point beyond the end of the segment is measured from the
    end point. *)
Lemma pointToLineDistance_beyond_end (px x2 : R) :
  0 < x2 < px -> pointToLineDistance (px, 0) (0, 0) (x2, 0) = px - x2.
Proof.
  intros H. unfold pointToLineDistance. cbv zeta.
  replace (Reqb ((x2 - 0) * (x2 - 0) + (0 - 0) * (0 - 0)) 0) with false
    by (symmetry; apply Reqb_false_iff; nra).
  cbn [negb].
  replace (((px - 0) * (x2 - 0) + (0 - 0) * (0 - 0))
           / ((x2 - 0) * (x2 - 0) + (0 - 0) * (0 - 0)))
    with (px / x2) by (field; lra).
  assert (Hq : 1 < px / x2).
  { assert (0 < / x2) by (apply Rinv_0_lt_compat; lra).
    assert (x2 * / x2 = 1) by (apply Rinv_r; lra).
    unfold Rdiv. nra. }
  replace (Rltb (px / x2) 0) with false by (symmetry; apply Rltb_false_iff; lra).
  unfold Rgtb.
  replace (Rltb 1 (px / x2)) with true by (symmetry; apply Rltb_true_iff; lra).
  replace ((px - x2) * (px - x2) + (0 - 0) * (0 - 0)) with ((px - x2) * (px - x2))
    by ring.
  apply sqrt_square. lra.
Qed.

Lemma overshootPath_length : length overshootPath = 501%nat.
Proof.
  unfold overshootPath. cbn [length]. now rewrite length_map, length_seq.
Qed.

Lemma overshootPath_deviates :
  1 < deviation overshootPath (length overshootPath - 1) 1.
Proof.
  rewrite overshootPath_length. unfold deviation, pointAt, overshootPath.
  change (501 - 1)%nat with (S (S 498)). cbn [nth].
  change (nth 498 (map (fun k : nat => (INR k, 0)) (seq 1 499)) (0, 0))
    with (nth 498 (map (fun k : nat => (INR k, 0)) (seq 1 499))
              ((fun k : nat => (INR k, 0)) 0%nat)).
  rewrite map_nth, seq_nth by lia.
  change (1 + 498)%nat with 499%nat. rewrite INR_IZR_INZ.
  change (Z.of_nat 499) with 499%Z.
  rewrite pointToLineDistance_beyond_end; lra.
Qed.

(** C8, the claim as stated fails: the 501 points of [overshootPath] lie on
    one line, the simplification with tolerance 1 returns, and what it
    returns has at least three points. *)
Lemma douglasPeucker_collinear_overshoot :
  length overshootPath = 501%nat
  /\ collinear overshootPath
  /\ (exists r, douglasPeucker 502 overshootPath 1 = Some r)
  /\ (forall fuel r, douglasPeucker fuel overshootPath 1 = Some r ->
                     (3 <= length r)%nat).
Proof.
  split; [exact overshootPath_length|]. split; [|split].
  - exists 0, 1, 0. split; [right; lra|].
    intros p Hp. unfold overshootPath in Hp.
    destruct Hp as [<-|[<-|Hp]]; cbn [fst snd]; try lra.
    apply in_map_iff in Hp as (k & <- & _). cbn [fst snd]. lra.
  - apply douglasPeucker_terminates; [lra|rewrite overshootPath_length; lia].
  - intros fuel r Hr. apply (douglasPeucker_length 1 ltac:(lra) fuel overshootPath r Hr).
    exists 1%nat. split; [rewrite overshootPath_length; lia|].
    exact overshootPath_deviates.
Qed.

Lemma detectColorPerimeter_Ok (img : ImageData) :
  detectColorPerimeter (Ok img)
  = if (length (edgePixels img) =? 0)%nat then None
    else
      match stitchedPath (thinPoints (edgePixels img)) with
      | None => None
      | Some path =>
        if (500 <? length path)%nat
        then douglasPeucker (S (length path)) path 1
        else Some path
      end.
Proof.
  unfold detectColorPerimeter. cbn [bind_result].
  destruct (length (edgePixels img) =? 0)%nat; [reflexivity|].
  destruct (stitchedPath (thinPoints (edgePixels img))) as [path|]; [|reflexivity].
  destruct (500 <? length path)%nat; reflexivity.
Qed.

(** C8, amended: the extractor hands the stitched path to [douglasPeucker]
    with tolerance 1 exactly when it has more than 500 points; the distance is
    the distance to the segment between the end points, so a path of 501
    collinear points whose interior points lie between the first and the
    last point is reduced to its two end points. *)
Theorem douglasPeucker_collinear_between :
  (forall (img : ImageData) (path : list Point),
      edgePixels img <> [] ->
      stitchedPath (thinPoints (edgePixels img)) = Some path ->
      detectColorPerimeter (Ok img)
      = if (500 <? length path)%nat
        then douglasPeucker (S (length path)) path 1
        else Some path)
  /\ (forall (fuel : nat) (a b : Point) (ts : list R),
         length ts = 499%nat ->
         Forall (fun t => 0 <= t <= 1) ts ->
         let points := a :: map (between a b) ts ++ [b] in
         length points = 501%nat
         /\ douglasPeucker (S fuel) points 1 = Some [a; b]).
Proof.
  split.
  - intros img path Hedge Hpath. rewrite detectColorPerimeter_Ok, Hpath.
    destruct (edgePixels img); [contradiction|reflexivity].
  - intros fuel a b ts Hts Hrange points.
    destruct (pointAt_segment_path a b ts) as (Hlen & H0 & He & Hi).
    fold points in Hlen, H0, He, Hi.
    split; [lia|].
    rewrite douglasPeucker_within_tolerance; [| lia | | lra].
    + rewrite H0. replace (length points - 1)%nat with (length ts + 1)%nat by lia.
      now rewrite He.
    + intros i Hr. unfold deviation.
      replace (length points - 1)%nat with (length ts + 1)%nat by lia.
      rewrite H0, He, Hi by lia.
      rewrite pointToLineDistance_between; [lra|].
      assert (Hin : In (nth (i - 1) ts 0) ts) by (apply nth_In; lia).
      revert Hin. generalize (nth (i - 1) ts 0).
      now apply List.Forall_forall.
Qed.

Lemma segmentParams_range : Forall (fun t => 0 <= t <= 1) segmentParams.
Proof.
  apply List.Forall_forall. intros t Ht. unfold segmentParams in Ht.
  apply in_map_iff in Ht as (k & <- & Hk). apply in_seq in Hk.
  assert (0 <= INR k) by apply pos_INR.
  assert (INR k <= INR 500) by (apply le_INR; lia).
  assert (INR 500 = 500) by (rewrite INR_IZR_INZ; reflexivity).
  lra.
Qed.

Lemma douglasPeucker_collinear_between_witness :
  detectColorPerimeter (Ok onePixelRaster) = Some [(0, 0)]
  /\ douglasPeucker 1 ((0, 0) :: map (between (0, 0) (500, 0)) segmentParams ++ [(500, 0)]) 1
     = Some [(0, 0); (500, 0)].
Proof.
  destruct douglasPeucker_collinear_between as (H1 & H3).
  split.
  - apply (H1 onePixelRaster [(0, 0)]); [discriminate|reflexivity].
  - apply (H3 0%nat (0, 0) (500, 0) segmentParams).
    + unfold segmentParams. now rewrite length_map, length_seq.
    + exact segmentParams_range.
Defined.

(** ** Perimeter pipeline *)

Lemma thinStep_nonempty (threshold : R) (simplified : list Point) (p : Point) :
  thinStep threshold simplified p <> [].
Proof.
  unfold thinStep. destruct simplified as [|s simplified].
  - cbn. discriminate.
  - destruct (negb _); [cbn|]; discriminate.
Qed.

Lemma thinPoints_nonempty (edge : list Point) : edge <> [] -> thinPoints edge <> [].
Proof.
  unfold thinPoints. destruct edge as [|p edge]; [contradiction|]. intros _.
  cbn [fold_left].
  assert (H : forall l acc, acc <> [] -> fold_left (thinStep 2) l acc <> []).
  { induction l as [|q l IH]; intros acc Hacc; [exact Hacc|].
    cbn [fold_left]. apply IH, thinStep_nonempty. }
  apply H, thinStep_nonempty.
Qed.

(** The index found by the nearest-point search lies within [remaining]. *)
Lemma findNearest_index (current : Point) (remaining : list Point) :
  remaining <> [] ->
  (snd (findNearest current remaining) < length remaining)%nat.
Proof.
  intros Hne. unfold findNearest.
  assert (H : forall idxs acc,
             (snd acc < length remaining)%nat ->
             (forall i, In i idxs -> (i < length remaining)%nat) ->
             (snd (fold_left (nearestStep current remaining) idxs acc)
              < length remaining)%nat).
  { induction idxs as [|i idxs IH]; intros [d k] Hacc Hin; [exact Hacc|].
    cbn [fold_left]. apply IH.
    - unfold nearestStep. destruct (ltInfinity _ d); cbn [snd].
      + apply Hin. now left.
      + exact Hacc.
    - intros j Hj. apply Hin. now right. }
  apply H.
  - cbn [snd]. destruct remaining; [contradiction|cbn; lia].
  - intros i Hi. apply in_seq in Hi. lia.
Qed.

(** The loop only appends to the path, and [n] turns consume a [remaining]
    of at most [n] points. *)
Lemma stitchLoop_spec (n : nat) :
  forall (current : Point) (path remaining : list Point),
    (exists added, fst (stitchLoop n current path remaining) = path ++ added)
    /\ ((length remaining <= n)%nat ->
        snd (stitchLoop n current path remaining) = []
        /\ length (fst (stitchLoop n current path remaining))
           = (length path + length remaining)%nat).
Proof.
  induction n as [|n IH]; intros current path remaining.
  - cbn [stitchLoop fst snd]. split; [exists []; now rewrite app_nil_r|].
    intros Hlen. destruct remaining; [|cbn in Hlen; lia]. split; [reflexivity|cbn; lia].
  - cbn [stitchLoop]. destruct remaining as [|first rest].
    + cbn [fst snd]. split; [exists []; now rewrite app_nil_r|].
      intros _. split; [reflexivity|cbn; lia].
    + pose proof (findNearest_index current (first :: rest)) as Hidx.
      destruct (findNearest current (first :: rest)) as [d k]. cbn [snd] in Hidx.
      specialize (Hidx ltac:(discriminate)).
      destruct (gtInfinity d 50 && (10 <? length path)%nat).
      * destruct (IH first (path ++ [first]) rest) as [(added & Ha) Hrest].
        split.
        -- exists (first :: added). rewrite Ha, <- app_assoc. reflexivity.
        -- intros Hlen. cbn [length] in Hlen.
           destruct (Hrest ltac:(lia)) as [-> ->].
           split; [reflexivity|]. rewrite length_app. cbn [length]. lia.
      * set (next := pointAt (first :: rest) k).
        destruct (IH next (path ++ [next]) (delete k (first :: rest)))
          as [(added & Ha) Hrest].
        assert (Hdel : length (delete k (first :: rest)) = length rest).
        { rewrite length_delete by (apply lookup_lt_is_Some; exact Hidx).
          cbn [length]. lia. }
        split.
        -- exists (next :: added). rewrite Ha, <- app_assoc. reflexivity.
        -- intros Hlen. cbn [length] in Hlen.
           destruct (Hrest ltac:(lia)) as [-> ->].
           split; [reflexivity|]. rewrite length_app, Hdel. cbn [length]. lia.
Qed.

(** The stitched path uses every thinned point once. *)
Lemma stitchedPath_length (simplified path : list Point) :
  stitchedPath simplified = Some path -> length path = length simplified.
Proof.
  unfold stitchedPath. destruct simplified as [|current remaining]; [discriminate|].
  intros [= <-].
  destruct (stitchLoop_spec (length remaining) current [current] remaining)
    as [_ H].
  destruct (H ltac:(lia)) as [_ ->]. reflexivity.
Qed.

(** With an edge pixel in the raster the extractor returns a non-empty path. *)
Lemma detectColorPerimeter_nonempty (img : ImageData) :
  edgePixels img <> [] ->
  exists p path, detectColorPerimeter (Ok img) = Some (p :: path).
Proof.
  intros Hedge. rewrite detectColorPerimeter_Ok.
  destruct (edgePixels img) as [|e edge] eqn:E; [contradiction|].
  cbn [length Nat.eqb].
  pose proof (thinPoints_nonempty (e :: edge) ltac:(discriminate)) as Hthin.
  destruct (thinPoints (e :: edge)) as [|current remaining] eqn:T; [contradiction|].
  cbn [stitchedPath].
  destruct (stitchLoop_spec (length remaining) current [current] remaining)
    as [(added & Ha) _].
  rewrite Ha. cbn [app].
  destruct (500 <? length (current :: added))%nat eqn:L; [|eauto].
  apply Nat.ltb_lt in L.
  destruct (douglasPeucker_terminates 1 ltac:(lra)
              (S (length (current :: added))) (current :: added) ltac:(lia))
    as (r & Hr).
  rewrite Hr.
  destruct (douglasPeucker_length 1 ltac:(lra) _ _ _ Hr) as [H2 _].
  destruct r as [|p r]; [cbn [length] in *; lia|eauto].
Qed.

(** A closed perimeter starts and ends with the same vertex; the first
    vertex is pushed exactly when it differs from the last one. *)
Lemma closeRing_spec (first : LatLng) (rest : list LatLng) :
  let perimeter := first :: rest in
  List.last (closeRing perimeter) first = first
  /\ (List.last perimeter first = first -> closeRing perimeter = perimeter)
  /\ (List.last perimeter first <> first -> closeRing perimeter = perimeter ++ [first]).
Proof.
  cbv zeta. unfold closeRing.
  set (l := List.last (first :: rest) first).
  destruct (Reqb (fst first) (fst l)) eqn:E1, (Reqb (snd first) (snd l)) eqn:E2;
    cbn [negb orb].
  - apply Reqb_true_iff in E1, E2.
    assert (Hl : l = first) by (destruct l, first; cbn [fst snd] in *; congruence).
    split; [exact Hl|]. split; [reflexivity|]. intros H. contradiction.
  - apply Reqb_false_iff in E2.
    split; [apply last_last|]. split; [|reflexivity].
    intros H. rewrite H in E2. contradiction.
  - apply Reqb_false_iff in E1.
    split; [apply last_last|]. split; [|reflexivity].
    intros H. rewrite H in E1. contradiction.
  - apply Reqb_false_iff in E1.
    split; [apply last_last|]. split; [|reflexivity].
    intros H. rewrite H in E1. contradiction.
Qed.

(** C7, the claim as stated fails: the raster of one opaque pixel has an edge
    pixel, and the pipeline returns a ring of a single vertex. *)
Lemma extractPerimeter_single_vertex :
  edgePixels onePixelRaster <> []
  /\ exists v, extractPerimeter onePixelRaster ((0, 0), (1, 1)) = Some [v].
Proof.
  split; [discriminate|].
  unfold extractPerimeter.
  replace (detectColorPerimeter (Ok onePixelRaster)) with (Some [(0, 0)])
    by reflexivity.
  cbn [pixelsToLatLng map]. unfold closeRing. cbn [List.last fst snd].
  rewrite !Reqb_refl. cbn [negb orb]. eauto.
Qed.

(** C7, amended: for every raster with at least one edge pixel the pipeline
    returns a non-empty ring whose first vertex equals its last vertex, the
    first vertex being pushed when it differs from the last one; the number
    of distinct vertices has no lower bound beyond one. *)
Theorem extractPerimeter_closed (img : ImageData) (bounds : Bounds) :
  edgePixels img <> [] ->
  (exists first rest,
      extractPerimeter img bounds = Some (first :: rest)
      /\ List.last (first :: rest) first = first)
  /\ (forall first rest,
         let perimeter := first :: rest in
         (List.last perimeter first = first -> closeRing perimeter = perimeter)
         /\ (List.last perimeter first <> first ->
             closeRing perimeter = perimeter ++ [first])).
Proof.
  intros Hedge. split.
  - destruct (detectColorPerimeter_nonempty img Hedge) as (p & path & Hp).
    unfold extractPerimeter. rewrite Hp.
    rewrite pixelsToLatLng_cons.
    destruct (pixelsToLatLng [p] (INR (width img)) (INR (height img)) bounds)
      as [|g gs] eqn:G.
    { apply (f_equal (@length _)) in G. rewrite pixelsToLatLng_length in G.
      discriminate. }
    cbn [app].
    destruct (closeRing_spec g (gs ++ pixelsToLatLng path (INR (width img))
                                       (INR (height img)) bounds))
      as (Hlast & _).
    cbv zeta in Hlast.
    destruct (closeRing (g :: gs ++ _)) as [|first rest] eqn:C.
    + unfold closeRing in C. destruct (_ || _) in C; discriminate.
    + exists first, rest. split; [reflexivity|].
      assert (Hf : first = g).
      { unfold closeRing in C. destruct (_ || _) in C; now injection C. }
      rewrite Hf in *. exact Hlast.
  - intros first rest. cbv zeta.
    destruct (closeRing_spec first rest) as (_ & H1 & H2). cbv zeta in H1, H2.
    split; assumption.
Qed.

Lemma extractPerimeter_closed_witness :
  (exists first rest,
      extractPerimeter onePixelRaster ((0, 0), (1, 1)) = Some (first :: rest)
      /\ List.last (first :: rest) first = first)
  /\ closeRing [(0, 0); (0, 0)] = [(0, 0); (0, 0)]
  /\ closeRing [(0, 0); (1, 1)] = [(0, 0); (1, 1); (0, 0)].
Proof.
  destruct (extractPerimeter_closed onePixelRaster ((0, 0), (1, 1)))
    as [H1 H2].
  - discriminate.
  - split; [exact H1|]. split.
    + apply (proj1 (H2 (0, 0) [(0, 0)])). reflexivity.
    + apply (proj2 (H2 (0, 0) [(1, 1)])). cbn [List.last].
      intros H. injection H as H. lra.
Defined.

(** * Further properties of the code *)

(** ** More on the distance to a segment *)

Lemma sum_squares_zero (c d : R) : c * c + d * d = 0 -> c = 0 /\ d = 0.
Proof. intros H. split; nra. Qed.

(** X1: the distance of a point to a segment is not negative and never
    exceeds the distance to either end of the segment; when the two ends
    coincide it is the distance to that point. *)
Theorem pointToLineDistance_bounds (p a b : Point) :
  0 <= pointToLineDistance p a b
  /\ pointToLineDistance p a b <= pixelDistance p a
  /\ pointToLineDistance p a b <= pixelDistance p b
  /\ pointToLineDistance p a a = pixelDistance p a.
Proof.
  destruct p as [px py], a as [x1 y1], b as [x2 y2].
  assert (Hdeg : pointToLineDistance (px, py) (x1, y1) (x1, y1)
                 = pixelDistance (px, py) (x1, y1)).
  { unfold pointToLineDistance, pixelDistance. cbv zeta. cbn [fst snd].
    replace (Reqb ((x1 - x1) * (x1 - x1) + (y1 - y1) * (y1 - y1)) 0) with true
      by (symmetry; apply Reqb_true_iff; ring).
    cbn [negb].
    replace (Rltb (-1) 0) with true by (symmetry; apply Rltb_true_iff; lra).
    f_equal. ring. }
  split; [|split; [|split; [|exact Hdeg]]].
  - unfold pointToLineDistance. cbv zeta.
    destruct (if Rltb _ 0 then _ else _) as [xx yy]. apply sqrt_pos.
  - unfold pointToLineDistance, pixelDistance. cbv zeta. cbn [fst snd].
    set (A := px - x1). set (B := py - y1). set (C := x2 - x1). set (D := y2 - y1).
    destruct (Reqb (C * C + D * D) 0) eqn:E; cbn [negb].
    + replace (Rltb (-1) 0) with true by (symmetry; apply Rltb_true_iff; lra).
      apply sqrt_le_1_alt. fold A B. nra.
    + apply Reqb_false_iff in E.
      set (t := (A * C + B * D) / (C * C + D * D)).
      assert (Ht : t * (C * C + D * D) = A * C + B * D) by (unfold t; field; exact E).
      assert (Hl : 0 < C * C + D * D) by nra.
      destruct (Rltb t 0) eqn:E0.
      * apply sqrt_le_1_alt. fold A B. nra.
      * apply Rltb_false_iff in E0. unfold Rgtb. destruct (Rltb 1 t) eqn:E1.
        -- apply Rltb_true_iff in E1. apply sqrt_le_1_alt.
           replace (px - x2) with (A - C) by (unfold A, C; ring).
           replace (py - y2) with (B - D) by (unfold B, D; ring).
           assert (C * C + D * D < A * C + B * D) by nra. nra.
        -- apply sqrt_le_1_alt.
           replace (px - (x1 + t * C)) with (A - t * C) by (unfold A; ring).
           replace (py - (y1 + t * D)) with (B - t * D) by (unfold B; ring).
           assert (0 <= t * t * (C * C + D * D))
             by (apply Rmult_le_pos; [nra|lra]).
           assert ((A - t * C) * (A - t * C) + (B - t * D) * (B - t * D)
                   = A * A + B * B - t * t * (C * C + D * D)).
           { replace (A * A + B * B - t * t * (C * C + D * D))
               with (A * A + B * B - 2 * t * (A * C + B * D)
                     + t * t * (C * C + D * D))
               by (rewrite <- Ht; ring).
             ring. }
           nra.
  - unfold pointToLineDistance, pixelDistance. cbv zeta. cbn [fst snd].
    set (A := px - x1). set (B := py - y1). set (C := x2 - x1). set (D := y2 - y1).
    assert (HA : px - x2 = A - C) by (unfold A, C; ring).
    assert (HB : py - y2 = B - D) by (unfold B, D; ring).
    destruct (Reqb (C * C + D * D) 0) eqn:E; cbn [negb].
    + apply Reqb_true_iff in E. apply sum_squares_zero in E as [HC HD].
      replace (Rltb (-1) 0) with true by (symmetry; apply Rltb_true_iff; lra).
      apply sqrt_le_1_alt. rewrite HA, HB, HC, HD. fold A B. nra.
    + apply Reqb_false_iff in E.
      set (t := (A * C + B * D) / (C * C + D * D)).
      assert (Ht : t * (C * C + D * D) = A * C + B * D) by (unfold t; field; exact E).
      assert (Hl : 0 < C * C + D * D) by nra.
      destruct (Rltb t 0) eqn:E0.
      * apply Rltb_true_iff in E0. apply sqrt_le_1_alt. rewrite HA, HB. fold A B.
        assert (A * C + B * D < 0) by nra. nra.
      * apply Rltb_false_iff in E0. unfold Rgtb. destruct (Rltb 1 t) eqn:E1.
        -- apply sqrt_le_1_alt. rewrite HA, HB. nra.
        -- apply Rltb_false_iff in E1. apply sqrt_le_1_alt. rewrite HA, HB.
           replace (px - (x1 + t * C)) with (A - t * C) by (unfold A; ring).
           replace (py - (y1 + t * D)) with (B - t * D) by (unfold B; ring).
           assert ((A - t * C) * (A - t * C) + (B - t * D) * (B - t * D)
                   = A * A + B * B - t * t * (C * C + D * D)).
           { replace (A * A + B * B - t * t * (C * C + D * D))
               with (A * A + B * B - 2 * t * (A * C + B * D)
                     + t * t * (C * C + D * D))
               by (rewrite <- Ht; ring).
             ring. }
           assert ((A - C) ^ 2 + (B - D) ^ 2
                   = A * A + B * B - 2 * t * (C * C + D * D) + (C * C + D * D)).
           { replace (2 * t * (C * C + D * D)) with (2 * (A * C + B * D))
               by (rewrite <- Ht; ring).
             ring. }
           assert (0 <= (1 - t) * (1 - t) * (C * C + D * D))
             by (apply Rmult_le_pos; [nra|lra]).
           nra.
Qed.

(** ** More on the simplification *)

Lemma pointAt_ends (a b : Point) (inner : list Point) :
  pointAt (a :: inner ++ [b]) 0 = a
  /\ pointAt (a :: inner ++ [b]) (length (a :: inner ++ [b]) - 1) = b.
Proof.
  unfold pointAt. split; [reflexivity|].
  cbn [length]. rewrite length_app. cbn [length].
  replace (S (length inner + 1) - 1)%nat with (S (length inner)) by lia.
  cbn [nth]. rewrite app_nth2 by lia. now rewrite Nat.sub_diag.
Qed.

(** A path of two or more points is its first point, what lies between, and
    its last point. *)
Lemma path_ends (points : list Point) :
  (2 <= length points)%nat ->
  exists a b inner, points = a :: inner ++ [b].
Proof.
  intros H. destruct points as [|a rest]; [cbn in H; lia|].
  destruct (exists_last (l := rest)) as (inner & b & ->).
  { intros ->. cbn in H. lia. }
  eauto.
Qed.

Lemma split_at_middle (a b c : Point) (inner1 inner2 : list Point) :
  firstn (S (length inner1) + 1) (a :: (inner1 ++ c :: inner2) ++ [b])
  = a :: inner1 ++ [c]
  /\ skipn (S (length inner1)) (a :: (inner1 ++ c :: inner2) ++ [b])
     = c :: inner2 ++ [b].
Proof.
  split.
  - replace (S (length inner1) + 1)%nat with (S (S (length inner1))) by lia.
    cbn [firstn]. f_equal. rewrite <- app_assoc.
    rewrite firstn_app, firstn_all2 by lia.
    replace (S (length inner1) - length inner1)%nat with 1%nat by lia.
    reflexivity.
  - cbn [skipn]. rewrite <- app_assoc.
    rewrite skipn_app, skipn_all2, Nat.sub_diag by lia. reflexivity.
Qed.

(** Splitting [a :: inner ++ [b]] at an interior index. *)
Lemma split_at_interior (a b : Point) (inner : list Point) (k : nat) :
  (1 <= k < length (a :: inner ++ [b]) - 1)%nat ->
  exists c inner1 inner2,
    inner = inner1 ++ c :: inner2
    /\ firstn (k + 1) (a :: inner ++ [b]) = a :: inner1 ++ [c]
    /\ skipn k (a :: inner ++ [b]) = c :: inner2 ++ [b].
Proof.
  intros Hk. cbn [length] in Hk. rewrite length_app in Hk. cbn [length] in Hk.
  destruct k as [|k]; [lia|].
  destruct (lookup_lt_is_Some_2 inner k) as [c Hc]; [lia|].
  exists c, (take k inner), (drop (S k) inner).
  pose proof (take_drop_middle inner k c Hc) as Hmid.
  assert (Hlen : length (take k inner) = k) by (rewrite length_take; lia).
  split; [now symmetry|].
  destruct (split_at_middle a b c (take k inner) (drop (S k) inner)) as [H1 H2].
  rewrite Hlen, Hmid in H1, H2. split; assumption.
Qed.

(** Whatever is returned keeps the ends and a sub-sequence in between. *)
Lemma douglasPeucker_keepsEnds (tolerance : R) :
  0 <= tolerance ->
  forall (fuel : nat) (points r : list Point),
    douglasPeucker fuel points tolerance = Some r -> keepsEnds points r.
Proof.
  intros Htol. induction fuel as [|fuel IH]; intros points r Hr; [discriminate|].
  destruct (Nat.le_gt_cases (length points) 2) as [Hshort|Hlong].
  - cbn [douglasPeucker] in Hr.
    replace (length points <=? 2)%nat with true in Hr
      by (symmetry; apply Nat.leb_le; exact Hshort).
    injection Hr as <-.
    destruct (Nat.le_gt_cases (length points) 1) as [H1|H2]; [left; auto|].
    right. destruct (path_ends points H2) as (a & b & inner & ->).
    exists a, b, inner, inner. repeat split; reflexivity.
  - destruct (path_ends points ltac:(lia)) as (a & b & inner & Hp).
    rewrite douglasPeucker_step in Hr by exact Hlong. cbv zeta in Hr.
    pose proof (dpScan_spec points (length points - 1)) as H.
    destruct (dpScan points (length points - 1)) as [m k].
    destruct H as (Hm & _ & Hk).
    unfold Rgtb in Hr. destruct (Rltb tolerance m) eqn:E.
    + apply Rltb_true_iff in E.
      destruct Hk as [[-> _]|(Hk & _ & _)]; [lra|].
      destruct (douglasPeucker fuel (firstn (k + 1) points) tolerance) as [l|] eqn:El;
        [|discriminate].
      destruct (douglasPeucker fuel (skipn k points) tolerance) as [r'|] eqn:Er;
        [|discriminate].
      injection Hr as <-. subst points.
      destruct (split_at_interior a b inner k Hk) as (c & i1 & i2 & -> & Ht & Hd).
      rewrite Ht in El. rewrite Hd in Er.
      apply IH in El. apply IH in Er.
      destruct El as [[Hl _]|(a' & c' & i1' & k1 & Hl1 & -> & Hs1)].
      { cbn [length] in Hl. rewrite length_app in Hl. cbn [length] in Hl. lia. }
      destruct Er as [[Hl _]|(c'' & b' & i2' & k2 & Hl2 & -> & Hs2)].
      { cbn [length] in Hl. rewrite length_app in Hl. cbn [length] in Hl. lia. }
      injection Hl1 as <- Hl1. apply app_inj_tail in Hl1 as [<- <-].
      injection Hl2 as <- Hl2. apply app_inj_tail in Hl2 as [<- <-].
      right. exists a, b, (i1 ++ c :: i2), (k1 ++ c :: k2).
      split; [reflexivity|]. split.
      * change (a :: k1 ++ [c]) with ((a :: k1) ++ [c]).
        rewrite removelast_last. cbn [app]. rewrite <- !app_assoc. reflexivity.
      * apply sublist_app; [exact Hs1|]. now apply sublist_skip.
    + injection Hr as <-. subst points.
      destruct (pointAt_ends a b inner) as [-> ->].
      right. exists a, b, inner, [].
      split; [reflexivity|]. split; [reflexivity|apply sublist_nil_l].
Qed.

Lemma keepsEnds_sublist (points r : list Point) :
  keepsEnds points r ->
  sublist r points /\ head r = head points /\ last r = last points.
Proof.
  intros [[_ ->]|(a & b & inner & kept & -> & -> & Hs)]; [auto|].
  split; [|split].
  - apply sublist_skip, sublist_app; [exact Hs|reflexivity].
  - reflexivity.
  - change (a :: kept ++ [b]) with ((a :: kept) ++ [b]).
    change (a :: inner ++ [b]) with ((a :: inner) ++ [b]).
    now rewrite !last_snoc.
Qed.

(** X2: with a tolerance that is not negative the simplification returns, and
    what it returns is a sub-sequence of the path with the same first and the
    same last point. *)
Theorem douglasPeucker_subsequence
    (tolerance : R) (fuel : nat) (points : list Point) :
  0 <= tolerance ->
  (length points < fuel)%nat ->
  exists r,
    douglasPeucker fuel points tolerance = Some r
    /\ sublist r points
    /\ head r = head points
    /\ last r = last points
    /\ (length r <= length points)%nat.
Proof.
  intros Htol Hfuel.
  destruct (douglasPeucker_terminates tolerance Htol fuel points Hfuel) as (r & Hr).
  exists r. split; [exact Hr|].
  destruct (keepsEnds_sublist points r
              (douglasPeucker_keepsEnds tolerance Htol fuel points r Hr))
    as (Hs & Hh & Hl).
  repeat split; try assumption. now apply sublist_length.
Qed.

Lemma douglasPeucker_subsequence_witness :
  exists r,
    douglasPeucker 4 flatPath 1 = Some r
    /\ sublist r flatPath
    /\ head r = head flatPath
    /\ last r = last flatPath
    /\ (length r <= length flatPath)%nat.
Proof.
  apply (douglasPeucker_subsequence 1 4 flatPath); [lra|cbn; lia].
Defined.

Lemma pointToLineDistance_at_start (a b : Point) : pointToLineDistance a a b = 0.
Proof.
  replace a with (between a b 0) at 1
    by (unfold between; destruct a; cbn [fst snd]; f_equal; ring).
  apply pointToLineDistance_between. lra.
Qed.

(** X3: with a negative tolerance [douglasPeucker] never drops a point:
    whatever it returns is the path it was given, and a path of at most two
    points is returned at once.  On a path of more than two points whose
    interior points all coincide with its first point it is never answered:
    every distance is 0, the recursion calls itself on the whole path again,
    whatever the depth allowed. *)
Theorem douglasPeucker_negative_tolerance (tolerance : R) :
  tolerance < 0 ->
  (forall (fuel : nat) (points r : list Point),
      douglasPeucker fuel points tolerance = Some r -> r = points)
  /\ (forall (fuel : nat) (points : list Point),
         (length points <= 2)%nat ->
         douglasPeucker (S fuel) points tolerance = Some points)
  /\ (forall points : list Point,
         (2 < length points)%nat ->
         (forall i, (1 <= i < length points - 1)%nat ->
                    pointAt points i = pointAt points 0) ->
         forall fuel : nat, douglasPeucker fuel points tolerance = None).
Proof.
  intros Htol.
  assert (Hshort : forall (fuel : nat) (points : list Point),
             (length points <= 2)%nat ->
             douglasPeucker (S fuel) points tolerance = Some points).
  { intros fuel points Hlen. cbn [douglasPeucker].
    replace (length points <=? 2)%nat with true
      by (symmetry; apply Nat.leb_le; exact Hlen).
    reflexivity. }
  split; [|split; [exact Hshort|]].
  - induction fuel as [|fuel IH]; intros points r Hr; [discriminate|].
    destruct (Nat.le_gt_cases (length points) 2) as [Hlen|Hlen].
    + rewrite Hshort in Hr by exact Hlen. congruence.
    + rewrite douglasPeucker_step in Hr by exact Hlen. cbv zeta in Hr.
      pose proof (dpScan_spec points (length points - 1)) as H.
      destruct (dpScan points (length points - 1)) as [m k].
      destruct H as (Hm & _ & Hk).
      assert (Hkl : (k < length points)%nat)
        by (destruct Hk as [[_ ->]|(Hk & _)]; lia).
      unfold Rgtb in Hr.
      replace (Rltb tolerance m) with true in Hr
        by (symmetry; apply Rltb_true_iff; lra).
      destruct (douglasPeucker fuel (firstn (k + 1) points) tolerance)
        as [left_|] eqn:Hl; [|discriminate].
      destruct (douglasPeucker fuel (skipn k points) tolerance)
        as [right_|] eqn:Hr'; [|discriminate].
      apply IH in Hl. apply IH in Hr'. subst left_ right_.
      injection Hr as <-.
      rewrite Nat.add_1_r, removelast_firstn by exact Hkl.
      apply firstn_skipn.
  - intros points Hlen Hsame.
    induction fuel as [|fuel IH]; [reflexivity|].
    rewrite douglasPeucker_step by exact Hlen. cbv zeta.
    pose proof (dpScan_spec points (length points - 1)) as H.
    destruct (dpScan points (length points - 1)) as [m k].
    destruct H as (_ & _ & [[-> ->]|(Hk & Hd & Hp)]).
    + unfold Rgtb.
      replace (Rltb tolerance 0) with true by (symmetry; apply Rltb_true_iff; lra).
      change (skipn 0 points) with points. rewrite IH.
      now destruct (douglasPeucker fuel (firstn (0 + 1) points) tolerance).
    + unfold deviation in Hd. rewrite Hsame in Hd by exact Hk.
      rewrite pointToLineDistance_at_start in Hd. lra.
Qed.

Lemma douglasPeucker_negative_tolerance_witness :
  douglasPeucker 1000 stalledPath (-1) = None
  /\ douglasPeucker 1 [(0, 0); (3, 4)] (-1) = Some [(0, 0); (3, 4)].
Proof.
  destruct (douglasPeucker_negative_tolerance (-1) ltac:(lra)) as (_ & H2 & H3).
  split.
  - apply (H3 stalledPath).
    + cbn. lia.
    + intros i Hi. cbn [length stalledPath] in Hi.
      assert (i = 1%nat) as -> by lia. reflexivity.
  - apply (H2 0%nat). cbn. lia.
Defined.

(** ** Edge pixels *)

Lemma maskAt_coloredMask (img : ImageData) (x y : nat) :
  (x < width img)%nat -> (y < height img)%nat ->
  maskAt (coloredMask img) y x = alphaAtLeast10 (pixelAlpha img x y).
Proof.
  intros Hx Hy. unfold maskAt, coloredMask.
  change (map ?f ?l) with (f <$> l).
  rewrite list_lookup_fmap, lookup_seq_lt by exact Hy. cbn [fmap option_fmap option_map].
  change (map ?f ?l) with (f <$> l).
  rewrite list_lookup_fmap, lookup_seq_lt by exact Hx. reflexivity.
Qed.

Lemma isEdgePixel_spec (img : ImageData) (x y : nat) :
  (x < width img)%nat -> (y < height img)%nat ->
  isEdgePixel (coloredMask img) (width img) (height img) x y = true
  <-> isEdgeOf img x y.
Proof.
  intros Hx Hy. unfold isEdgePixel, isEdgeOf, isColoredPixel.
  rewrite maskAt_coloredMask by assumption.
  destruct (alphaAtLeast10 (pixelAlpha img x y)) eqn:Ha; cbn [negb].
  2:{ split; [discriminate|]. intros [(_ & _ & H) _]. discriminate. }
  destruct ((x =? 0)%nat || (x =? width img - 1)%nat
            || (y =? 0)%nat || (y =? height img - 1)%nat) eqn:Eb.
  - split; [|reflexivity]. intros _. split; [auto|].
    rewrite !orb_true_iff, !Nat.eqb_eq in Eb. tauto.
  - rewrite !orb_false_iff, !Nat.eqb_neq in Eb.
    destruct Eb as [[[Hx0 Hxw] Hy0] Hyh].
    assert (Hin : forall nx ny, In (nx, ny) (neighbours4 x y) ->
                    (nx < width img)%nat /\ (ny < height img)%nat).
    { intros nx ny Hin. unfold neighbours4 in Hin. cbn [In] in Hin.
      destruct Hin as [H|[H|[H|[H|[]]]]]; injection H as <- <-; lia. }
    fold (neighbours4 x y). rewrite existsb_exists. split.
    + intros ([nx ny] & Hn & Hm). split; [auto|].
      do 4 right. exists nx, ny. split; [exact Hn|].
      destruct (Hin nx ny Hn). rewrite maskAt_coloredMask in Hm by assumption.
      now apply negb_true_iff.
    + intros [_ [H|[H|[H|[H|(nx & ny & Hn & Hm)]]]]]; try contradiction.
      exists (nx, ny). split; [exact Hn|].
      destruct (Hin nx ny Hn). rewrite maskAt_coloredMask by assumption.
      now apply negb_true_iff.
Qed.

Lemma edgePixels_spec_aux (img : ImageData) (x y : nat) :
  isEdgeOf img x y -> In (INR x, INR y) (edgePixels img).
Proof.
  intros He. pose proof He as [(Hx & Hy & _) _].
  unfold edgePixels. cbv zeta. apply in_flat_map.
  exists y. split; [apply in_seq; lia|].
  apply in_flat_map. exists x. split; [apply in_seq; lia|].
  apply isEdgePixel_spec in He; [|assumption|assumption].
  rewrite He. now left.
Qed.

Lemma edgePixels_in_edge (img : ImageData) (p : Point) :
  In p (edgePixels img) ->
  exists x y : nat, p = (INR x, INR y) /\ isEdgeOf img x y.
Proof.
  unfold edgePixels. cbv zeta. rewrite in_flat_map.
  intros (y & Hy & Hp). apply in_flat_map in Hp as (x & Hx & Hp).
  apply in_seq in Hy, Hx.
  destruct (isEdgePixel (coloredMask img) (width img) (height img) x y) eqn:E;
    [|contradiction].
  destruct Hp as [<-|[]]. exists x, y. split; [reflexivity|].
  apply isEdgePixel_spec; [lia|lia|exact E].
Qed.

(** X4: the edge pixels found by the scan are exactly the colored pixels
    that lie on the image border or have an orthogonal neighbour that is not
    colored. *)
Theorem edgePixels_spec (img : ImageData) (p : Point) :
  In p (edgePixels img)
  <-> exists x y : nat, p = (INR x, INR y) /\ isEdgeOf img x y.
Proof.
  split.
  - apply edgePixels_in_edge.
  - intros (x & y & -> & He). now apply edgePixels_spec_aux.
Qed.

(** An image with a colored pixel has an edge pixel: the leftmost colored
    pixel of the scan is one. *)
Lemma colored_has_edge (img : ImageData) :
  (exists x y, isColoredPixel img x y) -> edgePixels img <> [].
Proof.
  intros Hc. apply scanImage_found in Hc.
  destruct (scanImage_tight img Hc) as (Hall & (y & Hmin) & _).
  set (x := sc_minX (scanImage img)) in *.
  assert (He : isEdgeOf img x y).
  { split; [exact Hmin|].
    destruct (Nat.eq_dec x 0%nat) as [H0|H0]; [now left|].
    do 4 right. exists (x - 1)%nat, y. split.
    - unfold neighbours4. cbn [In]. do 3 right. now left.
    - destruct (alphaAtLeast10 (pixelAlpha img (x - 1) y)) eqn:Ha; [|reflexivity].
      destruct Hmin as (Hx & Hy & _).
      destruct (Hall (x - 1)%nat y) as [? _]; [repeat split; [lia|exact Hy|exact Ha]|].
      lia. }
  intros Hnil.
  assert (Hin : In (INR x, INR y) (edgePixels img))
    by (apply edgePixels_spec_aux; exact He).
  rewrite Hnil in Hin. contradiction.
Qed.

(** ** Thinning and stitching *)

Lemma ForallOrdPairs_snoc {A : Type} (R : A -> A -> Prop) (l : list A) (x : A) :
  ForallOrdPairs R l -> Forall (fun a => R a x) l -> ForallOrdPairs R (l ++ [x]).
Proof.
  induction 1 as [|a l Ha Hl IH]; intros Hx; cbn [app].
  - constructor; constructor.
  - inversion Hx as [|? ? Hax Hlx]; subst. constructor.
    + apply Forall_app. split; [exact Ha|]. now constructor.
    + now apply IH.
Qed.

(** What the thinning loop keeps from the points seen so far. *)
Lemma thinStep_fold (threshold : R) (edge : list Point) :
  forall (seen simplified : list Point),
    sublist simplified seen ->
    ForallOrdPairs (fun s p => threshold <= pixelDistance p s) simplified ->
    (forall e, In e seen ->
               In e simplified
               \/ exists s, In s simplified /\ pixelDistance e s < threshold) ->
    let result := fold_left (thinStep threshold) edge simplified in
    sublist result (seen ++ edge)
    /\ ForallOrdPairs (fun s p => threshold <= pixelDistance p s) result
    /\ (forall e, In e (seen ++ edge) ->
                  In e result
                  \/ exists s, In s result /\ pixelDistance e s < threshold).
Proof.
  induction edge as [|p edge IH]; intros seen simplified Hsub Hsep Hcov.
  - cbn [fold_left]. rewrite app_nil_r. auto.
  - cbn [fold_left].
    replace (seen ++ p :: edge) with ((seen ++ [p]) ++ edge)
      by (rewrite <- app_assoc; reflexivity).
    apply IH; unfold thinStep;
      destruct (existsb (fun s => Rltb (pixelDistance p s) threshold) simplified) eqn:E;
      cbn [negb].
    + now apply sublist_inserts_r.
    + apply sublist_app; [exact Hsub|reflexivity].
    + exact Hsep.
    + apply ForallOrdPairs_snoc; [exact Hsep|].
      apply List.Forall_forall. intros s Hs.
      destruct (Rle_dec threshold (pixelDistance p s)) as [Hle|Hnle]; [exact Hle|].
      assert (Ht : existsb (fun s => Rltb (pixelDistance p s) threshold) simplified = true).
      { apply existsb_exists. exists s. split; [exact Hs|].
        apply Rltb_true_iff. lra. }
      congruence.
    + intros e He. apply in_app_or in He as [He|[<-|[]]]; [now apply Hcov|].
      right. apply existsb_exists in E as (s & Hs & Hd).
      exists s. split; [exact Hs|]. now apply Rltb_true_iff.
    + intros e He. apply in_app_or in He as [He|[<-|[]]].
      * destruct (Hcov e He) as [Hin|(s & Hs & Hd)].
        -- left. apply in_or_app. now left.
        -- right. exists s. split; [apply in_or_app; now left|exact Hd].
      * left. apply in_or_app. right. now left.
Qed.

(** X5: the thinning keeps a sub-sequence of the edge points that starts
    with the first one; any two kept points are at least 2 pixels apart, and
    every edge point is kept or lies closer than 2 pixels to a kept point. *)
Theorem thinPoints_spec (edge : list Point) :
  sublist (thinPoints edge) edge
  /\ head (thinPoints edge) = head edge
  /\ ForallOrdPairs (fun s p => 2 <= pixelDistance p s) (thinPoints edge)
  /\ (forall e, In e edge ->
                In e (thinPoints edge)
                \/ exists s, In s (thinPoints edge) /\ pixelDistance e s < 2).
Proof.
  unfold thinPoints.
  destruct (thinStep_fold 2 edge [] []) as (Hsub & Hsep & Hcov).
  - constructor.
  - constructor.
  - intros e [].
  - cbv zeta in Hsub, Hsep, Hcov. cbn [app] in Hsub, Hcov.
    split; [exact Hsub|]. split; [|split; assumption].
    destruct edge as [|p edge]; [reflexivity|]. cbn [fold_left head].
    change (thinStep 2 [] p) with [p].
    assert (H : forall l acc q, head acc = Some q ->
                  head (fold_left (thinStep 2) l acc) = Some q).
    { induction l as [|e l IH]; intros acc q Hq; [exact Hq|].
      cbn [fold_left]. apply IH. unfold thinStep.
      destruct (negb _); [|exact Hq].
      destruct acc; [discriminate|exact Hq]. }
    now apply H.
Qed.

(** The stitching loop moves every point of [remaining] to the path. *)
Lemma stitchLoop_Permutation (n : nat) :
  forall (current : Point) (path remaining : list Point),
    (length remaining <= n)%nat ->
    fst (stitchLoop n current path remaining) ≡ₚ path ++ remaining.
Proof.
  induction n as [|n IH]; intros current path remaining Hlen.
  - destruct remaining; [|cbn in Hlen; lia]. cbn [stitchLoop fst].
    now rewrite app_nil_r.
  - cbn [stitchLoop]. destruct remaining as [|first rest].
    + cbn [fst]. now rewrite app_nil_r.
    + pose proof (findNearest_index current (first :: rest)) as Hidx.
      destruct (findNearest current (first :: rest)) as [d k]. cbn [snd] in Hidx.
      specialize (Hidx ltac:(discriminate)).
      cbn [length] in Hlen.
      destruct (gtInfinity d 50 && (10 <? length path)%nat).
      * rewrite IH by lia. rewrite <- app_assoc. reflexivity.
      * destruct (lookup_lt_is_Some_2 (first :: rest) k Hidx) as [next Hnext].
        assert (Hp : pointAt (first :: rest) k = next).
        { unfold pointAt. now apply nth_lookup_Some with (d := (0, 0)) in Hnext. }
        rewrite Hp.
        rewrite IH.
        -- rewrite <- app_assoc. cbn [app].
           now rewrite <- (delete_Permutation (first :: rest) k next Hnext).
        -- rewrite length_delete by (apply lookup_lt_is_Some; exact Hidx).
           cbn [length]. lia.
Qed.

(** X6: the stitched path starts with the first thinned point and visits
    every thinned point exactly once. *)
Theorem stitchedPath_Permutation (simplified : list Point) :
  (simplified = [] -> stitchedPath simplified = None)
  /\ (forall path, stitchedPath simplified = Some path ->
                   path ≡ₚ simplified /\ head path = head simplified).
Proof.
  split; [now intros ->|].
  intros path. unfold stitchedPath.
  destruct simplified as [|current remaining]; [discriminate|].
  intros [= <-]. split.
  - now rewrite stitchLoop_Permutation by lia.
  - destruct (stitchLoop_spec (length remaining) current [current] remaining)
      as [(added & ->) _].
    reflexivity.
Qed.

Lemma stitchedPath_Permutation_witness :
  stitchedPath [] = None
  /\ [(0, 0)] ≡ₚ [(0, 0)] /\ head [(0, 0)] = head [(0, 0)].
Proof.
  split.
  - now apply (proj1 (stitchedPath_Permutation [])).
  - apply (proj2 (stitchedPath_Permutation [(0, 0)]) [(0, 0)]). reflexivity.
Defined.

(** Every vertex of a perimeter is an edge pixel of the image. *)
Lemma detectColorPerimeter_edge_path (img : ImageData) (path : list Point) :
  detectColorPerimeter (Ok img) = Some path ->
  (forall p, In p path -> exists x y : nat, p = (INR x, INR y) /\ isEdgeOf img x y)
  /\ (0 < length path <= length (edgePixels img))%nat.
Proof.
  intros Hpath. rewrite detectColorPerimeter_Ok in Hpath.
  destruct (length (edgePixels img) =? 0)%nat; [discriminate|].
  destruct (stitchedPath (thinPoints (edgePixels img))) as [stitched|] eqn:Hs;
    [|discriminate].
  pose proof Hs as Hperm. pose proof (stitchedPath_length _ _ Hs) as Hlen.
  unfold stitchedPath in Hperm.
  destruct (thinPoints (edgePixels img)) as [|current remaining] eqn:Ht;
    [discriminate|].
  injection Hperm as Hperm.
  assert (Hst : stitched ≡ₚ current :: remaining).
  { rewrite <- Hperm. now rewrite stitchLoop_Permutation by lia. }
  destruct (thinStep_fold 2 (edgePixels img) [] []) as (Hsub & _ & _);
    [constructor|constructor|intros e []|].
  cbv zeta in Hsub. cbn [app] in Hsub. fold (thinPoints (edgePixels img)) in Hsub.
  rewrite Ht in Hsub.
  assert (Hin : forall p, In p stitched ->
                 exists x y : nat, p = (INR x, INR y) /\ isEdgeOf img x y).
  { intros p Hp. apply edgePixels_in_edge.
    apply list_elem_of_In. eapply elem_of_sublist; [|exact Hsub].
    rewrite <- Hst. now apply list_elem_of_In. }
  assert (Hle : (length stitched <= length (edgePixels img))%nat).
  { rewrite Hlen. now apply sublist_length. }
  destruct (500 <? length stitched)%nat eqn:L.
  + apply Nat.ltb_lt in L.
    pose proof (douglasPeucker_keepsEnds 1 ltac:(lra) _ _ _ Hpath) as Hk.
    apply keepsEnds_sublist in Hk as (Hsub' & _ & _).
    destruct (douglasPeucker_length 1 ltac:(lra) _ _ _ Hpath) as [H2 _].
    split.
    * intros p Hp. apply Hin. apply list_elem_of_In.
      eapply elem_of_sublist; [|exact Hsub']. now apply list_elem_of_In.
    * apply sublist_length in Hsub'. lia.
  + injection Hpath as <-. split; [exact Hin|].
    rewrite Hlen. cbn [length]. cbn [length] in Hlen. lia.
Qed.

(** X7: the perimeter scan finds no perimeter exactly when the content scan
    finds no content, and every vertex of a perimeter it returns is an edge
    pixel of the image; there are no more vertices than edge pixels. *)
Theorem detectColorPerimeter_vertices (canvasRead : result ImageData) :
  (detectColorPerimeter canvasRead = None
   <-> detectImageContentBounds canvasRead = None)
  /\ (forall img path,
         canvasRead = Ok img ->
         detectColorPerimeter canvasRead = Some path ->
         (forall p, In p path ->
                    exists x y : nat, p = (INR x, INR y) /\ isEdgeOf img x y)
         /\ (0 < length path <= length (edgePixels img))%nat).
Proof.
  split.
  - destruct canvasRead as [img|]; [|split; reflexivity].
    rewrite detectImageContentBounds_Ok. cbv zeta.
    split.
    + intros Hn. destruct (foundColoredPixel (scanImage img)) eqn:F; [|reflexivity].
      apply scanImage_found, colored_has_edge in F.
      destruct (detectColorPerimeter_nonempty img F) as (p & path & Hp). congruence.
    + destruct (foundColoredPixel (scanImage img)) eqn:F; [discriminate|]. intros _.
      rewrite detectColorPerimeter_Ok.
      destruct (edgePixels img) as [|e edge] eqn:E; [reflexivity|].
      assert (Hin : In e (edgePixels img)) by (rewrite E; now left).
      apply edgePixels_in_edge in Hin as (x & y & _ & (Hc & _)).
      assert (Hf : foundColoredPixel (scanImage img) = true)
        by (apply scanImage_found; eauto).
      congruence.
  - intros img path -> Hpath. now apply detectColorPerimeter_edge_path.
Qed.

Lemma detectColorPerimeter_vertices_witness :
  (forall p, In p [(0, 0)] ->
             exists x y : nat, p = (INR x, INR y) /\ isEdgeOf onePixelRaster x y)
  /\ (0 < length [(0, 0)] <= length (edgePixels onePixelRaster))%nat.
Proof.
  apply (proj2 (detectColorPerimeter_vertices (Ok onePixelRaster))
               onePixelRaster [(0, 0)]); reflexivity.
Defined.

(** ** More on the point queries *)

Lemma find_none_iff {A : Type} (f : A -> bool) (l : list A) :
  find f l = None <-> forall x, In x l -> f x = false.
Proof.
  induction l as [|a l IH]; cbn [find].
  - split; [intros _ x []|reflexivity].
  - destruct (f a) eqn:E.
    + split; [discriminate|]. intros H. specialize (H a (or_introl eq_refl)). congruence.
    + rewrite IH. split.
      * intros H x [<-|Hx]; auto.
      * intros H x Hx. apply H. now right.
Qed.

(** X8: the coarse query answers [null] exactly when no loaded zone contains
    the point; in either mode a returned zone is a loaded zone whose bounds
    contain the point, so the pixel-accurate query answers [null] whenever
    the coarse one does. *)
Theorem getZoneAtPoint_sound (this : FloodZoneManager) (lat lng : R) :
  (getZoneAtPoint this lat lng false = None
   <-> forall z, In z (zones this) ->
                 isPointInBounds (lat, lng) (Zone.bounds z) = false)
  /\ (forall checkPixels z,
         getZoneAtPoint this lat lng checkPixels = Some z ->
         In z (zones this) /\ isPointInBounds (lat, lng) (Zone.bounds z) = true)
  /\ (forall checkPixels,
         getZoneAtPoint this lat lng false = None ->
         getZoneAtPoint this lat lng checkPixels = None).
Proof.
  assert (Hsound : forall checkPixels z,
             getZoneAtPoint this lat lng checkPixels = Some z ->
             In z (zones this) /\ isPointInBounds (lat, lng) (Zone.bounds z) = true).
  { intros checkPixels z H. unfold getZoneAtPoint in H.
    apply getZoneAtPoint_loop_in_bounds in H as [Hin Hb].
    split; [exact (proj2 (in_rev _ _) Hin)|exact Hb]. }
  assert (Hnone : getZoneAtPoint this lat lng false = None
                  <-> forall z, In z (zones this) ->
                        isPointInBounds (lat, lng) (Zone.bounds z) = false).
  { unfold getZoneAtPoint. rewrite getZoneAtPoint_loop_coarse, find_none_iff.
    split; intros H z Hz; apply H;
      [exact (proj1 (in_rev _ _) Hz)|exact (proj2 (in_rev _ _) Hz)]. }
  split; [exact Hnone|]. split; [exact Hsound|].
  intros checkPixels Hn.
  destruct (getZoneAtPoint this lat lng checkPixels) as [z|] eqn:E; [|reflexivity].
  destruct (Hsound _ _ E) as [Hin Hb].
  rewrite (proj1 Hnone Hn z Hin) in Hb. discriminate.
Qed.

Lemma getZoneAtPoint_sound_witness :
  (In zoneA (zones (newManager [zoneA; zoneB]))
   /\ isPointInBounds (2, 2) (Zone.bounds zoneA) = true)
  /\ getZoneAtPoint (newManager [zoneA; zoneB]) 20 20 true = None.
Proof.
  split.
  - apply (proj1 (proj2 (getZoneAtPoint_sound (newManager [zoneA; zoneB]) 2 2)) true).
    unfold getZoneAtPoint. cbn [zones newManager rev app getZoneAtPoint_loop].
    rewrite zoneB_misses_2_2, zoneA_contains_2_2. reflexivity.
  - apply (proj2 (proj2 (getZoneAtPoint_sound (newManager [zoneA; zoneB]) 20 20)) true).
    unfold getZoneAtPoint. cbn [zones newManager rev app getZoneAtPoint_loop].
    replace (isPointInBounds (20, 20) (Zone.bounds zoneB)) with false.
    + replace (isPointInBounds (20, 20) (Zone.bounds zoneA)) with false; [reflexivity|].
      symmetry. apply not_true_is_false. intros H.
      apply isPointInBounds_spec in H. lra.
    + symmetry. apply not_true_is_false. intros H.
      apply isPointInBounds_spec in H. lra.
Defined.

(** ** Zone border *)

Lemma closeRing_idempotent_aux (first : LatLng) (rest : list LatLng) :
  closeRing (closeRing (first :: rest)) = closeRing (first :: rest).
Proof.
  destruct (closeRing_spec first rest) as (Hlast & _ & _). cbv zeta in Hlast.
  destruct (closeRing (first :: rest)) as [|f r] eqn:C.
  - reflexivity.
  - assert (Hf : f = first).
    { unfold closeRing in C. destruct (_ || _) in C; now injection C. }
    subst f. destruct (closeRing_spec first r) as (_ & Hsame & _).
    now apply Hsame.
Qed.

(** X9: [drawZoneBorder] draws nothing when the map is missing or the zone
    has no vertex; otherwise the ring it draws starts with the stored
    perimeter, has at most one vertex more, ends where it starts, and closing
    it again changes nothing. *)
Theorem drawZoneBorder_ring (mapAvailable : bool) (zone : Zone.t) :
  (drawZoneBorder mapAvailable zone = None
   <-> mapAvailable = false \/ Zone.perimeter zone = None
       \/ Zone.perimeter zone = Some [])
  /\ (forall ring,
         drawZoneBorder mapAvailable zone = Some ring ->
         exists first rest,
           Zone.perimeter zone = Some (first :: rest)
           /\ (ring = first :: rest \/ ring = (first :: rest) ++ [first])
           /\ List.last ring first = first
           /\ closeRing ring = ring).
Proof.
  unfold drawZoneBorder. split.
  - destruct mapAvailable; cbn [negb]; [|tauto].
    destruct (Zone.perimeter zone) as [[|first rest]|]; cbn [length Nat.ltb Nat.leb].
    + tauto.
    + split; [discriminate|]. intros [H|[H|H]]; discriminate.
    + tauto.
  - intros ring. destruct mapAvailable; cbn [negb]; [|discriminate].
    destruct (Zone.perimeter zone) as [[|first rest]|]; cbn [length Nat.ltb Nat.leb];
      try discriminate.
    intros [= <-]. exists first, rest. split; [reflexivity|].
    destruct (closeRing_spec first rest) as (Hlast & Hsame & Hpush).
    cbv zeta in Hlast, Hsame, Hpush.
    split; [|split; [exact Hlast|apply closeRing_idempotent_aux]].
    destruct (Req_dec_T (fst (List.last (first :: rest) first)) (fst first)) as [E1|E1];
      [destruct (Req_dec_T (snd (List.last (first :: rest) first)) (snd first))
         as [E2|E2]|].
    + left. apply Hsame. destruct (List.last (first :: rest) first), first.
      cbn [fst snd] in *. congruence.
    + right. apply Hpush. congruence.
    + right. apply Hpush. congruence.
Qed.

Lemma drawZoneBorder_ring_witness :
  exists first rest,
    Some [(0, 0); (1, 1)] = Some (first :: rest)
    /\ ([(0, 0); (1, 1); (0, 0)] = first :: rest
        \/ [(0, 0); (1, 1); (0, 0)] = (first :: rest) ++ [first])
    /\ List.last [(0, 0); (1, 1); (0, 0)] first = first
    /\ closeRing [(0, 0); (1, 1); (0, 0)] = [(0, 0); (1, 1); (0, 0)].
Proof.
  apply (proj2 (drawZoneBorder_ring true zoneWithPerimeter) [(0, 0); (1, 1); (0, 0)]).
  unfold drawZoneBorder, zoneWithPerimeter. cbn [negb Zone.perimeter length Nat.ltb Nat.leb].
  f_equal. unfold closeRing. cbn [List.last fst snd].
  replace (Reqb 0 1) with false by (symmetry; apply Reqb_false_iff; lra).
  reflexivity.
Defined.

(** ** Adjusted bounds *)

(** The content rectangle of a detection lies within the unit square. *)
Lemma detectImageContentBounds_unit (canvasRead : result ImageData) (cb : ContentBounds) :
  detectImageContentBounds canvasRead = Some cb ->
  0 <= minX cb <= maxX cb /\ maxX cb <= 1 /\ 0 <= minY cb <= maxY cb /\ maxY cb <= 1.
Proof.
  destruct canvasRead as [img|]; [|discriminate].
  rewrite detectImageContentBounds_Ok. cbv zeta.
  destruct (foundColoredPixel (scanImage img)) eqn:F; [|discriminate].
  intros [= <-]. cbn [minX minY maxX maxY].
  destruct (scanImage_range img F) as [HX HY]. cbv zeta in HX, HY.
  assert (Hnorm : forall a b w : nat, (a <= b < w)%nat ->
            0 <= INR a / INR w <= INR (b + 1) / INR w /\ INR (b + 1) / INR w <= 1).
  { intros a b w Hab.
    assert (Hw : 0 < INR w) by (apply lt_0_INR; lia).
    assert (Ha : 0 <= INR a) by apply pos_INR.
    assert (Hlt : INR a <= INR (b + 1)) by (apply le_INR; lia).
    assert (Hle : INR (b + 1) <= INR w) by (apply le_INR; lia).
    assert (Hi : 0 < / INR w) by now apply Rinv_0_lt_compat.
    assert (Hr : INR w * / INR w = 1) by (apply Rinv_r; lra).
    unfold Rdiv. repeat split; nra. }
  destruct (Hnorm _ _ _ HX) as [HX1 HX2]. destruct (Hnorm _ _ _ HY) as [HY1 HY2].
  tauto.
Qed.

(** X10: inside non-degenerate bounds, the adjusted bounds contain exactly
    the points whose normalised position falls in the content rectangle, which
    is the test of the pixel check; with no content bounds the bounds are
    returned as they are, and for the rectangle of a detection the adjusted
    bounds lie within the original ones. *)
Theorem adjustOverlayBoundsToContent_normalized
    (cb : ContentBounds) (south west north east : R) :
  south < north -> west < east ->
  let b := ((south, west), (north, east)) in
  adjustOverlayBoundsToContent None b = b
  /\ (forall lat lng,
         isPointInBounds (lat, lng) (adjustOverlayBoundsToContent (Some cb) b) = true
         <-> let '(normX, normY) := normalizedPosition (lat, lng) b in
             minX cb <= normX <= maxX cb /\ minY cb <= normY <= maxY cb)
  /\ (forall canvasRead lat lng,
         detectImageContentBounds canvasRead = Some cb ->
         isPointInBounds (lat, lng) (adjustOverlayBoundsToContent (Some cb) b) = true ->
         isPointInBounds (lat, lng) b = true).
Proof.
  intros Hsn Hwe b.
  assert (Hiff : forall lat lng,
             isPointInBounds (lat, lng) (adjustOverlayBoundsToContent (Some cb) b) = true
             <-> (minX cb <= (lng - west) / (east - west) <= maxX cb
                  /\ minY cb <= (north - lat) / (north - south) <= maxY cb)).
  { intros lat lng. unfold b. cbn [adjustOverlayBoundsToContent].
    rewrite isPointInBounds_spec.
    set (nx := (lng - west) / (east - west)).
    set (ny := (north - lat) / (north - south)).
    assert (Hlng : lng = west + (east - west) * nx) by (unfold nx; field; lra).
    assert (Hlat : lat = north - (north - south) * ny) by (unfold ny; field; lra).
    rewrite Hlng at 1 2. rewrite Hlat at 1 2.
    split; intros H; repeat split; nra. }
  split; [reflexivity|]. split.
  - intros lat lng. unfold normalizedPosition, b. apply Hiff.
  - intros canvasRead lat lng Hd Hin. apply Hiff in Hin.
    apply detectImageContentBounds_unit in Hd.
    unfold b. apply isPointInBounds_spec.
    set (nx := (lng - west) / (east - west)) in *.
    set (ny := (north - lat) / (north - south)) in *.
    assert (Hlng : lng = west + (east - west) * nx) by (unfold nx; field; lra).
    assert (Hlat : lat = north - (north - south) * ny) by (unfold ny; field; lra).
    rewrite Hlng, Hlat. repeat split; nra.
Qed.

Lemma adjustOverlayBoundsToContent_normalized_witness :
  let cb := {| minX := INR 1 / INR 2; minY := INR 0 / INR 2;
               maxX := INR (1 + 1) / INR 2; maxY := INR (0 + 1) / INR 2;
               imgWidth := 2; imgHeight := 2 |} in
  let b := ((0, 0), (10, 10)) in
  adjustOverlayBoundsToContent None b = b
  /\ isPointInBounds (8, 8) (adjustOverlayBoundsToContent (Some cb) b) = true
  /\ isPointInBounds (8, 8) b = true.
Proof.
  intros cb b.
  destruct (adjustOverlayBoundsToContent_normalized cb 0 0 10 10) as (H1 & H2 & H3);
    [lra|lra|].
  assert (Hin : isPointInBounds (8, 8) (adjustOverlayBoundsToContent (Some cb) b) = true).
  { apply H2. unfold normalizedPosition, cb. cbn [minX minY maxX maxY INR Nat.add].
    lra. }
  split; [exact H1|]. split; [exact Hin|].
  apply (H3 (Ok dotRaster) 8 8); [|exact Hin].
  rewrite detectImageContentBounds_Ok, scanImage_dotRaster. reflexivity.
Defined.

(** ** Composition of the previews *)

Lemma with_overlays_twice (this : FloodZoneManager) (m1 m2 : gmap Z Overlay) :
  with_overlays (with_overlays this m1) m2 = with_overlays this m2.
Proof. reflexivity. Qed.

(** X11: previews do not accumulate.  A second scale preview of a zone
    replaces the first, a second rotation preview replaces the first, and a
    scale preview and a rotation preview give the same state in either
    order. *)
Theorem previews_compose (this : FloodZoneManager) (zoneId zoneId' : Z) (f1 f2 d1 d2 : R) :
  applyScaleToZone (applyScaleToZone this zoneId f1) zoneId f2
  = applyScaleToZone this zoneId f2
  /\ applyRotationToZone (applyRotationToZone this zoneId d1) zoneId d2
     = applyRotationToZone this zoneId d2
  /\ applyScaleToZone (applyRotationToZone this zoneId d1) zoneId' f1
     = applyRotationToZone (applyScaleToZone this zoneId' f1) zoneId d1.
Proof.
  split; [|split].
  - unfold applyScaleToZone at 2.
    destruct (overlays this !! zoneId) as [ov|] eqn:Ho;
      [destruct (anchors this !! zoneId) as [c|] eqn:Ha;
       [destruct (baseZoneSizes this !! zoneId) as [b|] eqn:Hb|]|];
      try reflexivity.
    unfold applyScaleToZone. cbn [overlays anchors baseZoneSizes with_overlays].
    rewrite lookup_insert_eq, Ha, Hb, Ho. rewrite with_overlays_twice.
    now rewrite insert_insert_eq.
  - unfold applyRotationToZone at 2.
    destruct (overlays this !! zoneId) as [ov|] eqn:Ho; [|reflexivity].
    destruct (ov_element ov) as [el|] eqn:He; [|reflexivity].
    unfold applyRotationToZone. cbn [overlays with_overlays].
    rewrite lookup_insert_eq, Ho, He. cbn [ov_element setElement].
    rewrite with_overlays_twice. now rewrite insert_insert_eq.
  - unfold applyRotationToZone at 1.
    destruct (overlays this !! zoneId) as [ov|] eqn:Ho.
    2:{ unfold applyScaleToZone.
        destruct (overlays this !! zoneId') as [ov'|] eqn:Ho';
          [destruct (anchors this !! zoneId') as [c|] eqn:Ha;
           [destruct (baseZoneSizes this !! zoneId') as [b|] eqn:Hb|]|];
          unfold applyRotationToZone; cbn [overlays with_overlays];
          try (now rewrite Ho).
        destruct (decide (zoneId' = zoneId)) as [->|Hne]; [congruence|].
        rewrite lookup_insert_ne by exact Hne. now rewrite Ho. }
    destruct (ov_element ov) as [el|] eqn:He.
    2:{ unfold applyScaleToZone.
        destruct (overlays this !! zoneId') as [ov'|] eqn:Ho';
          [destruct (anchors this !! zoneId') as [c|] eqn:Ha;
           [destruct (baseZoneSizes this !! zoneId') as [b|] eqn:Hb|]|];
          unfold applyRotationToZone; cbn [overlays with_overlays];
          try (now rewrite Ho, He).
        destruct (decide (zoneId' = zoneId)) as [->|Hne].
        - rewrite lookup_insert_eq. cbn [ov_element setBounds].
          assert (ov' = ov) by congruence. subst ov'. now rewrite He.
        - rewrite lookup_insert_ne by exact Hne. now rewrite Ho, He. }
    unfold applyScaleToZone. cbn [overlays anchors baseZoneSizes with_overlays].
    destruct (decide (zoneId' = zoneId)) as [->|Hne].
    + rewrite lookup_insert_eq, Ho.
      destruct (anchors this !! zoneId) as [c|] eqn:Ha;
        [destruct (baseZoneSizes this !! zoneId) as [b|] eqn:Hb|].
      * unfold applyRotationToZone. cbn [overlays with_overlays].
        rewrite lookup_insert_eq. cbn [ov_element setBounds]. rewrite He.
        rewrite !with_overlays_twice, !insert_insert_eq. reflexivity.
      * unfold applyRotationToZone. now rewrite Ho, He.
      * unfold applyRotationToZone. now rewrite Ho, He.
    + rewrite lookup_insert_ne by congruence.
      destruct (overlays this !! zoneId') as [ov'|] eqn:Ho';
        [destruct (anchors this !! zoneId') as [c|] eqn:Ha;
         [destruct (baseZoneSizes this !! zoneId') as [b|] eqn:Hb|]|];
        unfold applyRotationToZone; cbn [overlays with_overlays];
        try (now rewrite Ho, He).
      rewrite lookup_insert_ne by exact Hne. rewrite Ho, He.
      rewrite !with_overlays_twice. f_equal.
      apply insert_insert_ne. congruence.
Qed.

(** ** Failure of a commit *)

(** X12: a commit that cannot be carried out changes nothing: when the zone
    is unknown, the save button is missing, no anchor or no base size is
    stored, or the backend rejects the update, the manager is left as it was,
    the scale is not reset and the base size is not replaced. *)
Theorem saveZoneTransform_failure
    (page : Page) (updateSuccess : bool) (reload : option (list Zone.t))
    (this : FloodZoneManager) (zoneId : Z) :
  findZone (zones this) zoneId = None
  \/ saveBtn page = false
  \/ anchors this !! zoneId = None
  \/ baseZoneSizes this !! zoneId = None
  \/ updateSuccess = false ->
  saveZoneTransform page updateSuccess reload this zoneId = this.
Proof.
  unfold saveZoneTransform, findZone.
  destruct (find _ (zones this)) as [zone|]; [|reflexivity].
  destruct (saveBtn page); cbn [negb]; [|reflexivity].
  destruct (anchors this !! zoneId) as [c|]; [|reflexivity].
  destruct (baseZoneSizes this !! zoneId) as [b|]; [|reflexivity].
  intros [H|[H|[H|[H|H]]]]; try discriminate.
  subst updateSuccess. reflexivity.
Qed.

Lemma saveZoneTransform_failure_witness :
  saveZoneTransform pageReady false None managerScaled 1 = managerScaled
  /\ saveZoneTransform pageReady true None managerScaled 7 = managerScaled.
Proof.
  split.
  - apply saveZoneTransform_failure. do 4 right. reflexivity.
  - apply saveZoneTransform_failure. left. reflexivity.
Defined.

(** ** The local record after an update *)

Lemma replaceZone_ids (zs : list Zone.t) (zoneId : Z) (z' : Zone.t) :
  Zone.id z' = zoneId ->
  map Zone.id (replaceZone zs zoneId z') = map Zone.id zs.
Proof.
  intros Hid. induction zs as [|z zs IH]; [reflexivity|].
  cbn [replaceZone]. destruct (Zone.id z =? zoneId)%Z eqn:E.
  - cbn [map]. apply Z.eqb_eq in E. congruence.
  - cbn [map]. now rewrite IH.
Qed.

Lemma replaceZone_others (zs : list Zone.t) (zoneId : Z) (z' : Zone.t) (i : nat) (z : Zone.t) :
  zs !! i = Some z -> Zone.id z <> zoneId ->
  replaceZone zs zoneId z' !! i = Some z.
Proof.
  revert i. induction zs as [|a zs IH]; intros i Hi Hne; [discriminate|].
  cbn [replaceZone]. destruct (Zone.id a =? zoneId)%Z eqn:E.
  - destruct i as [|i]; [|exact Hi].
    injection Hi as ->. apply Z.eqb_eq in E. contradiction.
  - destruct i as [|i]; [exact Hi|]. cbn [lookup list_lookup] in *. now apply IH.
Qed.

Lemma replaceZone_absent (zs : list Zone.t) (zoneId : Z) (z' : Zone.t) :
  findZone zs zoneId = None -> replaceZone zs zoneId z' = zs.
Proof.
  unfold findZone. induction zs as [|a zs IH]; [reflexivity|].
  cbn [find replaceZone]. destruct (Zone.id a =? zoneId)%Z; [discriminate|].
  intros H. now rewrite IH.
Qed.

(** X13: an accepted update replaces the first zone with that id and nothing
    else: the ids keep their order, every zone with another id stays as it
    was, and an unknown id leaves the list as it is.  The replacing record
    carries no perimeter, so no border is drawn for the updated zone until the
    zones are loaded again.  A rejected update raises. *)
Theorem updateZone_local (this : FloodZoneManager) (zoneId : Z) (zoneData : ZoneData) :
  updateZone false this zoneId zoneData = Throw
  /\ exists st',
       updateZone true this zoneId zoneData = Ok st'
       /\ st' = with_zones this (zones st')
       /\ map Zone.id (zones st') = map Zone.id (zones this)
       /\ (forall i z, zones this !! i = Some z -> Zone.id z <> zoneId ->
                       zones st' !! i = Some z)
       /\ (findZone (zones this) zoneId = None -> zones st' = zones this)
       /\ (forall zone, findZone (zones this) zoneId = Some zone ->
             exists z', findZone (zones st') zoneId = Some z'
                        /\ Zone.bounds z' = zd_bounds zoneData
                        /\ Zone.perimeter z' = None
                        /\ forall mapAvailable, drawZoneBorder mapAvailable z' = None).
Proof.
  split; [reflexivity|].
  eexists. split; [reflexivity|]. cbn [zones with_zones].
  split; [reflexivity|]. split; [now apply replaceZone_ids|].
  split; [intros i z; apply replaceZone_others|].
  split; [apply replaceZone_absent|].
  intros zone Hz. exists (zoneOfData zoneData zoneId).
  split; [now apply (findZone_replaceZone _ _ zone)|].
  split; [reflexivity|]. split; [reflexivity|].
  intros m. unfold drawZoneBorder. now destruct m.
Qed.

Lemma updateZone_local_witness :
  exists z', findZone (replaceZone [zoneWithPerimeter] 3
                         (zoneOfData {| zd_name := "green"; zd_image_path := "zone.png";
                                        zd_bounds := ((0, 0), (2, 2));
                                        zd_opacity := 0.6; zd_rotation := 0 |} 3)) 3
             = Some z'
             /\ Zone.bounds z' = ((0, 0), (2, 2))
             /\ Zone.perimeter z' = None
             /\ forall mapAvailable, drawZoneBorder mapAvailable z' = None.
Proof.
  destruct (updateZone_local (newManager [zoneWithPerimeter]) 3
              {| zd_name := "green"; zd_image_path := "zone.png";
                 zd_bounds := ((0, 0), (2, 2)); zd_opacity := 0.6; zd_rotation := 0 |})
    as (_ & st' & Hst & _ & _ & _ & _ & H).
  injection Hst as <-.
  apply (H zoneWithPerimeter). reflexivity.
Defined.

(** ** Dragging a zone *)

(** X14: the drag preview and the saved position agree.  With a base size
    stored, [updateZonePosition] shows the rectangle of size
    [base * currentScale / 100] centred on the drag position, and an accepted
    [saveZonePosition] stores the same rectangle as the bounds of the zone;
    neither changes the base sizes or the scale, and a rejected save changes
    nothing. *)
Theorem saveZonePosition_matches_preview
    (this : FloodZoneManager) (zoneId : Z) (newCenter : LatLng)
    (zone : Zone.t) (baseSize : BaseSize) :
  findZone (zones this) zoneId = Some zone ->
  baseZoneSizes this !! zoneId = Some baseSize ->
  let shown := centredBounds newCenter (scaledSize baseSize (currentScale this / 100)) in
  (forall overlay,
      overlays this !! zoneId = Some overlay ->
      overlays (updateZonePosition this zoneId newCenter) !! zoneId
      = Some (setBounds overlay shown))
  /\ (let saved := saveZonePosition true this zoneId newCenter in
      (exists z', findZone (zones saved) zoneId = Some z' /\ Zone.bounds z' = shown)
      /\ baseZoneSizes saved = baseZoneSizes this
      /\ currentScale saved = currentScale this
      /\ overlays saved = overlays this)
  /\ saveZonePosition false this zoneId newCenter = this.
Proof.
  intros Hz Hb shown. unfold findZone in Hz. split; [|split].
  - intros overlay Ho. unfold updateZonePosition. rewrite Hb, Ho.
    cbn [overlays with_overlays]. now rewrite lookup_insert_eq.
  - unfold saveZonePosition. rewrite Hz, Hb. cbn [updateZone try_catch].
    cbn [zones baseZoneSizes currentScale overlays with_zones].
    split; [|auto].
    eexists. split; [now apply (findZone_replaceZone _ _ zone)|reflexivity].
  - unfold saveZonePosition. now rewrite Hz, Hb.
Qed.

Lemma saveZonePosition_matches_preview_witness :
  let shown := centredBounds (7, 7) (scaledSize {| latSize := 10; lngSize := 10 |} (50 / 100)) in
  overlays (updateZonePosition managerScaled 1 (7, 7)) !! 1%Z
  = Some (setBounds (overlayLoaded (Zone.bounds zoneA)) shown)
  /\ exists z', findZone (zones (saveZonePosition true managerScaled 1 (7, 7))) 1 = Some z'
                /\ Zone.bounds z' = shown.
Proof.
  destruct (saveZonePosition_matches_preview managerScaled 1 (7, 7) zoneA
              {| latSize := 10; lngSize := 10 |}) as (H1 & (H2 & _) & _).
  - reflexivity.
  - reflexivity.
  - split; [apply H1; reflexivity|exact H2].
Defined.

(** ** Group operations *)

Lemma with_overlays_same (this : FloodZoneManager) :
  with_overlays this (overlays this) = this.
Proof. now destruct this. Qed.

Lemma alter_lookup_Some (m : gmap Z Overlay) (k : Z) (ov : Overlay) (f : Overlay -> Overlay) :
  m !! k = Some ov -> alter f k m = <[k := f ov]> m.
Proof.
  intros Hk. apply map_eq. intros j. destruct (decide (k = j)) as [->|Hne].
  - now rewrite lookup_alter_eq, lookup_insert_eq, Hk.
  - now rewrite lookup_alter_ne, lookup_insert_ne.
Qed.

Lemma alter_lookup_None (m : gmap Z Overlay) (k : Z) (f : Overlay -> Overlay) :
  m !! k = None -> alter f k m = m.
Proof.
  intros Hk. apply map_eq. intros j. destruct (decide (k = j)) as [->|Hne].
  - now rewrite lookup_alter_eq, Hk.
  - now rewrite lookup_alter_ne.
Qed.

Lemma applyScaleToZone_alter (this : FloodZoneManager) (zoneId : Z) (f : R) :
  applyScaleToZone this zoneId f
  = with_overlays this (alter (scaleOverlay this f zoneId) zoneId (overlays this)).
Proof.
  unfold applyScaleToZone, scaleOverlay.
  destruct (overlays this !! zoneId) as [ov|] eqn:Ho.
  - rewrite (alter_lookup_Some _ _ ov) by exact Ho.
    destruct (anchors this !! zoneId) as [c|]; [destruct (baseZoneSizes this !! zoneId)|];
      try reflexivity;
      rewrite insert_id by exact Ho; now rewrite with_overlays_same.
  - rewrite alter_lookup_None by exact Ho. now rewrite with_overlays_same.
Qed.

Lemma applyRotationToZone_alter (this : FloodZoneManager) (zoneId : Z) (deg : R) :
  applyRotationToZone this zoneId deg
  = with_overlays this (alter (rotateOverlay deg) zoneId (overlays this)).
Proof.
  unfold applyRotationToZone, rotateOverlay.
  destruct (overlays this !! zoneId) as [ov|] eqn:Ho.
  - rewrite (alter_lookup_Some _ _ ov) by exact Ho.
    destruct (ov_element ov); [reflexivity|].
    rewrite insert_id by exact Ho. now rewrite with_overlays_same.
  - rewrite alter_lookup_None by exact Ho. now rewrite with_overlays_same.
Qed.

(** Folding an idempotent change of single overlays over a list of ids. *)
Lemma fold_alter_lookup (up : Z -> Overlay -> Overlay) :
  (forall k ov, up k (up k ov) = up k ov) ->
  forall (ids : list Z) (m : gmap Z Overlay) (k : Z),
    fold_left (fun m id => alter (up id) id m) ids m !! k
    = if decide (k ∈ ids) then up k <$> m !! k else m !! k.
Proof.
  intros Hidem. induction ids as [|id ids IH]; intros m k.
  - cbn [fold_left]. rewrite decide_False; [reflexivity|]. apply not_elem_of_nil.
  - cbn [fold_left]. rewrite IH.
    destruct (decide (id = k)) as [->|Hne].
    + rewrite lookup_alter_eq.
      rewrite (decide_True (P := k ∈ k :: ids)) by apply list_elem_of_here.
      destruct (decide (k ∈ ids)); [|reflexivity].
      destruct (m !! k); cbn; [now rewrite Hidem|reflexivity].
    + rewrite lookup_alter_ne by exact Hne.
      destruct (decide (k ∈ ids)) as [Hin|Hnin].
      * rewrite (decide_True (P := k ∈ id :: ids)); [reflexivity|].
        now apply list_elem_of_further.
      * rewrite (decide_False (P := k ∈ id :: ids)); [reflexivity|].
        intros H. apply elem_of_cons in H as [H|H]; [congruence|contradiction].
Qed.

(** A fold of steps that only rewrite overlays. *)
Lemma fold_overlay_steps
    (step : FloodZoneManager -> Z -> FloodZoneManager) (up : Z -> Overlay -> Overlay) :
  (forall st id, step st id = with_overlays st (alter (up id) id (overlays st))) ->
  forall (zs : list Zone.t) (st : FloodZoneManager),
    fold_left (fun st zone => step st (Zone.id zone)) zs st
    = with_overlays st
        (fold_left (fun m id => alter (up id) id m) (map Zone.id zs) (overlays st)).
Proof.
  intros Hstep. induction zs as [|z zs IH]; intros st.
  - cbn [fold_left map]. now rewrite with_overlays_same.
  - cbn [fold_left map]. rewrite IH, Hstep. reflexivity.
Qed.

Lemma scaleOverlay_idempotent (this : FloodZoneManager) (f : R) (k : Z) (ov : Overlay) :
  scaleOverlay this f k (scaleOverlay this f k ov) = scaleOverlay this f k ov.
Proof.
  unfold scaleOverlay.
  now destruct (anchors this !! k), (baseZoneSizes this !! k).
Qed.

Lemma rotateOverlay_idempotent (deg : R) (ov : Overlay) :
  rotateOverlay deg (rotateOverlay deg ov) = rotateOverlay deg ov.
Proof.
  unfold rotateOverlay. destruct (ov_element ov) eqn:E; cbn [ov_element setElement].
  - reflexivity.
  - now rewrite E.
Qed.

Lemma applyScaleToAllZones_fold (this : FloodZoneManager) (f : R) :
  applyScaleToAllZones this f
  = with_overlays this
      (fold_left (fun m id => alter (scaleOverlay this f id) id m)
                 (zoneIds this) (overlays this)).
Proof.
  unfold applyScaleToAllZones, zoneIds.
  assert (H : forall zs st,
             anchors st = anchors this -> baseZoneSizes st = baseZoneSizes this ->
             fold_left (fun st zone => applyScaleToZone st (Zone.id zone) f) zs st
             = with_overlays st
                 (fold_left (fun m id => alter (scaleOverlay this f id) id m)
                            (map Zone.id zs) (overlays st))).
  { induction zs as [|z zs IH]; intros st Ha Hb.
    - cbn [fold_left map]. now rewrite with_overlays_same.
    - cbn [fold_left map]. rewrite IH by (rewrite applyScaleToZone_alter; assumption).
      rewrite applyScaleToZone_alter. cbn [overlays with_overlays].
      rewrite with_overlays_twice.
      replace (scaleOverlay st f (Zone.id z)) with (scaleOverlay this f (Zone.id z));
        [reflexivity|].
      unfold scaleOverlay. now rewrite Ha, Hb. }
  now apply H.
Qed.

(** X15: scaling all zones gives every loaded zone that has an overlay, an
    anchor and a base size the rectangle of its own base size times the
    factor, centred on its own anchor; a zone that lacks one of them is
    skipped without stopping the others, and overlays of ids that are not
    loaded, anchors, base sizes and zones are left alone. *)
Theorem applyScaleToAllZones_each (this : FloodZoneManager) (f : R) :
  let this' := applyScaleToAllZones this f in
  (zones this' = zones this /\ anchors this' = anchors this
   /\ baseZoneSizes this' = baseZoneSizes this)
  /\ (forall k overlay center baseSize,
         k ∈ zoneIds this ->
         overlays this !! k = Some overlay ->
         anchors this !! k = Some center ->
         baseZoneSizes this !! k = Some baseSize ->
         overlays this' !! k
         = Some (setBounds overlay (centredBounds center (scaledSize baseSize f))))
  /\ (forall k,
         k ∉ zoneIds this \/ anchors this !! k = None
         \/ baseZoneSizes this !! k = None ->
         overlays this' !! k = overlays this !! k).
Proof.
  cbv zeta. rewrite applyScaleToAllZones_fold. cbn [zones anchors baseZoneSizes overlays
                                                    with_overlays].
  split; [auto|].
  pose proof (fold_alter_lookup (scaleOverlay this f) (scaleOverlay_idempotent this f)
                (zoneIds this) (overlays this)) as Hl.
  split.
  - intros k overlay center baseSize Hin Ho Ha Hb. rewrite Hl.
    destruct (decide (k ∈ zoneIds this)); [|contradiction].
    rewrite Ho. cbn. unfold scaleOverlay. now rewrite Ha, Hb.
  - intros k Hk. rewrite Hl.
    destruct (decide (k ∈ zoneIds this)) as [Hin|Hnin]; [|reflexivity].
    destruct Hk as [Hk|[Hk|Hk]]; [contradiction| |];
      destruct (overlays this !! k); cbn; try reflexivity;
      unfold scaleOverlay; rewrite Hk; [reflexivity|].
    now destruct (anchors this !! k).
Qed.

Lemma applyScaleToAllZones_each_witness :
  overlays (applyScaleToAllZones managerScaled 2) !! 1%Z
  = Some (setBounds (overlayLoaded (Zone.bounds zoneA))
            (centredBounds (5, 5) (scaledSize {| latSize := 10; lngSize := 10 |} 2)))
  /\ overlays (applyScaleToAllZones managerScaled 2) !! 9%Z
     = overlays managerScaled !! 9%Z.
Proof.
  destruct (applyScaleToAllZones_each managerScaled 2) as (_ & H1 & H2).
  split.
  - apply H1; [|reflexivity|reflexivity|reflexivity].
    unfold zoneIds. cbn. apply list_elem_of_here.
  - apply H2. left. unfold zoneIds. cbn. intros H.
    apply list_elem_of_singleton in H. discriminate.
Defined.

Lemma anchorPositionsOf_lookup (this : FloodZoneManager) (k : Z) (x : LatLng) :
  anchorPositionsOf this !! k = Some x -> anchors this !! k = Some x.
Proof.
  unfold anchorPositionsOf.
  assert (H : forall (zs : list Zone.t) (m : gmap Z LatLng),
             (forall k x, m !! k = Some x -> anchors this !! k = Some x) ->
             forall k x,
               fold_left
                 (fun m zone =>
                    match anchors this !! Zone.id zone with
                    | Some anchor => <[Zone.id zone := anchor]> m
                    | None => m
                    end) zs m !! k = Some x ->
               anchors this !! k = Some x).
  { induction zs as [|z zs IH]; intros m Hm k' x'; [apply Hm|].
    cbn [fold_left]. apply IH. intros j y.
    destruct (anchors this !! Zone.id z) as [a|] eqn:Ha; [|apply Hm].
    destruct (decide (Zone.id z = j)) as [<-|Hne].
    - rewrite lookup_insert_eq. congruence.
    - rewrite lookup_insert_ne by exact Hne. apply Hm. }
  apply H. intros j y. now rewrite lookup_empty.
Qed.

(** Putting back anchors that did not move changes nothing. *)
Lemma restoreAnchor_noop (st : FloodZoneManager) (positions : gmap Z LatLng) :
  (forall k x, positions !! k = Some x -> anchors st !! k = Some x) ->
  map_fold restoreAnchor st positions = st.
Proof.
  revert positions.
  apply (map_fold_weak_ind
           (fun r (m : gmap Z LatLng) =>
              (forall k x, m !! k = Some x -> anchors st !! k = Some x) -> r = st)).
  - reflexivity.
  - intros i x m r Hi IH Hm.
    rewrite IH.
    + unfold restoreAnchor. rewrite (Hm i x) by apply lookup_insert_eq.
      rewrite !Rminus_diag, Rabs_R0. unfold Rgtb.
      replace (Rltb 0.0001 0) with false by (symmetry; apply Rltb_false_iff; lra).
      reflexivity.
    + intros k y Hk. apply Hm. rewrite lookup_insert_ne; [exact Hk|]. congruence.
Qed.

(** X16: rotating all zones writes the rotation to the element of every
    loaded zone's overlay and to nothing else: no anchor moves, and the bounds
    of every overlay, the zones and the base sizes stay as they were. *)
Theorem applyRotationToAllZones_each (this : FloodZoneManager) (deg : R) :
  let this' := applyRotationToAllZones this deg in
  (zones this' = zones this /\ anchors this' = anchors this
   /\ baseZoneSizes this' = baseZoneSizes this)
  /\ (forall k, overlays this' !! k
                = if decide (k ∈ zoneIds this)
                  then rotateOverlay deg <$> overlays this !! k
                  else overlays this !! k)
  /\ (forall k, ov_bounds <$> overlays this' !! k = ov_bounds <$> overlays this !! k).
Proof.
  cbv zeta. unfold applyRotationToAllZones.
  rewrite (fold_overlay_steps (fun st id => applyRotationToZone st id deg)
             (fun _ => rotateOverlay deg))
    by (intros st id; apply applyRotationToZone_alter).
  rewrite restoreAnchor_noop
    by (intros k x Hk; cbn [anchors with_overlays]; now apply anchorPositionsOf_lookup).
  cbn [zones anchors baseZoneSizes overlays with_overlays].
  split; [auto|].
  pose proof (fold_alter_lookup (fun _ => rotateOverlay deg)
                (fun _ => rotateOverlay_idempotent deg)
                (zoneIds this) (overlays this)) as Hl.
  split; [exact Hl|].
  intros k. fold (zoneIds this). rewrite Hl.
  destruct (decide (k ∈ zoneIds this)); [|reflexivity].
  destruct (overlays this !! k) as [ov|]; [|reflexivity]. cbn.
  unfold rotateOverlay. now destruct (ov_element ov).
Qed.

(** ** Clearing and deleting *)

(** X17: after [clearZones] the zones and the base sizes are still there but
    no overlay and no anchor is registered: the pixel-accurate query answers
    as the coarse query did before, a scale preview does nothing and a commit
    changes nothing. *)
Theorem clearZones_effects (this : FloodZoneManager) :
  let cleared := clearZones this in
  (zones cleared = zones this /\ baseZoneSizes cleared = baseZoneSizes this
   /\ overlays cleared = ∅ /\ anchors cleared = ∅)
  /\ (forall lat lng checkPixels,
         getZoneAtPoint cleared lat lng checkPixels = getZoneAtPoint this lat lng false)
  /\ (forall zoneId f, applyScaleToZone cleared zoneId f = cleared)
  /\ (forall page updateSuccess reload zoneId,
         saveZoneTransform page updateSuccess reload cleared zoneId = cleared).
Proof.
  cbv zeta. split; [repeat split|]. split; [|split].
  - intros lat lng checkPixels. unfold getZoneAtPoint.
    cbn [zones clearZones with_anchors with_overlays].
    rewrite (getZoneAtPoint_loop_coarse this).
    induction (rev (zones this)) as [|z zs IH]; [reflexivity|].
    cbn [getZoneAtPoint_loop find overlays clearZones with_anchors with_overlays].
    rewrite lookup_empty.
    destruct (isPointInBounds (lat, lng) (Zone.bounds z)); [|exact IH].
    now destruct checkPixels.
  - intros zoneId f. unfold applyScaleToZone.
    cbn [overlays clearZones with_anchors with_overlays]. now rewrite lookup_empty.
  - intros page updateSuccess reload zoneId. unfold saveZoneTransform.
    cbn [zones anchors clearZones with_anchors with_overlays].
    destruct (find _ (zones this)); [|reflexivity].
    destruct (saveBtn page); cbn [negb]; [|reflexivity].
    now rewrite lookup_empty.
Qed.

(** ** Displaying the zones *)

Lemma hideOverlay_idempotent (page : Page) (k : Z) (ov : Overlay) :
  hideOverlay page k (hideOverlay page k ov) = hideOverlay page k ov.
Proof. unfold hideOverlay. now destruct (bool_decide _). Qed.

Lemma displayZones_two_loops (page : Page) (this : FloodZoneManager) :
  mapAvailable page = true ->
  displayZones page this
  = fold_left (showZone page) (zones this)
      (with_overlays this
         (fold_left (fun m id => alter (hideOverlay page id) id m)
                    (zoneIds this) (overlays this))).
Proof.
  intros Hmap.
  pose proof (fold_overlay_steps
                (fun st id =>
                   if bool_decide (id ∈ checkedZoneIds page) then st
                   else match overlays st !! id with
                        | Some overlay =>
                          with_overlays st (<[id := removeLayer overlay]> (overlays st))
                        | None => st
                        end)
                (hideOverlay page)) as E.
  cbv beta in E. unfold zoneIds. rewrite <- E.
  - unfold displayZones. rewrite Hmap. reflexivity.
  - intros st id. unfold hideOverlay.
    destruct (bool_decide (id ∈ checkedZoneIds page)).
    + destruct (overlays st !! id) as [ov|] eqn:Eo.
      * rewrite (alter_lookup_Some _ _ ov) by exact Eo.
        rewrite insert_id by exact Eo. now rewrite with_overlays_same.
      * rewrite alter_lookup_None by exact Eo. now rewrite with_overlays_same.
    + destruct (overlays st !! id) as [ov|] eqn:Eo.
      * now rewrite (alter_lookup_Some _ _ ov) by exact Eo.
      * rewrite alter_lookup_None by exact Eo. now rewrite with_overlays_same.
Qed.

(** What one turn of the second loop does. *)
Lemma showZone_step (page : Page) (st : FloodZoneManager) (zone : Zone.t) :
  let st' := showZone page st zone in
  (forall k, k <> Zone.id zone ->
             overlays st' !! k = overlays st !! k
             /\ baseZoneSizes st' !! k = baseZoneSizes st !! k)
  /\ (Zone.id zone ∉ checkedZoneIds page -> st' = st)
  /\ (forall k ov, overlays st !! k = Some ov -> ov_onMap ov = true ->
                   overlays st' !! k = Some ov)
  /\ (mapAvailable page = true -> Zone.id zone ∈ checkedZoneIds page ->
      exists ov, overlays st' !! Zone.id zone = Some ov /\ ov_onMap ov = true).
Proof.
  assert (Hadd : forall k, k <> Zone.id zone ->
            overlays (addZoneOverlay page st zone) !! k = overlays st !! k
            /\ baseZoneSizes (addZoneOverlay page st zone) !! k = baseZoneSizes st !! k).
  { intros k Hk. unfold addZoneOverlay. destruct (mapAvailable page); cbn [negb]; [|auto].
    destruct (Zone.bounds zone) as [[south west] [north east]].
    cbn [overlays baseZoneSizes with_overlays with_baseZoneSizes].
    split; [now rewrite lookup_insert_ne|].
    destruct (baseZoneSizes st !! Zone.id zone); [reflexivity|].
    now rewrite lookup_insert_ne. }
  assert (Hon : mapAvailable page = true ->
            exists ov, overlays (addZoneOverlay page st zone) !! Zone.id zone = Some ov
                       /\ ov_onMap ov = true).
  { intros Hmap. unfold addZoneOverlay. rewrite Hmap. cbn [negb].
    destruct (Zone.bounds zone) as [[south west] [north east]].
    cbn [overlays with_overlays]. rewrite lookup_insert_eq. eauto. }
  cbv zeta. unfold showZone.
  destruct (bool_decide (Zone.id zone ∈ checkedZoneIds page)) eqn:Hc.
  - apply bool_decide_eq_true in Hc.
    destruct (overlays st !! Zone.id zone) as [ov|] eqn:Ho.
    + destruct (ov_onMap ov) eqn:Hm.
      * split; [auto|]. split; [auto|]. split; [auto|]. eauto.
      * split; [exact Hadd|]. split; [contradiction|]. split; [|auto].
        intros k ov' Hk Hon'. destruct (decide (k = Zone.id zone)) as [->|Hne].
        -- congruence.
        -- now rewrite (proj1 (Hadd k Hne)).
    + split; [exact Hadd|]. split; [contradiction|]. split; [|auto].
      intros k ov' Hk Hon'. destruct (decide (k = Zone.id zone)) as [->|Hne].
      * congruence.
      * now rewrite (proj1 (Hadd k Hne)).
  - apply bool_decide_eq_false in Hc.
    split; [auto|]. split; [auto|]. split; [auto|]. contradiction.
Qed.

Lemma showZone_fold (page : Page) (zs : list Zone.t) :
  forall st : FloodZoneManager,
    let st' := fold_left (showZone page) zs st in
    (forall k, k ∉ map Zone.id zs \/ k ∉ checkedZoneIds page ->
               overlays st' !! k = overlays st !! k)
    /\ (forall k, k ∉ map Zone.id zs ->
                  baseZoneSizes st' !! k = baseZoneSizes st !! k)
    /\ (forall k ov, overlays st !! k = Some ov -> ov_onMap ov = true ->
                     overlays st' !! k = Some ov)
    /\ (mapAvailable page = true ->
        forall k, k ∈ map Zone.id zs -> k ∈ checkedZoneIds page ->
                  exists ov, overlays st' !! k = Some ov /\ ov_onMap ov = true).
Proof.
  induction zs as [|z zs IH]; intros st; cbv zeta.
  - cbn [fold_left map]. split; [auto|]. split; [auto|]. split; [auto|].
    intros _ k Hk. now apply not_elem_of_nil in Hk.
  - cbn [fold_left map].
    destruct (showZone_step page st z) as (S1 & S2 & S3 & S4). cbv zeta in S1, S2, S3, S4.
    destruct (IH (showZone page st z)) as (I1 & I2 & I3 & I4).
    cbv zeta in I1, I2, I3, I4.
    split; [|split; [|split]].
    + intros k Hk. destruct Hk as [Hk|Hk].
      * rewrite I1 by (left; intros H; apply Hk; now apply list_elem_of_further).
        apply S1. intros ->. apply Hk. apply list_elem_of_here.
      * rewrite I1 by now right.
        destruct (decide (k = Zone.id z)) as [->|Hne]; [now rewrite S2|now apply S1].
    + intros k Hk.
      rewrite I2 by (intros H; apply Hk; now apply list_elem_of_further).
      apply S1. intros ->. apply Hk. apply list_elem_of_here.
    + intros k ov Hk Hon. apply I3; [|exact Hon]. now apply S3.
    + intros Hmap k Hk Hc. apply elem_of_cons in Hk as [->|Hk].
      * destruct (S4 Hmap Hc) as (ov & Hov & Hon). exists ov. split; [|exact Hon].
        now apply I3.
      * now apply I4.
Qed.

Lemma displayZones_unloaded (page : Page) (this : FloodZoneManager) (k : Z) :
  k ∉ zoneIds this ->
  overlays (displayZones page this) !! k = overlays this !! k
  /\ baseZoneSizes (displayZones page this) !! k = baseZoneSizes this !! k.
Proof.
  intros Hk. destruct (mapAvailable page) eqn:Hmap.
  - rewrite displayZones_two_loops by exact Hmap.
    set (hidden := with_overlays this _).
    destruct (showZone_fold page (zones this) hidden) as (I1 & I2 & _ & _).
    cbv zeta in I1, I2. fold (zoneIds this) in I1, I2.
    rewrite I1 by now left. rewrite I2 by exact Hk.
    unfold hidden. cbn [overlays baseZoneSizes with_overlays].
    rewrite (fold_alter_lookup (hideOverlay page) (hideOverlay_idempotent page)).
    now rewrite decide_False by exact Hk.
  - unfold displayZones. rewrite Hmap. auto.
Qed.

Lemma displayZones_checked (page : Page) (this : FloodZoneManager) (k : Z) :
  mapAvailable page = true ->
  k ∈ zoneIds this -> k ∈ checkedZoneIds page ->
  exists ov, overlays (displayZones page this) !! k = Some ov /\ ov_onMap ov = true.
Proof.
  intros Hmap Hk Hc. rewrite displayZones_two_loops by exact Hmap.
  set (hidden := with_overlays this _).
  destruct (showZone_fold page (zones this) hidden) as (_ & _ & _ & I4).
  cbv zeta in I4. fold (zoneIds this) in I4. now apply I4.
Qed.

Lemma displayZones_unchecked (page : Page) (this : FloodZoneManager) (k : Z) (ov : Overlay) :
  mapAvailable page = true ->
  k ∈ zoneIds this -> k ∉ checkedZoneIds page ->
  overlays (displayZones page this) !! k = Some ov -> ov_onMap ov = false.
Proof.
  intros Hmap Hk Hc. rewrite displayZones_two_loops by exact Hmap.
  set (hidden := with_overlays this _).
  destruct (showZone_fold page (zones this) hidden) as (I1 & _ & _ & _).
  cbv zeta in I1. rewrite I1 by now right.
  unfold hidden. cbn [overlays with_overlays].
  rewrite (fold_alter_lookup (hideOverlay page) (hideOverlay_idempotent page)).
  rewrite decide_True by exact Hk.
  destruct (overlays this !! k) as [ov0|]; [|discriminate].
  cbn. intros [= <-]. unfold hideOverlay.
  rewrite bool_decide_eq_false_2 by exact Hc. reflexivity.
Qed.

(** X18: with the map available, [displayZones] leaves every loaded zone
    whose box is checked with an overlay on the map and every other loaded
    zone with its overlay, if any, off the map; overlays and base sizes of
    ids that are not loaded are not touched.  Without the map nothing
    changes. *)
Theorem displayZones_shown (page : Page) (this : FloodZoneManager) :
  (mapAvailable page = false -> displayZones page this = this)
  /\ (mapAvailable page = true ->
      let this' := displayZones page this in
      (forall k, k ∈ zoneIds this -> k ∈ checkedZoneIds page ->
                 exists ov, overlays this' !! k = Some ov /\ ov_onMap ov = true)
      /\ (forall k ov, k ∈ zoneIds this -> k ∉ checkedZoneIds page ->
                       overlays this' !! k = Some ov -> ov_onMap ov = false)
      /\ (forall k, k ∉ zoneIds this ->
                    overlays this' !! k = overlays this !! k
                    /\ baseZoneSizes this' !! k = baseZoneSizes this !! k)).
Proof.
  split.
  - intros Hmap. unfold displayZones. now rewrite Hmap.
  - intros Hmap. cbv zeta. split; [|split].
    + intros k Hk Hc. now apply displayZones_checked.
    + intros k ov Hk Hc. now apply displayZones_unchecked.
    + intros k Hk. now apply displayZones_unloaded.
Qed.

Lemma displayZones_shown_witness :
  (exists ov, overlays (displayZones pageReady (newManager [zoneA])) !! 1%Z = Some ov
              /\ ov_onMap ov = true)
  /\ displayZones {| mapAvailable := false; saveBtn := true; checkedZoneIds := ∅;
                     newOverlayElement := None; newOverlayBoundsIterable := false |}
                  (newManager [zoneA])
     = newManager [zoneA].
Proof.
  destruct (displayZones_shown pageReady (newManager [zoneA])) as [_ H].
  destruct (H eq_refl) as (H1 & _ & _).
  split.
  - apply H1.
    + unfold zoneIds. cbn. apply list_elem_of_here.
    + cbn. apply elem_of_singleton. reflexivity.
  - now apply (proj1 (displayZones_shown _ (newManager [zoneA]))).
Defined.

(** ** States reachable from the constructor *)

Lemma fold_left_preserves {A : Type} (P : FloodZoneManager -> Prop)
    (step : FloodZoneManager -> A -> FloodZoneManager) :
  (forall st a, P st -> P (step st a)) ->
  forall (l : list A) (st : FloodZoneManager), P st -> P (fold_left step l st).
Proof.
  intros Hstep l. induction l as [|a l IH]; intros st H; cbn [fold_left]; auto.
Qed.

Lemma applyScaleToZone_pristine (st : FloodZoneManager) (zoneId : Z) (f : R) :
  pristine st -> applyScaleToZone st zoneId f = st.
Proof.
  intros [Ha _]. unfold applyScaleToZone. rewrite Ha, lookup_empty.
  now destruct (overlays st !! zoneId).
Qed.

Lemma applyScaleToAllZones_pristine (st : FloodZoneManager) (f : R) :
  pristine st -> applyScaleToAllZones st f = st.
Proof.
  intros H. unfold applyScaleToAllZones.
  induction (zones st) as [|z zs IH]; cbn [fold_left]; [reflexivity|].
  now rewrite applyScaleToZone_pristine.
Qed.

Lemma saveZoneTransform_pristine
    (page : Page) (updateSuccess : bool) (reload : option (list Zone.t))
    (st : FloodZoneManager) (zoneId : Z) :
  pristine st -> saveZoneTransform page updateSuccess reload st zoneId = st.
Proof.
  intros [Ha _]. unfold saveZoneTransform.
  destruct (find _ (zones st)); [|reflexivity].
  destruct (saveBtn page); cbn [negb]; [|reflexivity].
  now rewrite Ha, lookup_empty.
Qed.

Lemma addZoneOverlay_pristine (page : Page) (st : FloodZoneManager) (zone : Zone.t) :
  pristine st -> pristine (addZoneOverlay page st zone).
Proof.
  intros H. unfold addZoneOverlay. destruct (mapAvailable page); cbn [negb]; [|exact H].
  destruct (Zone.bounds zone) as [[south west] [north east]]. exact H.
Qed.

Lemma displayZones_pristine (page : Page) (st : FloodZoneManager) :
  pristine st -> pristine (displayZones page st).
Proof.
  intros H. unfold displayZones. destruct (mapAvailable page); cbn [negb]; [|exact H].
  cbv zeta. apply fold_left_preserves.
  - intros st0 z H0. destruct (bool_decide _); [|exact H0].
    destruct (overlays st0 !! Zone.id z) as [ov|].
    + destruct (ov_onMap ov); [exact H0|now apply addZoneOverlay_pristine].
    + now apply addZoneOverlay_pristine.
  - apply fold_left_preserves; [|exact H].
    intros st0 z H0. destruct (bool_decide _); [exact H0|].
    now destruct (overlays st0 !! Zone.id z).
Qed.

Lemma loadZones_pristine (page : Page) (response : option (list Zone.t))
    (st : FloodZoneManager) :
  pristine st -> pristine (loadZones page response st).
Proof.
  intros H. unfold loadZones. destruct response; [|exact H].
  now apply displayZones_pristine.
Qed.

Lemma applyRotationToZone_pristine (st : FloodZoneManager) (zoneId : Z) (deg : R) :
  pristine st -> pristine (applyRotationToZone st zoneId deg).
Proof.
  intros H. destruct (applyRotationToZone_frame st zoneId deg) as (_ & _ & Ha & _ & _ & Hs & _).
  cbv zeta in Ha, Hs. unfold pristine. rewrite Ha, Hs. exact H.
Qed.

Lemma applyRotationToAllZones_pristine (st : FloodZoneManager) (deg : R) :
  pristine st -> pristine (applyRotationToAllZones st deg).
Proof.
  intros H. unfold applyRotationToAllZones. cbv zeta.
  assert (Hr : pristine (fold_left (fun st0 zone => applyRotationToZone st0 (Zone.id zone) deg)
                                   (zones st) st)).
  { apply fold_left_preserves; [|exact H].
    intros st0 z H0. now apply applyRotationToZone_pristine. }
  rewrite restoreAnchor_noop; [exact Hr|].
  intros k x Hk. apply anchorPositionsOf_lookup in Hk.
  destruct H as [Ha _]. rewrite Ha, lookup_empty in Hk. discriminate.
Qed.

Lemma runAction_pristine (st : FloodZoneManager) (a : Action) :
  pristine st -> pristine (runAction st a).
Proof.
  intros H. destruct a; cbn [runAction].
  - now apply loadZones_pristine.
  - now apply displayZones_pristine.
  - unfold processImage. now destruct (detectImageContentBounds canvasRead).
  - split; [reflexivity|exact (proj2 H)].
  - unfold onScaleInput. cbv zeta.
    assert (H1 : pristine (with_currentScale st scale)) by exact H.
    unfold selectedZone. rewrite (proj2 H1).
    now rewrite applyScaleToAllZones_pristine.
  - unfold onRotationInput. cbv zeta.
    assert (H1 : pristine (with_currentRotation st rotation_)) by exact H.
    unfold selectedZone. rewrite (proj2 H1).
    now apply applyRotationToAllZones_pristine.
  - now rewrite applyScaleToZone_pristine.
  - now apply applyRotationToZone_pristine.
  - now rewrite applyScaleToAllZones_pristine.
  - now apply applyRotationToAllZones_pristine.
  - unfold updateZonePosition.
    destruct (baseZoneSizes st !! zoneId); [|exact H].
    now destruct (overlays st !! zoneId).
  - unfold saveZonePosition.
    destruct (find _ (zones st)); [|exact H].
    destruct (baseZoneSizes st !! zoneId); [|exact H].
    cbv zeta. unfold updateZone. now destruct updateSuccess.
  - now rewrite saveZoneTransform_pristine.
  - unfold updateZone. now destruct success.
  - unfold deleteZone. destruct confirmed; cbn [negb fst]; [|exact H].
    destruct deleteSuccess; cbn [fst]; [|exact H].
    apply loadZones_pristine. destruct H as [Ha Hs]. split; [|exact Hs].
    cbn [anchors with_baseZoneSizes with_anchors]. rewrite Ha. apply delete_empty.
Qed.

(** X19: whichever of the operations embedded here run after the
    constructor, in whatever order and with whatever answers of the page and
    the backend, no anchor is ever registered and no zone is ever selected.
    So on every state reached a scale preview, for one zone or for all,
    leaves the state as it is, the scale slider only records its value, and
    saving a transform changes nothing. *)
Theorem anchors_never_registered (acts : list Action) :
  let st := runActions (newManager []) acts in
  anchors st = ∅ /\ selectedZoneId st = None
  /\ (forall zoneId f, applyScaleToZone st zoneId f = st)
  /\ (forall f, applyScaleToAllZones st f = st)
  /\ (forall scale, onScaleInput st scale = with_currentScale st scale)
  /\ (forall page updateSuccess reload zoneId,
         saveZoneTransform page updateSuccess reload st zoneId = st).
Proof.
  cbv zeta.
  assert (H : pristine (runActions (newManager []) acts)).
  { unfold runActions. apply fold_left_preserves.
    - intros st a. apply runAction_pristine.
    - split; reflexivity. }
  split; [exact (proj1 H)|]. split; [exact (proj2 H)|].
  split; [intros; now apply applyScaleToZone_pristine|].
  split; [intros; now apply applyScaleToAllZones_pristine|].
  split; [|intros; now apply saveZoneTransform_pristine].
  intros scale. unfold onScaleInput. cbv zeta.
  assert (H1 : pristine (with_currentScale (runActions (newManager []) acts) scale))
    by exact H.
  unfold selectedZone. rewrite (proj2 H1).
  now rewrite applyScaleToAllZones_pristine.
Qed.

(** ** Deleting a zone *)

(** X20: [deleteZone] does nothing without the confirmation and nothing
    when the backend refuses, returning [false] then.  After an accepted
    deletion it returns [true], no anchor is stored under the id, the zone
    list is the reloaded one, and when the reloaded list no longer holds the
    id, neither an overlay nor a base size is registered for it.  When the
    reload fails the zone list is the old one, deleted zone included, so the
    coarse query answers as before. *)
Theorem deleteZone_effects
    (page : Page) (reload : option (list Zone.t)) (this : FloodZoneManager) (zoneId : Z) :
  (forall deleteSuccess,
      deleteZone page false deleteSuccess reload this zoneId = (this, None))
  /\ deleteZone page true false reload this zoneId = (this, Some false)
  /\ (let this' := fst (deleteZone page true true reload this zoneId) in
      snd (deleteZone page true true reload this zoneId) = Some true
      /\ anchors this' !! zoneId = None
      /\ zones this' = match reload with Some loaded => loaded | None => zones this end
      /\ (zoneId ∉ zoneIds this' ->
          overlays this' !! zoneId = None /\ baseZoneSizes this' !! zoneId = None)
      /\ (reload = None ->
          forall lat lng,
            getZoneAtPoint this' lat lng false = getZoneAtPoint this lat lng false)).
Proof.
  split; [reflexivity|]. split; [reflexivity|].
  cbv zeta. unfold deleteZone. cbn [negb fst snd].
  set (removed := with_baseZoneSizes _ _).
  destruct (loadZones_keeps page reload removed) as (Hz & Ha & _ & _).
  cbv zeta in Hz, Ha.
  split; [reflexivity|]. split; [|split; [|split]].
  - rewrite Ha. unfold removed. cbn [anchors with_baseZoneSizes with_anchors].
    apply lookup_delete_eq.
  - rewrite Hz. now destruct reload.
  - intros Hk. unfold zoneIds in Hk. destruct reload as [loaded|]; cbn [loadZones] in *.
    + rewrite Hz in Hk.
      destruct (displayZones_unloaded page (with_zones removed loaded) zoneId Hk)
        as [Ho Hb].
      rewrite Ho, Hb. unfold removed.
      cbn [overlays baseZoneSizes with_zones with_baseZoneSizes with_anchors with_overlays].
      now rewrite !lookup_delete_eq.
    + unfold removed.
      cbn [overlays baseZoneSizes with_zones with_baseZoneSizes with_anchors with_overlays].
      now rewrite !lookup_delete_eq.
  - intros -> lat lng. cbn [loadZones]. unfold getZoneAtPoint.
    rewrite (getZoneAtPoint_loop_coarse removed), (getZoneAtPoint_loop_coarse this).
    reflexivity.
Qed.

Lemma deleteZone_effects_witness :
  overlays (fst (deleteZone pageReady true true (Some []) managerScaled 1)) !! 1%Z = None
  /\ baseZoneSizes (fst (deleteZone pageReady true true (Some []) managerScaled 1)) !! 1%Z
     = None
  /\ getZoneAtPoint (fst (deleteZone pageReady true true None managerScaled 1)) 5 5 false
     = getZoneAtPoint managerScaled 5 5 false.
Proof.
  destruct (deleteZone_effects pageReady (Some []) managerScaled 1)
    as (_ & _ & _ & _ & Hz & H & _).
  destruct (deleteZone_effects pageReady None managerScaled 1)
    as (_ & _ & _ & _ & _ & _ & Hn).
  cbv zeta in H, Hz, Hn.
  split; [|split].
  - apply H. unfold zoneIds. rewrite Hz. apply not_elem_of_nil.
  - apply H. unfold zoneIds. rewrite Hz. apply not_elem_of_nil.
  - apply Hn. reflexivity.
Defined.

(** ** The pixel check after the image has been processed *)





(** ** The coarse query and hidden zones *)

(** C3, counterexample: with the sample zones A and B loaded and only the
    box of A checked, [displayZones] puts A on the map and leaves B off it;
    the coarse query at (7,7) still answers B, a zone that is not active,
    although the displayed zone A contains the point as well. *)
Lemma getZoneAtPoint_returns_hidden_zone :
  getZoneAtPoint (displayZones pageReady managerAB) 7 7 false = Some zoneB
  /\ (Zone.id zoneB ∉ checkedZoneIds pageReady)
  /\ (forall ov, overlays (displayZones pageReady managerAB) !! Zone.id zoneB = Some ov ->
                 ov_onMap ov = false)
  /\ (Zone.id zoneA ∈ checkedZoneIds pageReady)
  /\ (exists ov, overlays (displayZones pageReady managerAB) !! Zone.id zoneA = Some ov
                 /\ ov_onMap ov = true)
  /\ isPointInBounds (7, 7) (Zone.bounds zoneA) = true.
Proof.
  assert (HA : Zone.id zoneA ∈ checkedZoneIds pageReady)
    by (cbn; apply elem_of_singleton; reflexivity).
  assert (HB : Zone.id zoneB ∉ checkedZoneIds pageReady)
    by (cbn; intros H; apply elem_of_singleton in H; discriminate).
  split; [|split; [exact HB|split; [|split; [exact HA|split]]]].
  - destruct (displayZones_keeps pageReady managerAB) as (Hz & _).
    unfold getZoneAtPoint. rewrite getZoneAtPoint_loop_coarse, Hz.
    cbn [managerAB newManager zones rev app find zoneB mkZone Zone.bounds].
    replace (isPointInBounds (7, 7) ((5, 5), (15, 15))) with true
      by (symmetry; apply isPointInBounds_spec; lra).
    reflexivity.
  - intros ov. apply displayZones_unchecked; [reflexivity| |exact HB].
    unfold zoneIds. cbn. apply list_elem_of_further, list_elem_of_here.
  - apply displayZones_checked; [reflexivity| |exact HA].
    unfold zoneIds. cbn. apply list_elem_of_here.
  - apply isPointInBounds_spec. lra.
Qed.

(** ** The flood zone reported at a location *)

Lemma getZoneAtPoint_coarse_zones (st st' : FloodZoneManager) (lat lng : R) :
  zones st' = zones st ->
  getZoneAtPoint st' lat lng false = getZoneAtPoint st lat lng false.
Proof.
  intros Hz. unfold getZoneAtPoint.
  rewrite (getZoneAtPoint_loop_coarse st'), (getZoneAtPoint_loop_coarse st).
  now rewrite Hz.
Qed.

(** X22: right after [displayZones] has run with the map available, the
    location lookup reports the zone found by the coarse query, the last
    loaded zone whose bounds hold the point, when the box of that zone is
    checked, and reports nothing otherwise: a checked zone lying under an
    unchecked one is not reported. *)
Theorem getFloodZoneAtLocation_displayed
    {ZoneInfo : Type} (getZoneInfo : string -> ZoneInfo)
    (page : Page) (this : FloodZoneManager) (lat lng : R) :
  mapAvailable page = true ->
  getFloodZoneAtLocation getZoneInfo (Some (displayZones page this)) page lat lng
  = match getZoneAtPoint this lat lng false with
    | Some zone =>
      if bool_decide (Zone.id zone ∈ checkedZoneIds page)
      then Some {| fz_id := Zone.id zone; fz_name := Zone.name zone;
                   fz_info := getZoneInfo (Zone.name zone) |}
      else None
    | None => None
    end.
Proof.
  intros Hmap. unfold getFloodZoneAtLocation.
  destruct (displayZones_keeps page this) as (Hz & _).
  rewrite (getZoneAtPoint_coarse_zones this (displayZones page this) lat lng Hz).
  destruct (getZoneAtPoint this lat lng false) as [zone|] eqn:Hq;
    [|now destruct (negb (hasActiveZones page))].
  assert (Hin : Zone.id zone ∈ zoneIds this).
  { unfold getZoneAtPoint in Hq. apply getZoneAtPoint_loop_in_bounds in Hq as [Hin _].
    apply (proj2 (in_rev _ _)) in Hin. unfold zoneIds.
    apply list_elem_of_In. now apply in_map. }
  destruct (bool_decide (Zone.id zone ∈ checkedZoneIds page)) eqn:Hc.
  - apply bool_decide_eq_true in Hc.
    unfold hasActiveZones. rewrite bool_decide_eq_false_2.
    + cbn [negb].
      destruct (displayZones_checked page this _ Hmap Hin Hc) as (ov & -> & ->).
      reflexivity.
    + intros He. rewrite He in Hc. now apply not_elem_of_empty in Hc.
  - apply bool_decide_eq_false in Hc.
    destruct (negb (hasActiveZones page)); [reflexivity|].
    destruct (overlays (displayZones page this) !! Zone.id zone) as [ov|] eqn:Ho;
      [|reflexivity].
    now rewrite (displayZones_unchecked page this _ ov Hmap Hin Hc Ho).
Qed.

Lemma getFloodZoneAtLocation_displayed_witness :
  getFloodZoneAtLocation (fun name => name) (Some (displayZones pageReady managerAB))
                         pageReady 7 7
  = None
  /\ getFloodZoneAtLocation (fun name => name) (Some (displayZones pageReady managerAB))
                            pageReady 2 2
     = Some {| fz_id := 1; fz_name := "pink"%string; fz_info := "pink"%string |}.
Proof.
  split.
  - rewrite (getFloodZoneAtLocation_displayed (fun name => name) pageReady managerAB 7 7
               eq_refl).
    unfold getZoneAtPoint. rewrite getZoneAtPoint_loop_coarse.
    cbn [managerAB newManager zones rev app find zoneB mkZone Zone.bounds].
    replace (isPointInBounds (7, 7) ((5, 5), (15, 15))) with true
      by (symmetry; apply isPointInBounds_spec; lra).
    reflexivity.
  - rewrite (getFloodZoneAtLocation_displayed (fun name => name) pageReady managerAB 2 2
               eq_refl).
    unfold getZoneAtPoint. rewrite getZoneAtPoint_loop_coarse.
    cbn [managerAB newManager zones rev app find zoneA zoneB mkZone Zone.bounds].
    replace (isPointInBounds (2, 2) ((5, 5), (15, 15))) with false
      by (symmetry; apply not_true_is_false; rewrite isPointInBounds_spec; lra).
    replace (isPointInBounds (2, 2) ((0, 0), (10, 10))) with true
      by (symmetry; apply isPointInBounds_spec; lra).
    reflexivity.
Defined.

(** ** The hover handlers *)

Lemma alternates_app (shown : bool) (t1 t2 : list Fired) :
  alternates shown (t1 ++ t2)
  = alternates shown t1 && alternates (tooltipShown shown t1) t2.
Proof.
  revert shown. induction t1 as [|f t1 IH]; intros shown; [reflexivity|].
  destruct f; cbn [app alternates tooltipShown fold_left].
  - rewrite IH. unfold tooltipShown. now rewrite andb_assoc.
  - rewrite IH. unfold tooltipShown. now rewrite andb_assoc.
Qed.

Lemma tooltipShown_app (shown : bool) (t1 t2 : list Fired) :
  tooltipShown shown (t1 ++ t2) = tooltipShown (tooltipShown shown t1) t2.
Proof. unfold tooltipShown. apply fold_left_app. Qed.

Lemma onMouseEvent_step (pixelData : ImageData) (shown : bool) (e : MouseEvent) :
  alternates shown (snd (onMouseEvent pixelData shown e)) = true
  /\ tooltipShown shown (snd (onMouseEvent pixelData shown e))
     = fst (onMouseEvent pixelData shown e).
Proof.
  destruct e as [x y [latlng|]|]; cbn [onMouseEvent];
    try destruct (insideImage pixelData x y);
    try destruct (isOverColoredPixel pixelData x y);
    destruct shown; cbn; auto.
Qed.

Lemma runMouseEvents_snoc (pixelData : ImageData) (shown : bool)
    (events : list MouseEvent) (e : MouseEvent) :
  runMouseEvents pixelData shown (events ++ [e])
  = (fst (onMouseEvent pixelData (fst (runMouseEvents pixelData shown events)) e),
     snd (runMouseEvents pixelData shown events)
     ++ snd (onMouseEvent pixelData (fst (runMouseEvents pixelData shown events)) e)).
Proof.
  unfold runMouseEvents. rewrite fold_left_app. cbn [fold_left].
  now destruct (onMouseEvent pixelData _ e).
Qed.

Lemma runMouseEvents_trace (pixelData : ImageData) (events : list MouseEvent) :
  alternates false (snd (runMouseEvents pixelData false events)) = true
  /\ tooltipShown false (snd (runMouseEvents pixelData false events))
     = fst (runMouseEvents pixelData false events).
Proof.
  induction events as [|e events [IH1 IH2]] using rev_ind; [split; reflexivity|].
  rewrite runMouseEvents_snoc. cbn [fst snd].
  destruct (onMouseEvent_step pixelData (fst (runMouseEvents pixelData false events)) e)
    as [S1 S2].
  rewrite alternates_app, tooltipShown_app, IH1, IH2. auto.
Qed.

(** X23: from the initial state of the hover handlers on, whatever the
    pointer does, [mouseover] and [mouseout] are fired in turns, [mouseover]
    first, and [lastTooltipState] tells whether the last event fired was
    [mouseover].  After a move whose centre can be read the state tells
    whether the pointer is inside the image and over a colored pixel; after
    [mouseleave] it is [false]. *)
Theorem hover_events_alternate (pixelData : ImageData) (events : list MouseEvent) :
  let run := runMouseEvents pixelData false events in
  alternates false (snd run) = true
  /\ fst run = tooltipShown false (snd run)
  /\ (forall earlier x y latlng,
         events = earlier ++ [MouseMove x y (Ok latlng)] ->
         fst run = insideImage pixelData x y && isOverColoredPixel pixelData x y)
  /\ (forall earlier, events = earlier ++ [MouseLeave] -> fst run = false).
Proof.
  cbv zeta. destruct (runMouseEvents_trace pixelData events) as [H1 H2].
  split; [exact H1|]. split; [now rewrite H2|]. split.
  - intros earlier x y latlng ->. rewrite runMouseEvents_snoc. cbn [fst onMouseEvent].
    destruct (insideImage pixelData x y), (isOverColoredPixel pixelData x y),
      (fst (runMouseEvents pixelData false earlier)); reflexivity.
  - intros earlier ->. rewrite runMouseEvents_snoc. cbn [fst onMouseEvent].
    now destruct (fst (runMouseEvents pixelData false earlier)).
Qed.

Lemma hover_events_alternate_witness :
  fst (runMouseEvents onePixelRaster false [MouseMove 0 0 (Ok (5, 5))]) = true
  /\ fst (runMouseEvents onePixelRaster false [MouseMove 0 0 (Ok (5, 5)); MouseLeave])
     = false.
Proof.
  split.
  - exact (proj1 (proj2 (proj2 (hover_events_alternate onePixelRaster
                                  [MouseMove 0 0 (Ok (5, 5))])))
                 [] 0%Z 0%Z (5, 5) eq_refl).
  - exact (proj2 (proj2 (proj2 (hover_events_alternate onePixelRaster
                                  [MouseMove 0 0 (Ok (5, 5)); MouseLeave])))
                 [MouseMove 0 0 (Ok (5, 5))] eq_refl).
Defined.

(** ** The perimeter on the map *)

Lemma closeRing_Forall (P : LatLng -> Prop) (perimeter : list LatLng) :
  Forall P perimeter -> Forall P (closeRing perimeter).
Proof.
  intros H. unfold closeRing. destruct perimeter as [|first rest]; [exact H|].
  destruct (negb _ || negb _); [|exact H].
  apply Forall_app. split; [exact H|].
  constructor; [|constructor]. now inversion H.
Qed.

(** X24: the vertices of a perimeter found by [detectColorPerimeter],
    mapped by [pixelsToLatLng] with the size of the image and the bounds of
    the zone, all lie within these bounds, one for each vertex of the pixel
    path, and so do the vertices of the ring that [drawZoneBorder] closes. *)
Theorem perimeter_within_bounds
    (img : ImageData) (path : list Point) (south west north east : R) :
  south <= north -> west <= east ->
  detectColorPerimeter (Ok img) = Some path ->
  let bounds := ((south, west), (north, east)) in
  let latlngs := pixelsToLatLng path (INR (width img)) (INR (height img)) bounds in
  length latlngs = length path
  /\ Forall (fun latlng => isPointInBounds latlng bounds = true) latlngs
  /\ Forall (fun latlng => isPointInBounds latlng bounds = true) (closeRing latlngs).
Proof.
  intros Hsn Hwe Hpath bounds latlngs.
  destruct (detectColorPerimeter_edge_path img path Hpath) as [Hedge _].
  assert (Hall : Forall (fun latlng => isPointInBounds latlng bounds = true) latlngs).
  { unfold latlngs, bounds, pixelsToLatLng. apply List.Forall_forall.
    intros latlng Hin. apply in_map_iff in Hin as ([px py] & <- & Hp).
    destruct (Hedge _ Hp) as (x & y & [= -> ->] & (Hx & Hy & _) & _).
    apply isPointInBounds_spec.
    assert (Hunit : forall a w : nat, (a < w)%nat -> 0 <= INR a / INR w <= 1).
    { intros a w Haw.
      assert (Hw : 0 < INR w) by (apply lt_0_INR; lia).
      assert (Ha : 0 <= INR a) by apply pos_INR.
      assert (Hlt : INR a <= INR w) by (apply le_INR; lia).
      assert (Hi : 0 < / INR w) by now apply Rinv_0_lt_compat.
      assert (Hr : INR w * / INR w = 1) by (apply Rinv_r; lra).
      unfold Rdiv. split; nra. }
    pose proof (Hunit _ _ Hx) as HX. pose proof (Hunit _ _ Hy) as HY.
    split; split; nra. }
  split; [apply pixelsToLatLng_length|]. split; [exact Hall|].
  now apply closeRing_Forall.
Qed.

Lemma perimeter_within_bounds_witness :
  Forall (fun latlng => isPointInBounds latlng ((0, 0), (10, 10)) = true)
         (closeRing (pixelsToLatLng [(0, 0)] (INR (width onePixelRaster))
                                    (INR (height onePixelRaster)) ((0, 0), (10, 10)))).
Proof.
  apply (perimeter_within_bounds onePixelRaster [(0, 0)] 0 0 10 10);
    [lra|lra|reflexivity].
Defined.
